(** * libcommuni: IrcTextFormat and IrcUserModel

    A shallow embedding of [src/util/irctextformat.cpp] (the conversion of
    IRC-formatted text to HTML and to plain text) and of the user model of
    [src/model/ircusermodel.cpp], followed by the properties proved of them.

    Conventions.
    - A [QChar] is its UTF-16 code unit, a [Z]; a [QString] is the list of its
      code units.  C++ [int]s are unbounded [Z]s: every [int] of the two files
      is an index into, or a count bounded by, a QString or QList, whose size
      Qt keeps below 2^31.
    - The functions of Qt that the code calls are written out after Qt's
      documentation and sources ([QString::replace], [QString::remove],
      [QList::value], ...).  What depends on tables of the Unicode standard
      ([QChar::isDigit], [QChar::isSpace], case folding, UTF-8 conversion)
      is a variable of the sections below.
    - The [while] loops run on fuel; for each loop the fuel the model passes
      is proved to be enough. *)

From stdpp Require Import base numbers list strings gmap.
From Stdlib Require Import ZArith Lia Ascii.

Open Scope Z_scope.

(** ** QChar and QString *)

Definition QChar := Z.
Definition QString := list QChar.

(** [QLatin1String("...")]: one code unit per Latin-1 character. *)
Definition QLatin1Char (a : Ascii.ascii) : QChar := Z.of_nat (Ascii.nat_of_ascii a).
Definition QLatin1String (s : string) : QString :=
  map QLatin1Char (String.list_ascii_of_string s).

(** [QString::size], [QString::length]. *)
Definition qsize (s : QString) : Z := Z.of_nat (length s).

(** [QString::isEmpty]. *)
Definition isEmpty (s : QString) : bool :=
  match s with [] => true | _ :: _ => false end.

(** [QString::at(i)]; Qt asserts [0 <= i < size], the model answers NUL
    outside that range. *)
Definition qat (s : QString) (i : Z) : QChar :=
  if i <? 0 then 0 else nth (Z.to_nat i) s 0.

(** [QString::mid(position, n)] for [0 <= position] and [0 <= n]. *)
Definition mid (s : QString) (position n : Z) : QString :=
  take (Z.to_nat n) (drop (Z.to_nat position) s).

(** [QString::replace(position, n, after)]: nothing happens when [position]
    is outside [0 .. size]; [n] is cut down to what is left of the string. *)
Definition qreplace (s : QString) (position n : Z) (after : QString) : QString :=
  if (position <? 0) || (qsize s <? position) then s
  else
    let n := Z.min n (qsize s - position) in
    take (Z.to_nat position) s ++ after ++ drop (Z.to_nat (position + n)) s.

(** [QString::remove(position, n)]: a negative [position] counts from the
    end; nothing happens when the position is then outside [0 .. size - 1]. *)
Definition qremove (s : QString) (position n : Z) : QString :=
  let position := if position <? 0 then position + qsize s else position in
  if (position <? 0) || (qsize s <=? position) then s
  else if qsize s - position <=? n then take (Z.to_nat position) s
  else if 0 <? n then
    take (Z.to_nat position) s ++ drop (Z.to_nat (position + n)) s
  else s.

(** [QString::repeated(times)]. *)
Definition repeated (s : QString) (times : Z) : QString :=
  concat (replicate (Z.to_nat times) s).

(** [QString::contains(QChar)]. *)
Definition contains (s : QString) (c : QChar) : bool :=
  existsb (Z.eqb c) s.

(** [QString::startsWith(prefix)]. *)
Fixpoint startsWith (s prefix : QString) {struct prefix} : bool :=
  match prefix, s with
  | [], _ => true
  | _ :: _, [] => false
  | p :: prefix', c :: s' => (c =? p) && startsWith s' prefix'
  end.

(** [QString::replace(QChar before, const QString& after)]: every occurrence
    of [before] becomes [after]. *)
Definition replaceChar (s : QString) (before : QChar) (after : QString) : QString :=
  flat_map (fun c => if c =? before then after else [c]) s.

(** [QStringList::join(separator)]. *)
Fixpoint join (l : list QString) (separator : QString) : QString :=
  match l with
  | [] => []
  | [s] => s
  | s :: l' => s ++ separator ++ join l' separator
  end.

(** [QString::toInt(&ok)] on a run of decimal digits, which is all the
    captures of the colour pattern can hold: [None] stands for [ok == false]
    (the call itself then returns 0).  Only the digits 0-9 convert. *)
Definition digitValue (c : QChar) : option Z :=
  if (48 <=? c) && (c <=? 57) then Some (c - 48) else None.

Fixpoint toInt_from (s : QString) (acc : Z) : option Z :=
  match s with
  | [] => if acc <=? 2147483647 then Some acc else None
  | c :: s' =>
      match digitValue c with
      | Some v => toInt_from s' (10 * acc + v)
      | None => None
      end
  end.

Definition toInt (s : QString) : option Z :=
  match s with
  | [] => None
  | _ :: _ => toInt_from s 0
  end.

(** [QString::toInt()] without the [ok] pointer. *)
Definition toInt_value (s : QString) : Z := default 0 (toInt s).

(** ** QRegExp

    The observable behaviour of a constructed [QRegExp]: the pattern it was
    built from, whether the pattern compiled, and the search it performs.  A
    match carries its position, [matchedLength()] and the captures [cap(1)]
    and [cap(2)], the only ones the code reads. *)
Record RxMatch := mkRxMatch {
  m_idx : Z;
  m_len : Z;
  m_cap1 : QString;
  m_cap2 : QString
}.

Record QRegExp := mkQRegExp {
  rx_pattern : QString;
  rx_isValid : bool;
  rx_search : QString -> Z -> option RxMatch
}.

(** [QRegExp::indexIn(str, offset)]; [None] is the result -1.  Qt: "an
    invalid regular expression never matches". *)
Definition indexIn (rx : QRegExp) (str : QString) (offset : Z) : option RxMatch :=
  if rx_isValid rx then rx_search rx str offset else None.

(** ** QUrl::toPercentEncoding *)

(** The bytes RFC 3986 calls unreserved: ALPHA, DIGIT, [-], [.], [_], [~]. *)
Definition unreserved (c : Z) : bool :=
  ((97 <=? c) && (c <=? 122)) || ((65 <=? c) && (c <=? 90))
  || ((48 <=? c) && (c <=? 57))
  || (c =? 45) || (c =? 46) || (c =? 95) || (c =? 126).

Definition toHexUpper (v : Z) : Z :=
  if v <? 10 then 48 + v else 55 + v.

(** One byte of the UTF-8 form: kept when unreserved or excluded, otherwise
    written as [%XX] with upper-case hexadecimal digits. *)
Definition percentEncodeByte (exclude : list Z) (c : Z) : list Z :=
  if unreserved c || existsb (Z.eqb c) exclude then [c]
  else [37; toHexUpper (Z.shiftr (Z.land c 240) 4); toHexUpper (Z.land c 15)].

Definition percentEncode (exclude : list Z) (bytes : list Z) : list Z :=
  flat_map (percentEncodeByte exclude) bytes.

(** [QString::arg(a1, a2, ...)]: the place markers [%1] .. [%9] of the
    format are replaced by the arguments in one pass, so an argument that
    itself holds a marker is not substituted again.  A marker without an
    argument stays as it is. *)
Fixpoint multiArg (format : QString) (args : list QString) : QString :=
  match format with
  | [] => []
  | c :: format' =>
      match format' with
      | d :: format'' =>
          if (c =? 37) && (49 <=? d) && (d <=? 57) then
            nth (Z.to_nat (d - 49)) args [c; d] ++ multiArg format'' args
          else c :: multiArg format' args
      | [] => [c]
      end
  end.

(** [QString::arg(a)], on a format whose only place marker is [%1]. *)
Definition arg (format a : QString) : QString := multiArg format [a].

(** ** The Latin-1 part of Qt's Unicode tables

    The instances at which the general statements below are evaluated on
    concrete Latin-1 texts: among the code units below 256 the decimal
    digits are 0-9, the spaces are U+0009..U+000D, U+0020, U+0085 and U+00A0,
    case folding maps A-Z to a-z, the capital letters U+00C0..U+00DE (but not
    the multiplication sign U+00D7) to the small ones 32 further on and the
    micro sign U+00B5 to the Greek mu U+03BC, and UTF-8 needs at most two
    bytes. *)
Module Latin1.

Definition isDigit (c : QChar) : bool := (48 <=? c) && (c <=? 57).

Definition isSpace (c : QChar) : bool :=
  (c =? 32) || ((9 <=? c) && (c <=? 13)) || (c =? 133) || (c =? 160).

Definition foldCase (last c : Z) : Z :=
  if (65 <=? c) && (c <=? 90) then c + 32
  else if (192 <=? c) && (c <=? 222) && negb (c =? 215) then c + 32
  else if c =? 181 then 956
  else c.

Definition toUtf8 (s : QString) : list Z :=
  flat_map (fun c => if c <? 128 then [c]
                     else [Z.lor 192 (Z.shiftr c 6); Z.lor 128 (Z.land c 63)]) s.

End Latin1.

(** ** IrcUserModel *)
Module IrcUserModel.

(** What [lessThan] reads of an [IrcUser]: its name, its prefix, and the
    prefixes of the network reached through
    [channel()->model()->connection()->network()]. *)
Record IrcUser := mkIrcUser {
  name : QString;
  prefix : QString;
  network_prefixes : list QString
}.

(** An [IrcUser*]; [None] is the null pointer. *)
Definition IrcUserPtr := option IrcUser.

Inductive SortOrder := AscendingOrder | DescendingOrder.

(** [IrcUserModelPrivate] without its back pointers. *)
Record IrcUserModelPrivate := mkPrivate {
  role : Z;
  sortOrder : SortOrder;
  dynamicSort : bool;
  userList : list IrcUserPtr
}.

(** [QList<T>::value(i)]: the element at [i], or a default-constructed [T]
    (for a pointer type, null) when [i] is out of bounds. *)
Definition value {T} (l : list T) (i : Z) (defaultValue : T) : T :=
  if (i <? 0) || (Z.of_nat (length l) <=? i) then defaultValue
  else nth (Z.to_nat i) l defaultValue.

(** [IrcUserModel::get(index)].  The method is [const]; the model returns the
    private data next to the result so that this can be stated. *)
Definition get (d : IrcUserModelPrivate) (index : Z) : IrcUserPtr * IrcUserModelPrivate :=
  (value (userList d) index None, d).

(** [QStringList::indexOf(str)]: the first index holding [str], else -1. *)
Fixpoint indexOf_from (l : list QString) (str : QString) (i : Z) : Z :=
  match l with
  | [] => -1
  | s :: l' => if decide (s = str) then i else indexOf_from l' str (i + 1)
  end.

Definition indexOf (l : list QString) (str : QString) : Z := indexOf_from l str 0.

(** The prefix symbol of a member is the first code unit of its prefix.
    [ranked prefixes u i]: the symbol of [u] occurs in [prefixes], first at
    position [i]. *)
Definition ranked (prefixes : list QString) (u : IrcUser) (i : nat) : Prop :=
  ∃ c tail, prefix u = c :: tail
            ∧ prefixes !! i = Some [c]
            ∧ ∀ j, (j < i)%nat -> prefixes !! j ≠ Some [c].

(** [unranked prefixes u]: [u] has no prefix, or its symbol is not in
    [prefixes]. *)
Definition unranked (prefixes : list QString) (u : IrcUser) : Prop :=
  prefix u = [] ∨ ∃ c tail, prefix u = c :: tail ∧ [c] ∉ prefixes.

(** The index that [lessThan] computes for a member. *)
Definition rank (prefixes : list QString) (u : IrcUser) : Z :=
  if negb (isEmpty (prefix u)) then indexOf prefixes [qat (prefix u) 0] else -1.

Section Compare.

(** Qt's case folding of the code unit [c] that follows the code unit
    [last] (a low surrogate after a high one folds as the pair). *)
Variable foldCase : Z -> Z -> Z.

(** [QString::compare(other, Qt::CaseInsensitive)]: the difference of the
    first two folded code units that differ, else -1, 0 or 1 by length. *)
Fixpoint compare_from (a b : QString) (alast blast : Z) : Z :=
  match a, b with
  | [], [] => 0
  | [], _ :: _ => -1
  | _ :: _, [] => 1
  | x :: a', y :: b' =>
      let diff := foldCase alast x - foldCase blast y in
      if diff =? 0 then compare_from a' b' x y else diff
  end.

Definition compare_CaseInsensitive (a b : QString) : Z := compare_from a b 0 0.

(** [IrcUserModel::lessThan(one, another)]. *)
Definition lessThan (one another : IrcUser) : bool :=
  let prefixes := network_prefixes one in
  let p1 := prefix one in
  let p2 := prefix another in
  let i1 := if negb (isEmpty p1) then indexOf prefixes [qat p1 0] else -1 in
  let i2 := if negb (isEmpty p2) then indexOf prefixes [qat p2 0] else -1 in
  if (0 <=? i1) && (i2 <? 0) then true
  else if (i1 <? 0) && (0 <=? i2) then false
  else if (0 <=? i1) && (0 <=? i2) && negb (i1 =? i2) then i1 <? i2
  else
    let n1 := name one in
    let n2 := name another in
    compare_CaseInsensitive n1 n2 <? 0.

End Compare.

End IrcUserModel.

(** ** QList and qUpperBound *)
Module QList.

Section QList.

Context {T : Type} `{EqDecision T}.

(** [QList<T>::indexOf(value)]: the first index that holds [value], else -1. *)
Fixpoint indexOf_from (l : list T) (value : T) (i : Z) : Z :=
  match l with
  | [] => -1
  | x :: l' => if decide (x = value) then i else indexOf_from l' value (i + 1)
  end.

Definition indexOf (l : list T) (value : T) : Z := indexOf_from l value 0.

(** [QList<T>::insert(i, value)]: the value is prepended when [i <= 0] and
    appended when [i >= size()]. *)
Definition insert (l : list T) (i : Z) (value : T) : list T :=
  if i <=? 0 then value :: l
  else if Z.of_nat (length l) <=? i then l ++ [value]
  else take (Z.to_nat i) l ++ value :: drop (Z.to_nat i) l.

(** [QList<T>::removeAt(i)]: nothing happens unless [0 <= i < size()]. *)
Definition removeAt (l : list T) (i : Z) : list T :=
  if (i <? 0) || (Z.of_nat (length l) <=? i) then l
  else take (Z.to_nat i) l ++ drop (Z.to_nat (i + 1)) l.

(** The loop of [qUpperBound(begin, end, value, lessThan)], a binary
    search: [begin] is an index into [l] and [n] the number of elements
    still to search.  [middle] stays inside the list; were it not, the
    model stops. *)
Fixpoint qUpperBound_loop (fuel : nat) (l : list T) (value : T)
    (lessThan : T -> T -> bool) (begin n : Z) : Z :=
  match fuel with
  | O => begin
  | S fuel' =>
      if 0 <? n then
        let half := Z.shiftr n 1 in
        let middle := begin + half in
        match l !! Z.to_nat middle with
        | Some x =>
            if lessThan value x then qUpperBound_loop fuel' l value lessThan begin half
            else qUpperBound_loop fuel' l value lessThan (middle + 1) (n - (half + 1))
        | None => begin
        end
      else begin
  end.

(** [qUpperBound(l.begin(), l.end(), value, lessThan) - l.begin()].  Every
    turn at least halves [n], so the size of the list is fuel enough. *)
Definition qUpperBound (l : list T) (value : T) (lessThan : T -> T -> bool) : Z :=
  qUpperBound_loop (length l) l value lessThan 0 (Z.of_nat (length l)).

(** [l] is in order for [lessThan]: no element is less than one before it. *)
Definition inOrder (lessThan : T -> T -> bool) (l : list T) : Prop :=
  ∀ i j x y, (i < j)%nat -> l !! i = Some x -> l !! j = Some y -> lessThan y x = false.

(** What sorting and searching ask of [lessThan]. *)
Definition asymmetric (lessThan : T -> T -> bool) : Prop :=
  ∀ a b, lessThan a b = true -> lessThan b a = false.

Definition negativelyTransitive (lessThan : T -> T -> bool) : Prop :=
  ∀ a b c, lessThan a b = false -> lessThan b c = false -> lessThan a c = false.

End QList.

End QList.

(** ** IrcUserModel: the list of users and the channel *)
Module IrcUserList.
Import IrcUserModel.

(** Two pointers are equal when they point to the same member; the model
    names a member by what is recorded of it. *)
#[export] Instance IrcUser_eq_dec : EqDecision IrcUser.
Proof. solve_decision. Defined.

(** What the functions below announce, in the order of the calls: the
    notifications of QAbstractItemModel and the signals of the model, with
    their arguments. *)
Inductive Signal :=
| beginInsertRows (first last : Z)
| endInsertRows
| beginRemoveRows (first last : Z)
| endRemoveRows
| beginResetModel
| endResetModel
| added (user : IrcUserPtr)
| removed (user : IrcUserPtr)
| namesChanged (names : list QString)
| usersChanged (users : list IrcUserPtr)
| countChanged (count : Z)
| channelChanged (channel : Z)
| layoutAboutToBeChanged
| layoutChanged.

(** What the model reads and writes of an [IrcChannelPrivate]: its list of
    users, the keys of its map of users, and the models registered with
    it, by address. *)
Record IrcChannelPrivate := mkChannel {
  ch_userList : list IrcUserPtr;
  ch_names : list QString;
  ch_userModels : list Z
}.

(** An [IrcUserModel]: its own address, [d->channel] (0 is the null
    pointer) and the rest of [IrcUserModelPrivate]. *)
Record IrcUserModelObject := mkModel {
  this : Z;
  channel : Z;
  d_ptr : IrcUserModelPrivate
}.

Definition setUserList (d : IrcUserModelPrivate) (users : list IrcUserPtr)
  : IrcUserModelPrivate :=
  mkPrivate (role d) (sortOrder d) (dynamicSort d) users.

Section Members.

(** [model->lessThan], which a subclass may reimplement, as the
    comparators [IrcUserLessThan] and [IrcUserGreaterThan] call it; the
    keys of the user map of the channel, which the signals carry; and
    [qSort] of QtAlgorithms. *)
Variable lessThan : IrcUserPtr -> IrcUserPtr -> bool.
Variable names : list QString.
Variable qSort : (IrcUserPtr -> IrcUserPtr -> bool) -> list IrcUserPtr -> list IrcUserPtr.

Definition IrcUserLessThan (u1 u2 : IrcUserPtr) : bool := lessThan u1 u2.
Definition IrcUserGreaterThan (u1 u2 : IrcUserPtr) : bool := lessThan u2 u1.

(** The comparator that goes with a sort order. *)
Definition comparator (order : SortOrder) : IrcUserPtr -> IrcUserPtr -> bool :=
  match order with
  | AscendingOrder => IrcUserLessThan
  | DescendingOrder => IrcUserGreaterThan
  end.

(** [IrcUserModelPrivate::addUser(user)]. *)
Definition addUser (d : IrcUserModelPrivate) (user : IrcUserPtr)
  : list Signal * IrcUserModelPrivate :=
  let idx := Z.of_nat (length (userList d)) in
  let idx :=
    if dynamicSort d then
      match sortOrder d with
      | AscendingOrder => QList.qUpperBound (userList d) user IrcUserLessThan
      | DescendingOrder => QList.qUpperBound (userList d) user IrcUserGreaterThan
      end
    else idx in
  let userList' := QList.insert (userList d) idx user in
  ([beginInsertRows idx idx; endInsertRows; added user; namesChanged names;
    usersChanged userList'; countChanged (Z.of_nat (length userList'))],
   setUserList d userList').

(** [IrcUserModelPrivate::removeUser(user)]. *)
Definition removeUser (d : IrcUserModelPrivate) (user : IrcUserPtr)
  : list Signal * IrcUserModelPrivate :=
  let idx := QList.indexOf (userList d) user in
  if negb (idx =? -1) then
    let userList' := QList.removeAt (userList d) idx in
    ([beginRemoveRows idx idx; endRemoveRows; removed user; namesChanged names;
      usersChanged userList'; countChanged (Z.of_nat (length userList'))],
     setUserList d userList')
  else ([], d).

(** [IrcUserModelPrivate::setUsers(users)]. *)
Definition setUsers (d : IrcUserModelPrivate) (users : list IrcUserPtr)
  : list Signal * IrcUserModelPrivate :=
  let userList' :=
    if dynamicSort d then
      match sortOrder d with
      | AscendingOrder => qSort IrcUserLessThan users
      | DescendingOrder => qSort IrcUserGreaterThan users
      end
    else users in
  ([beginResetModel] ++ map added userList'
   ++ [endResetModel; namesChanged names; usersChanged userList';
       countChanged (Z.of_nat (length userList'))],
   setUserList d userList').

End Members.

(** [model->lessThan(u1, u2)] on the pointers that the comparators pass,
    where [lessThan] is not reimplemented.  The code dereferences both
    pointers; where one is null the model answers [false]. *)
Definition lessThan_pointers (foldCase : Z -> Z -> Z) (u1 u2 : IrcUserPtr) : bool :=
  match u1, u2 with
  | Some one, Some another => IrcUserModel.lessThan foldCase one another
  | _, _ => false
  end.

(** [u] points to a member of a network with these prefixes. *)
Definition onNetwork (prefixes : list QString) (u : IrcUserPtr) : Prop :=
  ∃ member, u = Some member ∧ network_prefixes member = prefixes.

(** [IrcUserModel::indexOf(user)]. *)
Definition indexOf (d : IrcUserModelPrivate) (user : IrcUserPtr) : Z :=
  QList.indexOf (userList d) user.

(** [IrcUserModel::rowCount(parent)]; [parentIsValid] is
    [parent.isValid()]. *)
Definition rowCount (m : IrcUserModelObject) (parentIsValid : bool) : Z :=
  if parentIsValid || (channel m =? 0) then 0
  else Z.of_nat (length (userList (d_ptr m))).

(** [IrcUserModel::count()]: [rowCount()] with the default parent, an
    invalid index. *)
Definition count (m : IrcUserModelObject) : Z := rowCount m false.

(** [IrcUserModel::users()]. *)
Definition users (m : IrcUserModelObject) : list IrcUserPtr := userList (d_ptr m).

(** [QList<T>::removeOne(value)]: the first occurrence is removed. *)
Fixpoint removeOne (l : list Z) (value : Z) : list Z :=
  match l with
  | [] => []
  | x :: l' => if x =? value then l' else x :: removeOne l' value
  end.

(** [IrcUserModel::setChannel(channel)], on the channels of the heap: the
    model leaves the list of models of its old channel and joins that of
    the new one, whose users it takes over.  The names that the signals of
    [setUsers] carry are the keys of the user map of the new channel.  A
    pointer that is not null points to a channel of the heap. *)
Definition setChannel
    (qSort : (IrcUserPtr -> IrcUserPtr -> bool) -> list IrcUserPtr -> list IrcUserPtr)
    (lessThan : IrcUserPtr -> IrcUserPtr -> bool)
    (heap : gmap Z IrcChannelPrivate) (m : IrcUserModelObject) (channel' : Z)
  : list Signal * gmap Z IrcChannelPrivate * IrcUserModelObject :=
  if negb (channel m =? channel') then
    let heap1 :=
      if negb (channel m =? 0) then
        alter (fun c => mkChannel (ch_userList c) (ch_names c)
                          (removeOne (ch_userModels c) (this m)))
          (channel m) heap
      else heap in
    if negb (channel' =? 0) then
      let heap2 :=
        alter (fun c => mkChannel (ch_userList c) (ch_names c)
                          (ch_userModels c ++ [this m]))
          channel' heap1 in
      let c := default (mkChannel [] [] []) (heap2 !! channel') in
      let '(signals, d') := setUsers lessThan (ch_names c) qSort (d_ptr m) (ch_userList c) in
      ([beginResetModel] ++ signals ++ [endResetModel; channelChanged channel'],
       heap2, mkModel (this m) channel' d')
    else
      ([beginResetModel; endResetModel; channelChanged channel'], heap1,
       mkModel (this m) channel' (d_ptr m))
  else ([], heap, m).

(** [IrcUserModel::setDynamicSort(dynamic)]: the list is left as it is. *)
Definition setDynamicSort (d : IrcUserModelPrivate) (dynamic : bool)
  : IrcUserModelPrivate :=
  mkPrivate (role d) (sortOrder d) dynamic (userList d).

(** A [QModelIndex]: row, column, internal pointer and the address of the
    model that made it.  The default-constructed index has row and column -1
    and no model. *)
Record QModelIndex := mkIndex {
  row : Z;
  column : Z;
  internalPointer : IrcUserPtr;
  model : Z
}.

Definition invalidIndex : QModelIndex := mkIndex (-1) (-1) None 0.

Definition isValid (index : QModelIndex) : bool :=
  (0 <=? row index) && (0 <=? column index) && negb (model index =? 0).

(** [QAbstractListModel::columnCount(parent)]. *)
Definition columnCount (parentIsValid : bool) : Z := if parentIsValid then 0 else 1.

(** [QAbstractItemModel::hasIndex(row, column, parent)]. *)
Definition hasIndex (m : IrcUserModelObject) (row column : Z) (parentIsValid : bool)
  : bool :=
  if (row <? 0) || (column <? 0) then false
  else (row <? rowCount m parentIsValid) && (column <? columnCount parentIsValid).

(** [IrcUserModel::index(row, column, parent)]. *)
Definition index (m : IrcUserModelObject) (row column : Z) (parent : QModelIndex)
  : QModelIndex :=
  if (channel m =? 0) || negb (hasIndex m row column (isValid parent)) then invalidIndex
  else mkIndex row column (value (userList (d_ptr m)) row None) (this m).

(** [IrcUserModel::index(user)]; column and parent take their defaults, 0
    and the invalid index. *)
Definition index_user (m : IrcUserModelObject) (user : IrcUserPtr) : QModelIndex :=
  index m (QList.indexOf (userList (d_ptr m)) user) 0 invalidIndex.

(** [IrcUserModel::user(index)]. *)
Definition user_index (m : IrcUserModelObject) (index : QModelIndex) : IrcUserPtr :=
  if negb (hasIndex m (row index) (column index) false) then None
  else internalPointer index.

(** [IrcUserModel::sort(column, order)].  [persistentIndexList] is the list
    of persistent indexes that the model holds; the second component of the
    result is the list that [changePersistentIndexList] puts in its place. *)
Definition sort
    (qSort : (IrcUserPtr -> IrcUserPtr -> bool) -> list IrcUserPtr -> list IrcUserPtr)
    (lessThan : IrcUserPtr -> IrcUserPtr -> bool)
    (m : IrcUserModelObject) (persistentIndexList : list QModelIndex)
    (column : Z) (order : SortOrder)
  : list Signal * list QModelIndex * IrcUserModelObject :=
  let d := d_ptr m in
  let persistentUsers := map internalPointer persistentIndexList in
  let userList' :=
    match order with
    | AscendingOrder => qSort (IrcUserLessThan lessThan) (userList d)
    | DescendingOrder => qSort (IrcUserGreaterThan lessThan) (userList d)
    end in
  let m' := mkModel (this m) (channel m)
              (mkPrivate (role d) order (dynamicSort d) userList') in
  let newPersistentIndexes := map (index_user m') persistentUsers in
  ([layoutAboutToBeChanged; layoutChanged], newPersistentIndexes, m').

End IrcUserList.

(** ** IrcPalette *)

(** Modelled from the spec: [IrcPalette::colorName(index, fallback)], whose
    source file is not among the sources: the palette maps colour indices
    to colour names, and an index without an entry resolves to the fallback
    the caller passes. *)
Definition colorName (palette : gmap Z QString) (index : Z) (fallback : QString) : QString :=
  default fallback (palette !! index).

(** ** IrcTextFormat *)

Inductive SpanFormat := SpanStyle | SpanClass.

(** [IrcTextFormatPrivate].  [urlPattern] holds the pattern string together
    with the [QRegExp] that [parseLinks] builds from it on every call: the
    constructor belongs to Qt. *)
Record IrcTextFormatPrivate := mkFormat {
  urlPattern : QRegExp;
  palette : gmap Z QString;
  spanFormat : SpanFormat
}.

(** [IrcTextFormat::setUrlPattern]: the pattern is stored as it is. *)
Definition setUrlPattern (d : IrcTextFormatPrivate) (pattern : QRegExp) : IrcTextFormatPrivate :=
  mkFormat pattern (palette d) (spanFormat d).

(** The anonymous enum of [toHtml]. *)
Definition None_ : Z := 0.
Definition Bold : Z := 1.
Definition Italic : Z := 4.
Definition LineThrough : Z := 8.
Definition Underline : Z := 16.
Definition Inverse : Z := 32.

(** The local variables of [toHtml]. *)
Record HtmlState := mkHtml {
  processed : QString;
  state : Z;
  pos : Z;
  len : Z;
  fg : Z;
  bg : Z;
  depth : Z;
  potentialUrl : bool
}.

(** The local variables of [toPlainText]. *)
Record PlainState := mkPlain {
  p_processed : QString;
  p_pos : Z;
  p_len : Z
}.

(** What [parseColors] returns and writes through its pointers. *)
Record Colors := mkColors {
  c_ok : bool;
  c_len : Z;
  c_fg : Z;
  c_bg : Z
}.

Definition closeSpan : QString := QLatin1String "</span>".

(** ** Sample objects

    The concrete objects at which statements are evaluated below. *)
Module Sample.

(** A palette in which colour 4 is red. *)
Definition redPalette : gmap Z QString := <[4 := QLatin1String "red"]> ∅.

(** The leftmost occurrence of [needle] in [s], whose first code unit has
    index [idx]. *)
Fixpoint searchLiteral (needle s : QString) (idx : Z) : option Z :=
  if startsWith s needle then Some idx
  else match s with
       | [] => None
       | _ :: s' => searchLiteral needle s' (idx + 1)
       end.

(** [QRegExp("(x)y@z")]: the pattern has no metacharacter but its one
    group, so it finds the text [xy@z]; [cap(1)] is [x], and [cap(2)], of
    a group that the pattern does not have, is empty. *)
Definition rx_group : QRegExp :=
  mkQRegExp (QLatin1String "(x)y@z") true
    (fun str offset =>
       let offset := if offset <? 0 then offset + qsize str else offset in
       if (offset <? 0) || (qsize str <? offset) then None
       else
         match searchLiteral (QLatin1String "xy@z") (drop (Z.to_nat offset) str) offset with
         | Some idx => Some (mkRxMatch idx 4 (QLatin1String "x") [])
         | None => None
         end).

(** The leftmost place in [s] where [ab@c.d] stands, with [s:] before it
    or without; the first code unit of [s] has index [idx]. *)
Fixpoint searchMail (s : QString) (idx : Z) : option RxMatch :=
  if startsWith s (QLatin1String "s:ab@c.d") then
    Some (mkRxMatch idx 8 (QLatin1String "s:ab") (QLatin1String "s:"))
  else if startsWith s (QLatin1String "ab@c.d") then
    Some (mkRxMatch idx 6 (QLatin1String "ab") [])
  else match s with
       | [] => None
       | _ :: s' => searchMail s' (idx + 1)
       end.

(** [QRegExp("((s:)?ab)@c\\.d")], a pattern with a scheme group, group 2,
    inside group 1, as the default pattern has them; but group 1 ends
    before the [@].  It finds [ab@c.d], with the scheme [s:] before it where
    the text has it: [cap(1)] is [ab] or [s:ab], and [cap(2)] is empty or
    [s:]. *)
Definition rx_scheme : QRegExp :=
  mkQRegExp (QLatin1String "((s:)?ab)@c\.d") true
    (fun str offset =>
       let offset := if offset <? 0 then offset + qsize str else offset in
       if (offset <? 0) || (qsize str <? offset) then None
       else searchMail (drop (Z.to_nat offset) str) offset).

(** [QRegExp("(ftp\\.c\\.d)")]: one group around the whole pattern, so that
    [cap(1)] is the text of the match; there is no group 2. *)
Definition rx_whole : QRegExp :=
  mkQRegExp (QLatin1String "(ftp\.c\.d)") true
    (fun str offset =>
       let offset := if offset <? 0 then offset + qsize str else offset in
       if (offset <? 0) || (qsize str <? offset) then None
       else
         match searchLiteral (QLatin1String "ftp.c.d") (drop (Z.to_nat offset) str) offset with
         | Some idx => Some (mkRxMatch idx 7 (QLatin1String "ftp.c.d") [])
         | None => None
         end).

(** [QRegExp("(")]: the group is not closed, the pattern does not compile. *)
Definition rx_unbalanced : QRegExp :=
  mkQRegExp (QLatin1String "(") false (fun _ _ => None).

(** [QRegExp("")], the object of an empty pattern, which [toHtml] never
    searches with. *)
Definition rx_empty : QRegExp :=
  mkQRegExp [] true (fun _ offset => Some (mkRxMatch offset 0 [] [])).

Definition format (pattern : QRegExp) (spans : SpanFormat) : IrcTextFormatPrivate :=
  mkFormat pattern redPalette spans.

(** A text with a colour, a bold part and a trailing reset. *)
Definition colored_bold : QString :=
  [0x03] ++ QLatin1String "4r" ++ [0x02] ++ QLatin1String "b" ++ [0x0f].

(** Two members with a prefix and two without, and a model of two members. *)
Definition prefixes : list QString := [QLatin1String "@"; QLatin1String "+"].

Definition op : IrcUserModel.IrcUser :=
  IrcUserModel.mkIrcUser (QLatin1String "zed") (QLatin1String "@") prefixes.
Definition voiced : IrcUserModel.IrcUser :=
  IrcUserModel.mkIrcUser (QLatin1String "Amy") (QLatin1String "+") prefixes.
Definition bob : IrcUserModel.IrcUser :=
  IrcUserModel.mkIrcUser (QLatin1String "bob") [] prefixes.
Definition alice : IrcUserModel.IrcUser :=
  IrcUserModel.mkIrcUser (QLatin1String "Alice") [] prefixes.

Definition two_users : IrcUserModel.IrcUserModelPrivate :=
  IrcUserModel.mkPrivate 0 IrcUserModel.AscendingOrder false [Some op; Some bob].

(** The number of code units equal to [c] at the head of [s]. *)
Fixpoint runOf (c : QChar) (s : QString) : Z :=
  match s with
  | x :: s' => if x =? c then 1 + runOf c s' else 0
  | [] => 0
  end.

(** [QRegExp("x*")]: the pattern matches the empty text, so from every
    offset inside a text it matches right there, the run of [x] that
    starts at the offset, be it empty; the pattern has no group. *)
Definition rx_star : QRegExp :=
  mkQRegExp (QLatin1String "x*") true
    (fun str offset =>
       let offset := if offset <? 0 then offset + qsize str else offset in
       if (offset <? 0) || (qsize str <? offset) then None
       else Some (mkRxMatch offset (runOf (QLatin1Char "x") (drop (Z.to_nat offset) str))
                    [] [])).

(** A model that sorts dynamically, with two members in ascending order. *)
Definition sorted_users : IrcUserModel.IrcUserModelPrivate :=
  IrcUserModel.mkPrivate 0 IrcUserModel.AscendingOrder true [Some op; Some voiced].

(** Insertion sort, to stand for [qSort] where an example has to sort. *)
Fixpoint insertSorted {T} (lessThan : T -> T -> bool) (x : T) (l : list T) : list T :=
  match l with
  | [] => [x]
  | y :: l' => if lessThan x y then x :: l else y :: insertSorted lessThan x l'
  end.

Definition qSort {T} (lessThan : T -> T -> bool) (l : list T) : list T :=
  foldr (insertSorted lessThan) [] l.

(** A channel at address 7 with two members, watched by the model at
    address 2; the model at address 1, first without channel, then on the
    channel with the members of [two_users]; and a persistent index of that
    model, on the member in its second row. *)
Definition lobby : IrcUserList.IrcChannelPrivate :=
  IrcUserList.mkChannel [Some op; Some bob]
    [QLatin1String "bob"; QLatin1String "zed"] [2].

Definition channels : gmap Z IrcUserList.IrcChannelPrivate := {[ 7 := lobby ]}.

Definition unattached : IrcUserList.IrcUserModelObject :=
  IrcUserList.mkModel 1 0
    (IrcUserModel.mkPrivate 0 IrcUserModel.AscendingOrder false []).

Definition attached : IrcUserList.IrcUserModelObject :=
  IrcUserList.mkModel 1 7 two_users.

Definition index_of_bob : IrcUserList.QModelIndex :=
  IrcUserList.mkIndex 1 0 (Some bob) 1.

End Sample.

Section TextFormat.

(** [QChar::isDigit] (category Nd, which is what [\d] matches in a QRegExp),
    [QChar::isSpace], Qt's case folding, and [QString::toUtf8]. *)
Variable isDigit : QChar -> bool.
Variable isSpace : QChar -> bool.
Variable foldCase : Z -> Z -> Z.
Variable toUtf8 : QString -> list Z.

Set Default Proof Using "Type".

(** *** parseColors *)

(** [\d{1,2}] at the head of [s]: the one or two digits it takes (greedy),
    or nothing. *)
Definition rx_digits (s : QString) : QString :=
  match s with
  | a :: s' =>
      if isDigit a then
        match s' with
        | b :: _ => if isDigit b then [a; b] else [a]
        | [] => [a]
        end
      else []
  | [] => []
  end.

(** The pattern [(\d{1,2})(?:,(\d{1,2}))?] matched at the head of [s]: the
    captures [cap(1)] and [cap(2)]; [cap(2)] is empty when the optional
    group takes no part in the match. *)
Definition rx_colors_here (s : QString) : option (QString * QString) :=
  let cap1 := rx_digits s in
  if isEmpty cap1 then None
  else
    match drop (length cap1) s with
    | c :: s' => if c =? 44 then Some (cap1, rx_digits s') else Some (cap1, [])
    | [] => Some (cap1, [])
    end.

Definition rx_colors_length (caps : QString * QString) : Z :=
  qsize (fst caps) + (if isEmpty (snd caps) then 0 else 1 + qsize (snd caps)).

(** The leftmost match in [s], whose first code unit has index [idx]. *)
Fixpoint rx_colors_search (s : QString) (idx : Z) : option RxMatch :=
  match rx_colors_here s with
  | Some caps => Some (mkRxMatch idx (rx_colors_length caps) (fst caps) (snd caps))
  | None =>
      match s with
      | [] => None
      | _ :: s' => rx_colors_search s' (idx + 1)
      end
  end.

(** [QRegExp rx("(\\d{1,2})(?:,(\\d{1,2}))?")]. *)
Definition rx_colors : QRegExp :=
  mkQRegExp (QLatin1String "(\d{1,2})(?:,(\d{1,2}))?") true
    (fun str offset =>
       let offset := if offset <? 0 then offset + qsize str else offset in
       if (offset <? 0) || (qsize str <? offset) then None
       else rx_colors_search (drop (Z.to_nat offset) str) offset).

(** [parseColors(message, pos, &len, &fg, &bg)]. *)
Definition parseColors (message : QString) (pos : Z) : Colors :=
  match indexIn rx_colors message pos with
  | Some m =>
      if m_idx m =? pos then
        mkColors (0 <? m_len m) (m_len m) (toInt_value (m_cap1 m))
          (match toInt (m_cap2 m) with Some tmp => tmp | None => -1 end)
      else mkColors false 0 (-1) (-1)
  | None => mkColors false 0 (-1) (-1)
  end.

(** *** generateLink and parseLinks *)

(** [QString::startsWith(QLatin1String(s), Qt::CaseInsensitive)]. *)
Fixpoint startsWith_CaseInsensitive (s prefix : QString) {struct prefix} : bool :=
  match prefix, s with
  | [] , _ => true
  | _ :: _, [] => false
  | p :: prefix', c :: s' =>
      (foldCase 0 c =? foldCase 0 p) && startsWith_CaseInsensitive s' prefix'
  end.

Definition exclude : list Z := QLatin1String ":/?@%#=+&,".

(** [QUrl::toPercentEncoding(input, exclude)], read back as a QString. *)
Definition toPercentEncoding (input : QString) (exclude : list Z) : QString :=
  percentEncode exclude (toUtf8 input).

Definition generateLink (protocol href : QString) : QString :=
  let url := toPercentEncoding href exclude in
  multiArg (QLatin1String "<a href='%1%2'>%3</a>") [protocol; url; href].

(** The scheme [parseLinks] chooses for a match. *)
Definition linkProtocol (m : RxMatch) : QString :=
  if isEmpty (m_cap2 m) then
    if contains (m_cap1 m) (QLatin1Char "@"%char) then QLatin1String "mailto:"
    else if startsWith_CaseInsensitive (m_cap1 m) (QLatin1String "ftp.")
         then QLatin1String "ftp://"
    else QLatin1String "http://"
  else [].

(** The body of the loop of [parseLinks] for the match [m]. *)
Definition parseLinks_iter (processed : QString) (m : RxMatch) : QString * Z :=
  let pos := m_idx m in
  let len := m_len m in
  let href := mid processed pos len in
  let link := generateLink (linkProtocol m) href in
  (qreplace processed pos len link, pos + qsize link).

(** The loop of [parseLinks]; [None] when the fuel runs out. *)
Fixpoint parseLinks_loop (fuel : nat) (rx : QRegExp) (processed : QString) (pos : Z)
  : option QString :=
  match fuel with
  | O => None
  | S fuel' =>
      match indexIn rx processed pos with
      | None => Some processed
      | Some m =>
          let '(processed', pos') := parseLinks_iter processed m in
          parseLinks_loop fuel' rx processed' pos'
      end
  end.

Definition parseLinks (fuel : nat) (message : QString) (pattern : QRegExp) : option QString :=
  parseLinks_loop fuel pattern message 0.

(** *** toHtml *)

Definition setDepthState (st : HtmlState) (depth' state' : Z) : HtmlState :=
  mkHtml (processed st) state' (pos st) (len st) (fg st) (bg st) depth' (potentialUrl st).

Definition setColors (st : HtmlState) (c : Colors) : HtmlState :=
  mkHtml (processed st) (state st) (pos st) (c_len c) (c_fg c) (c_bg c) (depth st)
    (potentialUrl st).

Definition setProcessedPos (st : HtmlState) (processed' : QString) (pos' : Z) : HtmlState :=
  mkHtml processed' (state st) pos' (len st) (fg st) (bg st) (depth st) (potentialUrl st).

Definition setPotentialUrl (st : HtmlState) (b : bool) : HtmlState :=
  mkHtml (processed st) (state st) (pos st) (len st) (fg st) (bg st) (depth st) b.

(** The cases bold, italic, line-through, underline and inverse of the
    [switch]: the replacement chosen and the new [depth] and [state]. *)
Definition toggle (d : IrcTextFormatPrivate) (flag : Z) (style class : string)
    (st : HtmlState) : QString * HtmlState :=
  if negb (Z.land (state st) flag =? 0) then
    (closeSpan, setDepthState st (depth st - 1) (Z.lxor (state st) flag))
  else
    (match spanFormat d with
     | SpanStyle => QLatin1String style
     | SpanClass => QLatin1String class
     end,
     setDepthState st (depth st + 1) (Z.lxor (state st) flag)).

(** The replacement for a colour marker that carries colours. *)
Definition colorSpan (d : IrcTextFormatPrivate) (fg bg : Z) : QString :=
  match spanFormat d with
  | SpanStyle =>
      let styles :=
        [arg (QLatin1String "color: %1") (colorName (palette d) fg (QLatin1String "black"))]
        ++ (if negb (bg =? -1) then
              [arg (QLatin1String "background-color: %1")
                 (colorName (palette d) bg (QLatin1String "transparent"))]
            else []) in
      arg (QLatin1String "<span style='%1'>") (join styles (QLatin1String "; "))
  | SpanClass =>
      let classes :=
        [colorName (palette d) fg (QLatin1String "black")]
        ++ (if negb (bg =? -1) then
              [colorName (palette d) bg (QLatin1String "transparent")
               ++ QLatin1String "-background"]
            else []) in
      arg (QLatin1String "<span class='%1'>") (join classes (QLatin1String " "))
  end.

(** The end of the loop body, after the [switch]. *)
Definition splice (r : QString * HtmlState) : QString * HtmlState :=
  let '(replacement, st) := r in
  if negb (isEmpty replacement) then
    (replacement,
     setProcessedPos st (qreplace (processed st) (pos st) 1 replacement)
       (pos st + qsize replacement))
  else (replacement, setProcessedPos st (processed st) (pos st + 1)).

(** The test of the cases [.], [/] and [:]. *)
Definition urlLike (st : HtmlState) : bool :=
  negb (potentialUrl st) && (0 <? pos st)
  && negb (isSpace (qat (processed st) (pos st - 1)))
  && (pos st <? qsize (processed st) - 1)
  && negb (isSpace (qat (processed st) (pos st + 1))).

(** One turn of the loop of [toHtml], entered with [pos < processed.size()]:
    the value of [replacement] when the turn ends, and the variables then. *)
Definition toHtml_iter (d : IrcTextFormatPrivate) (st : HtmlState) : QString * HtmlState :=
  let c := qat (processed st) (pos st) in
  if c =? 0x02 then
    splice (toggle d Bold "<span style='font-weight: bold'>" "<span class='bold'>" st)
  else if c =? 0x03 then
    let colors := parseColors (processed st) (pos st + 1) in
    let st := setColors st colors in
    if c_ok colors then
      let st := setDepthState st (depth st + 1) (state st) in
      let replacement := colorSpan d (fg st) (bg st) in
      (replacement,
       setProcessedPos st (qreplace (processed st) (pos st) (len st + 1) replacement)
         (pos st + qsize replacement))
    else splice (closeSpan, setDepthState st (depth st - 1) (state st))
  else if c =? 0x1d then
    splice (toggle d Italic "<span style='font-style: italic'>" "<span class='italic'>" st)
  else if c =? 0x13 then
    splice (toggle d LineThrough "<span style='text-decoration: line-through'>"
              "<span class='line-through'>" st)
  else if (c =? 0x15) || (c =? 0x1f) then
    splice (toggle d Underline "<span style='text-decoration: underline'>"
              "<span class='underline'>" st)
  else if c =? 0x16 then
    splice (toggle d Inverse "<span style='text-decoration: inverse'>"
              "<span class='inverse'>" st)
  else if c =? 0x0f then
    if 0 <? depth st then
      splice (repeated closeSpan (depth st), setDepthState st 0 None_)
    else
      splice ([], setDepthState
                    (setProcessedPos st (qremove (processed st) (pos st) 1) (pos st - 1))
                    0 None_)
  else if (c =? 46) || (c =? 47) || (c =? 58) then
    splice ([], if urlLike st then setPotentialUrl st true else st)
  else splice ([], st).

(** The loop of [toHtml]. *)
Fixpoint toHtml_loop (d : IrcTextFormatPrivate) (fuel : nat) (st : HtmlState) : HtmlState :=
  match fuel with
  | O => st
  | S fuel' =>
      if pos st <? qsize (processed st) then toHtml_loop d fuel' (snd (toHtml_iter d st))
      else st
  end.

(** The values [replacement] takes, one per turn of the loop. *)
Fixpoint toHtml_replacements (d : IrcTextFormatPrivate) (fuel : nat) (st : HtmlState)
  : list QString :=
  match fuel with
  | O => []
  | S fuel' =>
      if pos st <? qsize (processed st) then
        fst (toHtml_iter d st) :: toHtml_replacements d fuel' (snd (toHtml_iter d st))
      else []
  end.

(** [toHtml] up to the loop: [<] is escaped and the variables initialised. *)
Definition toHtml_init (text : QString) : HtmlState :=
  mkHtml (replaceChar text (QLatin1Char "<") (QLatin1String "&lt;"))
    None_ 0 0 (-1) (-1) 0 false.

(** [toHtml] up to the end of the loop.  Every turn brings [pos] at least
    one step closer to the end of [processed], so the size of the escaped
    text is fuel enough ([toHtml_scan_finished]). *)
Definition toHtml_scan (d : IrcTextFormatPrivate) (text : QString) : HtmlState :=
  let st := toHtml_init text in
  toHtml_loop d (length (processed st)) st.

(** [IrcTextFormat::toHtml(text)]; the fuel is that of the loop of
    [parseLinks], and [None] means that it ran out.  The C++ function
    returns a QString and has no other result. *)
Definition toHtml (d : IrcTextFormatPrivate) (fuel : nat) (text : QString) : option QString :=
  let st := toHtml_scan d text in
  if potentialUrl st && negb (isEmpty (rx_pattern (urlPattern d))) then
    parseLinks fuel (processed st) (urlPattern d)
  else Some (processed st).

(** *** toPlainText *)

(** The control bytes that [toPlainText] removes on their own. *)
Definition isFormatByte (c : QChar) : bool :=
  (c =? 0x02) || (c =? 0x0f) || (c =? 0x13) || (c =? 0x15) || (c =? 0x16)
  || (c =? 0x1d) || (c =? 0x1f).

(** One turn of the loop of [toPlainText], entered with
    [pos < processed.size()]. *)
Definition toPlainText_iter (st : PlainState) : PlainState :=
  let c := qat (p_processed st) (p_pos st) in
  if isFormatByte c then
    mkPlain (qremove (p_processed st) (p_pos st) 1) (p_pos st) (p_len st)
  else if c =? 0x03 then
    let colors := parseColors (p_processed st) (p_pos st + 1) in
    if c_ok colors then
      mkPlain (qremove (p_processed st) (p_pos st) (c_len colors + 1)) (p_pos st)
        (c_len colors)
    else mkPlain (qremove (p_processed st) (p_pos st) 1) (p_pos st) (c_len colors)
  else mkPlain (p_processed st) (p_pos st + 1) (p_len st).

Fixpoint toPlainText_loop (fuel : nat) (st : PlainState) : PlainState :=
  match fuel with
  | O => st
  | S fuel' =>
      if p_pos st <? qsize (p_processed st) then toPlainText_loop fuel' (toPlainText_iter st)
      else st
  end.

(** The state in which the loop of [toPlainText] ends.  Every turn removes
    a code unit or advances [pos], so the size of the text is fuel enough
    ([toPlainText_finished]). *)
Definition toPlainText_run (text : QString) : PlainState :=
  toPlainText_loop (length text) (mkPlain text 0 0).

(** [IrcTextFormat::toPlainText(text)]. *)
Definition toPlainText (text : QString) : QString :=
  p_processed (toPlainText_run text).

(** *** The two loops seen from the cursor

    While a loop runs, [processed] is what has been written so far followed
    by what is still to be read, and [pos] is the size of the first part.
    The definitions below describe one turn in those terms. *)

(** What [parseColors] finds in the text [s] that follows a colour marker. *)
Definition colorsAt (s : QString) : Colors :=
  match rx_colors_here s with
  | Some caps =>
      mkColors true (rx_colors_length caps) (toInt_value (fst caps))
        (match toInt (snd caps) with Some tmp => tmp | None => -1 end)
  | None => mkColors false 0 (-1) (-1)
  end.

(** One or two decimal digits. *)
Definition digitGroup (g : QString) : Prop :=
  Forall (fun c => isDigit c = true) g ∧ (1 <= length g <= 2)%nat.

(** The colours of a marker: [fg] or [fg,bg]. *)
Definition colorGroup (g : QString) : Prop :=
  ∃ fgd, digitGroup fgd ∧ (g = fgd ∨ ∃ bgd, digitGroup bgd ∧ g = fgd ++ 44 :: bgd).

(** [Stripped text plain]: [plain] is [text] without its format bytes, its
    colour markers and the colours that follow a marker. *)
Inductive Stripped : QString -> QString -> Prop :=
| Stripped_nil : Stripped [] []
| Stripped_keep c text plain :
    isFormatByte c = false -> c ≠ 0x03 -> Stripped text plain ->
    Stripped (c :: text) (c :: plain)
| Stripped_format c text plain :
    isFormatByte c = true -> Stripped text plain -> Stripped (c :: text) plain
| Stripped_marker text plain :
    Stripped text plain -> Stripped (0x03 :: text) plain
| Stripped_color g text plain :
    colorGroup g -> Stripped text plain -> Stripped (0x03 :: g ++ text) plain.

(** No format byte and no colour marker. *)
Definition plainChar (c : QChar) : Prop := isFormatByte c = false ∧ c ≠ 0x03.

(** The format bytes of [toHtml]: the flag of each, and its opening element
    in the two span formats. *)
Definition toggleOf (c : QChar) : option (Z * string * string) :=
  if c =? 0x02 then
    Some (Bold, "<span style='font-weight: bold'>", "<span class='bold'>")
  else if c =? 0x1d then
    Some (Italic, "<span style='font-style: italic'>", "<span class='italic'>")
  else if c =? 0x13 then
    Some (LineThrough, "<span style='text-decoration: line-through'>",
          "<span class='line-through'>")
  else if (c =? 0x15) || (c =? 0x1f) then
    Some (Underline, "<span style='text-decoration: underline'>",
          "<span class='underline'>")
  else if c =? 0x16 then
    Some (Inverse, "<span style='text-decoration: inverse'>", "<span class='inverse'>")
  else None.

Definition openSpan (d : IrcTextFormatPrivate) (style class : string) : QString :=
  match spanFormat d with
  | SpanStyle => QLatin1String style
  | SpanClass => QLatin1String class
  end.

Definition isUrlPunct (c : QChar) : bool := (c =? 46) || (c =? 47) || (c =? 58).

(** The code unit before the cursor and the one after the current code unit
    exist and are not spaces. *)
Definition surrounded (out rest : QString) : bool :=
  match last out, rest with
  | Some a, b :: _ => negb (isSpace a) && negb (isSpace b)
  | _, _ => false
  end.

(** One turn of the loop of [toHtml] at the code unit [c], between what has
    been written, [out], and what is still to be read, [rest]: the
    replacement chosen and the variables after the turn. *)
Inductive Turn (d : IrcTextFormatPrivate) (st : HtmlState) (out : QString) (c : QChar)
    (rest : QString) : QString -> HtmlState -> Prop :=
| Turn_open flag style class :
    toggleOf c = Some (flag, style, class) -> Z.land (state st) flag = 0 ->
    Turn d st out c rest (openSpan d style class)
      (mkHtml (out ++ openSpan d style class ++ rest) (Z.lxor (state st) flag)
         (qsize (out ++ openSpan d style class)) (len st) (fg st) (bg st)
         (depth st + 1) (potentialUrl st))
| Turn_close flag style class :
    toggleOf c = Some (flag, style, class) -> Z.land (state st) flag ≠ 0 ->
    Turn d st out c rest closeSpan
      (mkHtml (out ++ closeSpan ++ rest) (Z.lxor (state st) flag)
         (qsize (out ++ closeSpan)) (len st) (fg st) (bg st)
         (depth st - 1) (potentialUrl st))
| Turn_color colors :
    c = 0x03 -> colors = colorsAt rest -> c_ok colors = true ->
    Turn d st out c rest (colorSpan d (c_fg colors) (c_bg colors))
      (mkHtml (out ++ colorSpan d (c_fg colors) (c_bg colors)
                   ++ drop (Z.to_nat (c_len colors)) rest)
         (state st) (qsize (out ++ colorSpan d (c_fg colors) (c_bg colors)))
         (c_len colors) (c_fg colors) (c_bg colors) (depth st + 1) (potentialUrl st))
| Turn_marker :
    c = 0x03 -> c_ok (colorsAt rest) = false ->
    Turn d st out c rest closeSpan
      (mkHtml (out ++ closeSpan ++ rest) (state st) (qsize (out ++ closeSpan))
         0 (-1) (-1) (depth st - 1) (potentialUrl st))
| Turn_reset :
    c = 0x0f -> 0 < depth st ->
    Turn d st out c rest (repeated closeSpan (depth st))
      (mkHtml (out ++ repeated closeSpan (depth st) ++ rest) None_
         (qsize (out ++ repeated closeSpan (depth st))) (len st) (fg st) (bg st)
         0 (potentialUrl st))
| Turn_reset_drop :
    c = 0x0f -> depth st <= 0 ->
    Turn d st out c rest []
      (mkHtml (out ++ rest) None_ (qsize out) (len st) (fg st) (bg st) 0 (potentialUrl st))
| Turn_punct :
    isUrlPunct c = true ->
    Turn d st out c rest []
      (mkHtml ((out ++ [c]) ++ rest) (state st) (qsize (out ++ [c])) (len st) (fg st)
         (bg st) (depth st) (potentialUrl st || surrounded out rest))
| Turn_other :
    toggleOf c = None -> c ≠ 0x03 -> c ≠ 0x0f -> isUrlPunct c = false ->
    Turn d st out c rest []
      (mkHtml ((out ++ [c]) ++ rest) (state st) (qsize (out ++ [c])) (len st) (fg st)
         (bg st) (depth st) (potentialUrl st)).

(** The output of the loop of [toHtml], piece by piece: a code unit taken
    over from the escaped text, or a replacement written by the loop. *)
Inductive Chunk :=
| Literal (c : QChar)
| Markup (r : QString).

Definition render (chunks : list Chunk) : QString :=
  flat_map (fun chunk => match chunk with Literal c => [c] | Markup r => r end) chunks.

Definition literals (chunks : list Chunk) : QString :=
  omap (fun chunk => match chunk with Literal c => Some c | Markup _ => None end) chunks.

Definition markups (chunks : list Chunk) : list QString :=
  omap (fun chunk => match chunk with Literal _ => None | Markup r => Some r end) chunks.

(** The elements a replacement opens, less those it closes: an opening
    element counts 1, a run of closing elements counts -1 for each. *)
Definition spanDelta (replacement : QString) : Z :=
  if startsWith replacement closeSpan then - (qsize replacement / qsize closeSpan)
  else if startsWith replacement (QLatin1String "<span ") then 1
  else 0.

(** The closing elements of a replacement. *)
Definition closings (replacement : QString) : Z :=
  if startsWith replacement closeSpan then qsize replacement / qsize closeSpan else 0.

(** The elements that the replacements of [log] have opened and not closed. *)
Definition openElements (log : list QString) : Z :=
  foldr (fun replacement n => spanDelta replacement + n) 0 log.

(** The number of flags set in [state]. *)
Definition flagCount (state : Z) : Z :=
  Z.b2z (Z.testbit state 0) + Z.b2z (Z.testbit state 2) + Z.b2z (Z.testbit state 3)
  + Z.b2z (Z.testbit state 4) + Z.b2z (Z.testbit state 5).

(** Every colour marker of [s] is followed by a digit. *)
Fixpoint markersColored (s : QString) : bool :=
  match s with
  | [] => true
  | c :: s' =>
      (if c =? 0x03 then match s' with x :: _ => isDigit x | [] => false end else true)
      && markersColored s'
  end.


(** The bytes that [QUrl::toPercentEncoding] leaves as they are when it is
    called with [exclude]. *)
Definition kept (c : Z) : bool := unreserved c || existsb (Z.eqb c) exclude.

(** Every match that the pattern finds from an offset starts at the offset
    or after it, lies inside the text, and is not empty. *)
Definition findsNonEmpty (rx : QRegExp) : Prop :=
  ∀ str offset m,
    indexIn rx str offset = Some m ->
    offset <= m_idx m ∧ 0 < m_len m ∧ m_idx m + m_len m <= qsize str.

(** From every offset inside a text the pattern finds a match in the text,
    as a pattern does that matches the empty text. *)
Definition findsAlways (rx : QRegExp) : Prop :=
  ∀ str offset,
    0 <= offset <= qsize str ->
    ∃ m, indexIn rx str offset = Some m
         ∧ offset <= m_idx m ∧ 0 <= m_len m ∧ m_idx m + m_len m <= qsize str.

(** Among the code units below 128 the decimal digits are [0] to [9], as
    the Unicode tables have it. *)
Definition asciiDigits : Prop :=
  ∀ c, c < 128 -> isDigit c = (48 <=? c) && (c <=? 57).

(** The code unit at the head of [s], if there is one, ends the colours of
    a marker: it is neither a digit nor a comma. *)
Definition endsColors (s : QString) : Prop :=
  match s with [] => True | c :: _ => isDigit c = false ∧ c ≠ 44 end.

(** The first statement of [toHtml]: every [<] becomes [&lt;]. *)
Definition escape (s : QString) : QString :=
  replaceChar s (QLatin1Char "<") (QLatin1String "&lt;").

(** Two states of the loop of [toHtml] that differ at most in the working
    string, the cursor and the potential-URL flag. *)
Definition sameVars (a b : HtmlState) : Prop :=
  state a = state b ∧ len a = len b ∧ fg a = fg b ∧ bg a = bg b ∧ depth a = depth b.

(** [text] holds a [.], [/] or [:] that stands between two code units that
    are not spaces when the scan of [toHtml] reads it: before it, the last
    code unit that the scan has written for the text in front; after it, the
    code unit that follows in the escaped text. *)
Definition urlLikeText (d : IrcTextFormatPrivate) (text : QString) : Prop :=
  ∃ pre c post,
    text = pre ++ c :: post ∧ isUrlPunct c = true
    ∧ surrounded (processed (toHtml_scan d pre)) (escape post) = true.

(** *** Where the code units of a result come from

    A code unit with its origin: [true] for one taken over from the escaped
    text, [false] for one that [toHtml] has written. *)
Definition Tagged := list (bool * QChar).

Definition untag (t : Tagged) : QString := snd <$> t.

Definition written (s : QString) : Tagged := pair false <$> s.

Definition tagged (chunks : list Chunk) : Tagged :=
  flat_map (fun chunk => match chunk with
                         | Literal c => [(true, c)]
                         | Markup r => written r
                         end) chunks.

(** [QString::mid] and [QString::replace(position, n, after)] on code units
    with their origins. *)
Definition midTagged (t : Tagged) (position n : Z) : Tagged :=
  take (Z.to_nat n) (drop (Z.to_nat position) t).

Definition replaceTagged (t : Tagged) (position n : Z) (after : Tagged) : Tagged :=
  if (position <? 0) || (Z.of_nat (length t) <? position) then t
  else
    let n := Z.min n (Z.of_nat (length t) - position) in
    take (Z.to_nat position) t ++ after ++ drop (Z.to_nat (position + n)) t.

(** [Linked t t']: [t'] comes from [t] by putting anchors around parts of
    it, one after the other.  An anchor is written by [toHtml], its address
    holds no [<], and the part it stands around keeps its origins. *)
Inductive Linked : Tagged -> Tagged -> Prop :=
| Linked_done t : Linked t t
| Linked_anchor t position n address t' :
    (QLatin1Char "<" ∉ address) ->
    Linked (replaceTagged t position n
              (written (QLatin1String "<a href='" ++ address ++ QLatin1String "'>")
               ++ midTagged t position n ++ written (QLatin1String "</a>"))) t' ->
    Linked t t'.

(** *** The links, as the specification words them *)

(** [s] starts with [ftp.], whatever the case of its letters. *)
Definition startsFtp (s : QString) : Prop :=
  ∃ head tail, s = head ++ tail
               ∧ map (foldCase 0) head = map (foldCase 0) (QLatin1String "ftp.").

(** The scheme to prepend to a link whose scheme capture is [cap2], decided
    on the text [decidedOn]. *)
Inductive SchemeOf (cap2 decidedOn : QString) : QString -> Prop :=
| Scheme_own : cap2 ≠ [] -> SchemeOf cap2 decidedOn []
| Scheme_mailto :
    cap2 = [] -> (QLatin1Char "@" ∈ decidedOn) ->
    SchemeOf cap2 decidedOn (QLatin1String "mailto:")
| Scheme_ftp :
    cap2 = [] -> (QLatin1Char "@" ∉ decidedOn) -> startsFtp decidedOn ->
    SchemeOf cap2 decidedOn (QLatin1String "ftp://")
| Scheme_http :
    cap2 = [] -> (QLatin1Char "@" ∉ decidedOn) -> ¬ startsFtp decidedOn ->
    SchemeOf cap2 decidedOn (QLatin1String "http://").

(** The anchor for the text [href] of a match: the address is the scheme
    and the percent-encoded text, the visible text is [href] itself. *)
Definition anchor (scheme href : QString) : QString :=
  QLatin1String "<a href='" ++ scheme ++ percentEncode exclude (toUtf8 href)
    ++ QLatin1String "'>" ++ href ++ QLatin1String "</a>".

(** [Links rx decideOn p pos result]: searching [p] from [pos] on, and after
    each match behind the anchor that took its place, turns [p] into
    [result]; [decideOn href m] is the text on which the scheme of the match
    [m] with the text [href] is decided. *)
Inductive Links (rx : QRegExp) (decideOn : QString -> RxMatch -> QString)
  : QString -> Z -> QString -> Prop :=
| Links_done p pos : indexIn rx p pos = None -> Links rx decideOn p pos p
| Links_match p pos m scheme result :
    indexIn rx p pos = Some m ->
    SchemeOf (m_cap2 m) (decideOn (mid p (m_idx m) (m_len m)) m) scheme ->
    Links rx decideOn
      (qreplace p (m_idx m) (m_len m) (anchor scheme (mid p (m_idx m) (m_len m))))
      (m_idx m + qsize (anchor scheme (mid p (m_idx m) (m_len m)))) result ->
    Links rx decideOn p pos result.

(** *** Facts about QString *)

Lemma qsize_app a b : qsize (a ++ b) = qsize a + qsize b.
Proof. unfold qsize. rewrite length_app. lia. Qed.

Lemma qsize_nonneg s : 0 <= qsize s.
Proof. unfold qsize. lia. Qed.

Lemma qsize_cons c s : qsize (c :: s) = 1 + qsize s.
Proof. unfold qsize. simpl. lia. Qed.

Lemma to_nat_qsize s : Z.to_nat (qsize s) = length s.
Proof. unfold qsize. lia. Qed.

Lemma qat_middle out c rest : qat (out ++ c :: rest) (qsize out) = c.
Proof.
  unfold qat. pose proof (qsize_nonneg out).
  destruct (Z.ltb_spec (qsize out) 0); [lia|].
  rewrite to_nat_qsize. apply nth_middle.
Qed.

Lemma qat_next out c x rest : qat (out ++ c :: x :: rest) (qsize out + 1) = x.
Proof.
  replace (out ++ c :: x :: rest) with ((out ++ [c]) ++ x :: rest)
    by (rewrite <- app_assoc; reflexivity).
  replace (qsize out + 1) with (qsize (out ++ [c]))
    by (rewrite qsize_app; reflexivity).
  apply qat_middle.
Qed.

Lemma qat_previous out x rest : qat ((out ++ [x]) ++ rest) (qsize (out ++ [x]) - 1) = x.
Proof.
  rewrite <- app_assoc. simpl.
  replace (qsize (out ++ [x]) - 1) with (qsize out)
    by (rewrite qsize_app; unfold qsize; simpl; lia).
  apply qat_middle.
Qed.

Lemma take_middle (out : QString) c rest : take (Z.to_nat (qsize out)) (out ++ c :: rest) = out.
Proof. rewrite to_nat_qsize. apply take_app_length. Qed.

Lemma drop_middle (out : QString) c rest k :
  0 <= k -> drop (Z.to_nat (qsize out + (k + 1))) (out ++ c :: rest) = drop (Z.to_nat k) rest.
Proof.
  intros Hk. pose proof (qsize_nonneg out).
  replace (Z.to_nat (qsize out + (k + 1))) with (length out + S (Z.to_nat k))%nat
    by (unfold qsize; lia).
  rewrite drop_app_add. reflexivity.
Qed.

Lemma qremove_middle out c rest k :
  0 <= k -> qremove (out ++ c :: rest) (qsize out) (k + 1) = out ++ drop (Z.to_nat k) rest.
Proof.
  intros Hk. unfold qremove. cbv zeta.
  pose proof (qsize_nonneg out). pose proof (qsize_nonneg rest).
  assert (E : (qsize out <? 0) = false) by (apply Z.ltb_ge; lia).
  rewrite !E, qsize_app, qsize_cons. simpl.
  destruct (Z.leb_spec (qsize out + (1 + qsize rest)) (qsize out)); [lia|].
  destruct (Z.leb_spec (qsize out + (1 + qsize rest) - qsize out) (k + 1)).
  - rewrite take_middle, drop_ge by (unfold qsize in *; lia).
    symmetry. apply app_nil_r.
  - destruct (Z.ltb_spec 0 (k + 1)); [|lia].
    rewrite take_middle, drop_middle by lia. reflexivity.
Qed.

Lemma qreplace_middle out c rest k after :
  0 <= k ->
  qreplace (out ++ c :: rest) (qsize out) (k + 1) after
  = out ++ after ++ drop (Z.to_nat k) rest.
Proof.
  intros Hk. unfold qreplace.
  pose proof (qsize_nonneg out). pose proof (qsize_nonneg rest).
  destruct (Z.ltb_spec (qsize out) 0); [lia|].
  rewrite qsize_app, qsize_cons. simpl.
  destruct (Z.ltb_spec (qsize out + (1 + qsize rest)) (qsize out)); [lia|].
  rewrite take_middle.
  destruct (Z.min_spec (k + 1) (qsize out + (1 + qsize rest) - qsize out)) as [[? ->]|[? ->]].
  - rewrite drop_middle by lia. reflexivity.
  - replace (qsize out + (1 + qsize rest) - qsize out) with (qsize rest + 1) by lia.
    rewrite drop_middle by lia.
    rewrite !drop_ge by (unfold qsize in *; lia). reflexivity.
Qed.

Lemma qreplace_one out c rest after :
  qreplace (out ++ c :: rest) (qsize out) 1 after = out ++ after ++ rest.
Proof. exact (qreplace_middle out c rest 0 after (Z.le_refl 0)). Qed.

Lemma qremove_one out c rest : qremove (out ++ c :: rest) (qsize out) 1 = out ++ rest.
Proof. exact (qremove_middle out c rest 0 (Z.le_refl 0)). Qed.

(** *** Facts about parseColors *)

Lemma rx_digits_spec s :
  ∃ tail, s = rx_digits s ++ tail
          ∧ Forall (fun c => isDigit c = true) (rx_digits s)
          ∧ (length (rx_digits s) <= 2)%nat.
Proof.
  destruct s as [|a [|b s]]; simpl.
  - exists []. repeat split; auto.
  - destruct (isDigit a) eqn:Ha.
    + exists []. repeat split; auto.
    + exists [a]. repeat split; auto.
  - destruct (isDigit a) eqn:Ha; [destruct (isDigit b) eqn:Hb|].
    + exists s. repeat split; auto.
    + exists (b :: s). repeat split; auto.
    + exists (a :: b :: s). repeat split; auto.
Qed.

Lemma rx_digits_group s : isEmpty (rx_digits s) = false -> digitGroup (rx_digits s).
Proof.
  intros Hne. destruct (rx_digits_spec s) as (tail & _ & Hd & Hl).
  split; [exact Hd|]. destruct (rx_digits s); [discriminate|simpl in *; lia].
Qed.

Lemma rx_digits_not_digit c s : isDigit c = false -> rx_digits (c :: s) = [].
Proof. intros H. simpl. rewrite H. reflexivity. Qed.

(** A match at the head of [s] is a colour group, of [rx_colors_length]
    code units, followed by the rest of [s]. *)
Lemma rx_colors_here_spec s caps :
  rx_colors_here s = Some caps ->
  ∃ g, colorGroup g ∧ rx_colors_length caps = qsize g
       ∧ s = g ++ drop (Z.to_nat (rx_colors_length caps)) s.
Proof.
  unfold rx_colors_here. destruct (isEmpty (rx_digits s)) eqn:Hne; [discriminate|].
  pose proof (rx_digits_group s Hne) as Hfg.
  destruct (rx_digits_spec s) as (tail & Hs & _ & _).
  remember (rx_digits s) as fgd eqn:Efgd. clear Efgd.
  assert (Hdrop : drop (length fgd) s = tail).
  { rewrite Hs. apply drop_app_length. }
  rewrite Hdrop.
  assert (Hplain : ∃ g, colorGroup g ∧ rx_colors_length (fgd, []) = qsize g
                        ∧ s = g ++ drop (Z.to_nat (rx_colors_length (fgd, []))) s).
  { exists fgd. split; [exists fgd; auto|]. unfold rx_colors_length. simpl.
    split; [lia|]. replace (qsize fgd + 0) with (qsize fgd) by lia.
    rewrite to_nat_qsize, Hdrop. exact Hs. }
  destruct tail as [|c tail]; [intros [= <-]; exact Hplain|].
  destruct (c =? 44) eqn:Hc; [|intros [= <-]; exact Hplain].
  apply Z.eqb_eq in Hc. subst c. intros [= <-].
  destruct (isEmpty (rx_digits tail)) eqn:Hbg.
  - destruct (rx_digits tail); [|discriminate]. exact Hplain.
  - pose proof (rx_digits_group tail Hbg) as Hbgd.
    destruct (rx_digits_spec tail) as (tail' & Ht & _ & _).
    remember (rx_digits tail) as bgd eqn:Ebgd. clear Ebgd.
    exists (fgd ++ 44 :: bgd). split; [exists fgd; split; eauto|].
    unfold rx_colors_length. simpl. rewrite Hbg.
    assert (Hsize : qsize fgd + (1 + qsize bgd) = qsize (fgd ++ 44 :: bgd)).
    { rewrite qsize_app, qsize_cons. reflexivity. }
    split; [exact Hsize|]. rewrite Hsize, to_nat_qsize.
    assert (Hall : s = (fgd ++ 44 :: bgd) ++ tail').
    { rewrite Hs, Ht, <- app_assoc. reflexivity. }
    rewrite Hall at 2. rewrite drop_app_length. exact Hall.
Qed.

Lemma rx_colors_length_pos s caps : rx_colors_here s = Some caps -> 0 < rx_colors_length caps.
Proof.
  intros H. destruct (rx_colors_here_spec s caps H) as (g & (fgd & [_ Hl] & Hg) & -> & _).
  destruct Hg as [->|(bgd & _ & ->)]; [|rewrite qsize_app];
    pose proof (qsize_nonneg fgd); unfold qsize in *; lia.
Qed.

Lemma rx_colors_search_idx s idx m :
  rx_colors_search s idx = Some m ->
  idx <= m_idx m ∧ (rx_colors_here s = None -> idx < m_idx m).
Proof.
  revert idx. induction s as [|c s IH]; intros idx; simpl.
  - discriminate.
  - destruct (rx_colors_here (c :: s)).
    + intros [= <-]. simpl. split; [lia|discriminate].
    + intros H. apply IH in H. lia.
Qed.

Lemma rx_colors_cursor out c rest :
  indexIn rx_colors (out ++ c :: rest) (qsize out + 1)
  = rx_colors_search rest (qsize out + 1).
Proof.
  unfold indexIn, rx_colors. simpl.
  pose proof (qsize_nonneg out). pose proof (qsize_nonneg rest).
  assert (E1 : (qsize out + 1 <? 0) = false) by (apply Z.ltb_ge; lia).
  assert (E2 : (qsize (out ++ c :: rest) <? qsize out + 1) = false).
  { apply Z.ltb_ge. rewrite qsize_app, qsize_cons. lia. }
  rewrite !E1, E2. simpl.
  replace (qsize out + 1) with (qsize out + (0 + 1)) at 1 by lia.
  rewrite drop_middle by lia. reflexivity.
Qed.

Lemma parseColors_cursor out c rest :
  parseColors (out ++ c :: rest) (qsize out + 1) = colorsAt rest.
Proof.
  unfold parseColors, colorsAt. rewrite rx_colors_cursor.
  destruct (rx_colors_search rest (qsize out + 1)) as [m|] eqn:Hsearch.
  - pose proof (rx_colors_search_idx _ _ _ Hsearch) as [_ Hlt].
    destruct rest as [|x rest]; simpl in Hsearch; [discriminate|].
    destruct (rx_colors_here (x :: rest)) as [caps|] eqn:Hhere.
    + injection Hsearch as <-. simpl. rewrite Z.eqb_refl.
      pose proof (rx_colors_length_pos _ _ Hhere).
      destruct (Z.ltb_spec 0 (rx_colors_length caps)); [reflexivity|lia].
    + specialize (Hlt eq_refl).
      destruct (Z.eqb_spec (m_idx m) (qsize out + 1)); [lia|reflexivity].
  - destruct rest as [|x rest]; simpl in Hsearch; [reflexivity|].
    destruct (rx_colors_here (x :: rest)); [discriminate|reflexivity].
Qed.

Lemma colorsAt_len_nonneg s : 0 <= c_len (colorsAt s).
Proof.
  unfold colorsAt. destruct (rx_colors_here s) as [caps|] eqn:H; simpl; [|lia].
  pose proof (rx_colors_length_pos _ _ H). lia.
Qed.

Lemma colorsAt_not_ok s : c_ok (colorsAt s) = false -> colorsAt s = mkColors false 0 (-1) (-1).
Proof. unfold colorsAt. destruct (rx_colors_here s); [discriminate|reflexivity]. Qed.

(** What follows a marker is either left alone, or a colour group is taken
    from its head. *)
Lemma colorsAt_group s :
  (c_ok (colorsAt s) = false ∧ drop (Z.to_nat (c_len (colorsAt s))) s = s)
  ∨ (c_ok (colorsAt s) = true
     ∧ ∃ g, colorGroup g ∧ s = g ++ drop (Z.to_nat (c_len (colorsAt s))) s).
Proof.
  unfold colorsAt. destruct (rx_colors_here s) as [caps|] eqn:H; simpl.
  - right. split; [reflexivity|].
    destruct (rx_colors_here_spec _ _ H) as (g & Hg & _ & Hs). eauto.
  - left. auto.
Qed.

(** A marker that no digit follows carries no colours. *)
Lemma colorsAt_no_digit s :
  match s with [] => True | c :: _ => isDigit c = false end ->
  colorsAt s = mkColors false 0 (-1) (-1).
Proof.
  intros H. unfold colorsAt, rx_colors_here.
  destruct s as [|c s]; [reflexivity|]. rewrite rx_digits_not_digit by exact H.
  reflexivity.
Qed.

Lemma colorsAt_digit c s : isDigit c = true -> c_ok (colorsAt (c :: s)) = true.
Proof.
  intros H. unfold colorsAt, rx_colors_here.
  assert (Hne : isEmpty (rx_digits (c :: s)) = false).
  { simpl. rewrite H. destruct s as [|b s]; [reflexivity|].
    destruct (isDigit b); reflexivity. }
  rewrite Hne.
  destruct (drop _ _) as [|x ?]; [reflexivity|destruct (x =? 44); reflexivity].
Qed.

(** *** toPlainText from the cursor *)

Lemma toPlainText_iter_cursor out c rest l :
  toPlainText_iter (mkPlain (out ++ c :: rest) (qsize out) l)
  = if isFormatByte c then mkPlain (out ++ rest) (qsize out) l
    else if c =? 0x03 then
      mkPlain (out ++ drop (Z.to_nat (c_len (colorsAt rest))) rest) (qsize out)
        (c_len (colorsAt rest))
    else mkPlain ((out ++ [c]) ++ rest) (qsize (out ++ [c])) l.
Proof.
  unfold toPlainText_iter. simpl. rewrite qat_middle.
  destruct (isFormatByte c).
  - change 1 with (0 + 1). rewrite qremove_middle by lia. reflexivity.
  - destruct (c =? 3).
    + rewrite parseColors_cursor. destruct (c_ok (colorsAt rest)) eqn:Hok.
      * rewrite qremove_middle by apply colorsAt_len_nonneg. reflexivity.
      * rewrite (colorsAt_not_ok _ Hok). simpl.
        change 1 with (0 + 1). rewrite qremove_middle by lia. reflexivity.
    + rewrite <- app_assoc, qsize_app. reflexivity.
Qed.

Lemma toPlainText_loop_cursor n :
  ∀ out rest l, (length rest <= n)%nat ->
  ∃ plain l',
    toPlainText_loop n (mkPlain (out ++ rest) (qsize out) l)
    = mkPlain (out ++ plain) (qsize (out ++ plain)) l'
    ∧ Stripped rest plain.
Proof.
  induction n as [|n IH]; intros out rest l Hn.
  - destruct rest; [|simpl in Hn; lia].
    exists [], l. split; [|constructor]. simpl. rewrite app_nil_r. reflexivity.
  - destruct rest as [|c rest].
    + exists [], l. split; [|constructor]. simpl. rewrite app_nil_r.
      rewrite Z.ltb_irrefl. reflexivity.
    + simpl in Hn. cbn [toPlainText_loop p_pos p_processed].
      assert (Hlt : (qsize out <? qsize (out ++ c :: rest)) = true).
      { apply Z.ltb_lt. rewrite qsize_app, qsize_cons.
        pose proof (qsize_nonneg rest). lia. }
      rewrite Hlt, toPlainText_iter_cursor.
      destruct (isFormatByte c) eqn:Hformat; [|destruct (c =? 3) eqn:Hc].
      * destruct (IH out rest l) as (plain & l' & -> & Hs); [lia|].
        exists plain, l'. split; [reflexivity|]. by apply Stripped_format.
      * apply Z.eqb_eq in Hc. subst c.
        destruct (IH out (drop (Z.to_nat (c_len (colorsAt rest))) rest)
                    (c_len (colorsAt rest))) as (plain & l' & -> & Hs).
        { rewrite length_drop. lia. }
        exists plain, l'. split; [reflexivity|].
        destruct (colorsAt_group rest) as [[_ E]|[_ (g & Hg & E)]].
        -- rewrite E in Hs. by apply Stripped_marker.
        -- rewrite E. by apply Stripped_color.
      * destruct (IH (out ++ [c]) rest l) as (plain & l' & -> & Hs); [lia|].
        exists (c :: plain), l'. rewrite <- !app_assoc. split; [reflexivity|].
        apply Stripped_keep; [done| |done]. by apply Z.eqb_neq.
Qed.

(** What the run of [toPlainText] ends with. *)
Lemma toPlainText_run_spec text :
  ∃ l, toPlainText_run text
       = mkPlain (toPlainText text) (qsize (toPlainText text)) l
       ∧ Stripped text (toPlainText text).
Proof.
  unfold toPlainText, toPlainText_run.
  destruct (toPlainText_loop_cursor (length text) [] text 0) as (plain & l & E & Hs);
    [lia|].
  change (qsize []) with 0 in E. simpl in E. rewrite E. simpl. eauto.
Qed.

(** The loop of [toPlainText] has come to its end when the fuel is used up. *)
Lemma toPlainText_finished text :
  p_pos (toPlainText_run text) = qsize (p_processed (toPlainText_run text)).
Proof. destruct (toPlainText_run_spec text) as (l & -> & _). reflexivity. Qed.

Lemma Stripped_sublist text plain : Stripped text plain -> plain `sublist_of` text.
Proof.
  induction 1.
  - constructor.
  - by apply sublist_skip.
  - by apply sublist_cons.
  - by apply sublist_cons.
  - apply sublist_cons. by apply sublist_inserts_l.
Qed.

Lemma Stripped_plainChar text plain : Stripped text plain -> Forall plainChar plain.
Proof. induction 1; auto. constructor; [split|]; auto. Qed.

Lemma Stripped_of_plain text plain :
  Forall plainChar text -> Stripped text plain -> plain = text.
Proof.
  intros Hall Hs. induction Hs; inversion Hall as [|? ? [Hf Hm] Hall']; subst.
  - reflexivity.
  - f_equal. auto.
  - congruence.
  - congruence.
  - congruence.
Qed.

(** **** Claim C1 *)

(** C1.  Applying [toPlainText] twice gives the same result as applying it
    once: [toPlainText (toPlainText x) = toPlainText x] for every text [x]. *)
Theorem toPlainText_idempotent (x : QString) :
  toPlainText (toPlainText x) = toPlainText x.
Proof.
  destruct (toPlainText_run_spec x) as (_ & _ & Hx).
  destruct (toPlainText_run_spec (toPlainText x)) as (_ & _ & Hxx).
  apply Stripped_of_plain; [|exact Hxx].
  exact (Stripped_plainChar _ _ Hx).
Qed.

(** **** Claim C9 *)

(** C9.  The output of [toPlainText] is a subsequence of its input: its
    code units are code units of the input, in the same order and
    unchanged.  What is deleted is told by [Stripped]: the format bytes, the
    colour markers, and after a marker the colours [fg] or [fg,bg] (one or
    two digits, and with a comma one or two more).  Nothing is inserted, and
    no format byte or marker is left. *)
Theorem toPlainText_subsequence (text : QString) :
  toPlainText text `sublist_of` text
  ∧ Stripped text (toPlainText text)
  ∧ Forall plainChar (toPlainText text).
Proof.
  destruct (toPlainText_run_spec text) as (_ & _ & H).
  split; [exact (Stripped_sublist _ _ H)|].
  split; [exact H|exact (Stripped_plainChar _ _ H)].
Qed.

(** *** toHtml from the cursor *)

Lemma isEmpty_QLatin1String_cons a s : isEmpty (QLatin1String (String a s)) = false.
Proof. reflexivity. Qed.

Lemma repeated_succ s n : 0 < n -> repeated s n = s ++ repeated s (n - 1).
Proof.
  intros Hn. unfold repeated.
  replace (Z.to_nat n) with (S (Z.to_nat (n - 1))) by lia. reflexivity.
Qed.

Lemma repeated_nonpos s n : n <= 0 -> repeated s n = [].
Proof. intros Hn. unfold repeated. replace (Z.to_nat n) with O by lia. reflexivity. Qed.

Lemma repeated_closeSpan_not_empty n : 0 < n -> isEmpty (repeated closeSpan n) = false.
Proof. intros Hn. rewrite repeated_succ by exact Hn. reflexivity. Qed.

Lemma arg_span_style x :
  arg (QLatin1String "<span style='%1'>") x
  = QLatin1String "<span style='" ++ x ++ QLatin1String "'>".
Proof. reflexivity. Qed.

Lemma arg_span_class x :
  arg (QLatin1String "<span class='%1'>") x
  = QLatin1String "<span class='" ++ x ++ QLatin1String "'>".
Proof. reflexivity. Qed.

(** Every colour element opens with [<span ]. *)
Lemma colorSpan_shape d fgc bgc :
  ∃ tail, colorSpan d fgc bgc = QLatin1String "<span " ++ tail.
Proof.
  unfold colorSpan. destruct (spanFormat d).
  - rewrite arg_span_style. eexists. reflexivity.
  - rewrite arg_span_class. eexists. reflexivity.
Qed.

Lemma urlLike_cursor st out c rest :
  processed st = out ++ c :: rest -> pos st = qsize out ->
  urlLike st = negb (potentialUrl st) && surrounded out rest.
Proof.
  intros Hp Hpos. unfold urlLike, surrounded. rewrite Hp, Hpos.
  destruct (potentialUrl st); [reflexivity|]. simpl.
  destruct out as [|a out _] using rev_ind.
  - reflexivity.
  - rewrite last_snoc.
    assert (E : (0 <? qsize (out ++ [a])) = true).
    { apply Z.ltb_lt. rewrite qsize_app. pose proof (qsize_nonneg out).
      unfold qsize in *. simpl. lia. }
    rewrite E. simpl.
    replace ((out ++ [a]) ++ c :: rest) with ((out ++ [a]) ++ (c :: rest)) by reflexivity.
    rewrite qat_previous.
    destruct rest as [|b rest].
    + assert (E2 : (qsize (out ++ [a]) <? qsize ((out ++ [a]) ++ [c]) - 1) = false).
      { apply Z.ltb_ge. rewrite (qsize_app (out ++ [a])). unfold qsize. simpl. lia. }
      rewrite E2. destruct (isSpace a); reflexivity.
    + assert (E2 : (qsize (out ++ [a]) <? qsize ((out ++ [a]) ++ c :: b :: rest) - 1) = true).
      { apply Z.ltb_lt. rewrite (qsize_app (out ++ [a])), !qsize_cons.
        pose proof (qsize_nonneg rest). lia. }
      rewrite E2, qat_next. destruct (isSpace a); reflexivity.
Qed.

Lemma toggleOf_not_empty d c flag style class :
  toggleOf c = Some (flag, style, class) -> isEmpty (openSpan d style class) = false.
Proof.
  unfold toggleOf, openSpan.
  repeat (match goal with |- context [if ?b then _ else _] => destruct b end);
    intros [= <- <- <-] || discriminate; destruct (spanFormat d); reflexivity.
Qed.

Lemma toggle_splice_cursor d st out c rest flag style class :
  processed st = out ++ c :: rest -> pos st = qsize out ->
  toggleOf c = Some (flag, style, class) ->
  Turn d st out c rest (fst (splice (toggle d flag style class st)))
    (snd (splice (toggle d flag style class st))).
Proof.
  intros Hp Hpos Ht. unfold toggle.
  destruct (Z.eqb_spec (Z.land (state st) flag) 0) as [E|E]; simpl.
  - fold (openSpan d style class).
    rewrite (toggleOf_not_empty d _ _ _ _ Ht). simpl.
    rewrite Hp, Hpos, qreplace_one, <- qsize_app.
    exact (Turn_open d st out c rest flag _ _ Ht E).
  - rewrite Hp, Hpos, qreplace_one.
    change (qsize out + 7) with (qsize out + qsize closeSpan). rewrite <- qsize_app.
    exact (Turn_close d st out c rest flag _ _ Ht E).
Qed.

(** [toHtml_iter] performs the turn that [Turn] describes. *)
Lemma toHtml_iter_turn d st out c rest :
  processed st = out ++ c :: rest -> pos st = qsize out ->
  Turn d st out c rest (fst (toHtml_iter d st)) (snd (toHtml_iter d st)).
Proof.
  intros Hp Hpos. unfold toHtml_iter. rewrite Hp, Hpos, qat_middle.
  rewrite <- Hp, <- Hpos.
  destruct (Z.eqb_spec c 2) as [->|N2];
    [by apply toggle_splice_cursor|].
  destruct (Z.eqb_spec c 3) as [->|N3].
  { rewrite Hp, Hpos, parseColors_cursor.
    destruct (c_ok (colorsAt rest)) eqn:Hok; simpl.
    - rewrite Hp, Hpos, qreplace_middle by apply colorsAt_len_nonneg.
      rewrite <- qsize_app. by eapply Turn_color.
    - rewrite Hp, Hpos, qreplace_one, (colorsAt_not_ok _ Hok). simpl.
      change (qsize out + 7) with (qsize out + qsize closeSpan). rewrite <- qsize_app.
      by apply Turn_marker. }
  destruct (Z.eqb_spec c 29) as [->|N29];
    [by apply toggle_splice_cursor|].
  destruct (Z.eqb_spec c 19) as [->|N19];
    [by apply toggle_splice_cursor|].
  destruct (Z.eqb_spec c 21) as [->|N21];
    [by apply toggle_splice_cursor|].
  destruct (Z.eqb_spec c 31) as [->|N31];
    [by apply toggle_splice_cursor|].
  destruct (Z.eqb_spec c 22) as [->|N22];
    [by apply toggle_splice_cursor|].
  assert (Hnone : toggleOf c = None).
  { unfold toggleOf.
    repeat (match goal with
            | |- context [?x =? ?y] => destruct (Z.eqb_spec x y); [lia|]
            end). reflexivity. }
  cbn [orb].
  destruct (Z.eqb_spec c 15) as [->|N15].
  { destruct (Z.ltb_spec 0 (depth st)) as [Hd|Hd]; simpl.
    - rewrite (repeated_closeSpan_not_empty _ Hd). simpl.
      rewrite Hp, Hpos, qreplace_one, <- qsize_app. by apply Turn_reset.
    - rewrite Hp, Hpos, qremove_one.
      replace (qsize out - 1 + 1) with (qsize out) by lia. by apply Turn_reset_drop. }
  destruct (isUrlPunct c) eqn:Hpunct; unfold isUrlPunct in Hpunct; rewrite Hpunct.
  - rewrite (urlLike_cursor st out c rest Hp Hpos).
    assert (E : snd (splice ([], if negb (potentialUrl st) && surrounded out rest
                                 then setPotentialUrl st true else st))
                = mkHtml ((out ++ [c]) ++ rest) (state st) (qsize (out ++ [c])) (len st)
                    (fg st) (bg st) (depth st) (potentialUrl st || surrounded out rest)).
    { rewrite <- app_assoc, qsize_app. simpl.
      destruct (potentialUrl st) eqn:Hu, (surrounded out rest); simpl;
        unfold setProcessedPos; simpl; rewrite ?Hu, Hp, Hpos; reflexivity. }
    assert (F : fst (splice ([], if negb (potentialUrl st) && surrounded out rest
                                 then setPotentialUrl st true else st)) = []).
    { destruct (negb (potentialUrl st) && surrounded out rest); reflexivity. }
    rewrite E, F. apply Turn_punct. exact Hpunct.
  - cbn [splice isEmpty negb fst snd]. unfold setProcessedPos. rewrite Hp, Hpos.
    replace (out ++ c :: rest) with ((out ++ [c]) ++ rest)
      by (rewrite <- app_assoc; reflexivity).
    replace (qsize out + 1) with (qsize (out ++ [c])) by (rewrite qsize_app; reflexivity).
    by apply Turn_other.
Qed.

(** A turn moves the cursor forward: what it writes is its replacement or
    the code unit it read, and what is left to read is a tail of what was. *)
Lemma Turn_cursor d st out c rest r st' :
  Turn d st out c rest r st' ->
  ∃ chunks k,
    processed st' = (out ++ render chunks) ++ drop k rest
    ∧ pos st' = qsize (out ++ render chunks)
    ∧ (chunks = [Literal c] ∧ r = [] ∨ chunks = [Markup r]).
Proof.
  destruct 1;
    [ exists [Markup (openSpan d style class)], O
    | exists [Markup closeSpan], O
    | exists [Markup (colorSpan d (c_fg colors) (c_bg colors))], (Z.to_nat (c_len colors))
    | exists [Markup closeSpan], O
    | exists [Markup (repeated closeSpan (depth st))], O
    | exists [Markup []], O
    | exists [Literal c], O
    | exists [Literal c], O ];
    cbn [processed pos render flat_map skipn app];
    rewrite ?app_nil_r, <- ?app_assoc; auto.
Qed.

Lemma render_app a b : render (a ++ b) = render a ++ render b.
Proof. apply flat_map_app. Qed.

Lemma literals_app a b : literals (a ++ b) = literals a ++ literals b.
Proof. apply omap_app. Qed.

Lemma markups_app a b : markups (a ++ b) = markups a ++ markups b.
Proof. apply omap_app. Qed.

Lemma toHtml_loop_cursor d n :
  ∀ st out rest,
    processed st = out ++ rest -> pos st = qsize out -> (length rest <= n)%nat ->
    ∃ chunks,
      processed (toHtml_loop d n st) = out ++ render chunks
      ∧ pos (toHtml_loop d n st) = qsize (out ++ render chunks)
      ∧ literals chunks `sublist_of` rest
      ∧ markups chunks `sublist_of` toHtml_replacements d n st.
Proof.
  induction n as [|n IH]; intros st out rest Hp Hpos Hn.
  - destruct rest; [|simpl in Hn; lia]. exists []. simpl.
    rewrite Hp, Hpos, app_nil_r. repeat split; constructor.
  - destruct rest as [|c rest].
    + exists []. simpl. rewrite Hp, Hpos, app_nil_r, Z.ltb_irrefl, Hp, Hpos, app_nil_r.
      repeat split; constructor.
    + simpl in Hn. cbn [toHtml_loop toHtml_replacements].
      assert (Hlt : (pos st <? qsize (processed st)) = true).
      { apply Z.ltb_lt. rewrite Hp, Hpos, qsize_app, qsize_cons.
        pose proof (qsize_nonneg rest). lia. }
      rewrite Hlt.
      pose proof (toHtml_iter_turn d st out c rest Hp Hpos) as T.
      destruct (toHtml_iter d st) as [r st']. cbn [fst snd] in *.
      destruct (Turn_cursor _ _ _ _ _ _ _ T) as (chunk & k & Hp' & Hpos' & Hchunk).
      destruct (IH st' _ _ Hp' Hpos') as (chunks & E1 & E2 & L & M).
      { rewrite length_drop. lia. }
      exists (chunk ++ chunks).
      rewrite render_app, literals_app, markups_app, app_assoc.
      split; [exact E1|]. split; [exact E2|].
      assert (L' : literals chunks `sublist_of` rest).
      { etrans; [exact L|]. apply sublist_drop. }
      destruct Hchunk as [[-> ->]| ->]; simpl.
      * split; [by apply sublist_skip|by apply sublist_cons].
      * split; [by apply sublist_cons|by apply sublist_skip].
Qed.

(** The escaped text holds no [<]. *)
Lemma replaceChar_lt_free text :
  QLatin1Char "<" ∉ replaceChar text (QLatin1Char "<") (QLatin1String "&lt;").
Proof.
  unfold replaceChar. induction text as [|c text IH]; simpl.
  - apply not_elem_of_nil.
  - rewrite elem_of_app. intros [H|H]; [|exact (IH H)].
    destruct (Z.eqb_spec c (QLatin1Char "<")) as [->|N].
    + vm_compute in H. repeat (apply elem_of_cons in H as [H|H]; [discriminate|]).
      by apply elem_of_nil in H.
    + apply list_elem_of_singleton in H. congruence.
Qed.

(** What the loop of [toHtml] ends with: literal code units of the escaped
    text, none of them [<], between replacements the loop has written. *)
Lemma toHtml_scan_spec d text :
  ∃ chunks,
    processed (toHtml_scan d text) = render chunks
    ∧ pos (toHtml_scan d text) = qsize (processed (toHtml_scan d text))
    ∧ literals chunks `sublist_of` processed (toHtml_init text)
    ∧ markups chunks
        `sublist_of` toHtml_replacements d (length (processed (toHtml_init text)))
                       (toHtml_init text).
Proof.
  unfold toHtml_scan.
  destruct (toHtml_loop_cursor d (length (processed (toHtml_init text)))
              (toHtml_init text) [] (processed (toHtml_init text)))
    as (chunks & E1 & E2 & L & M); [reflexivity|reflexivity|lia|].
  exists chunks. simpl in E1, E2. rewrite E1 at 2. auto.
Qed.

(** The loop of [toHtml] has come to its end when the fuel is used up. *)
Lemma toHtml_scan_finished d text :
  pos (toHtml_scan d text) = qsize (processed (toHtml_scan d text)).
Proof. destruct (toHtml_scan_spec d text) as (chunks & _ & E & _). exact E. Qed.

(** *** Links *)

Lemma existsb_elem_of (b : Z) (l : list Z) : b ∈ l -> existsb (Z.eqb b) l = true.
Proof.
  induction 1 as [|b c l _ IH]; simpl; [rewrite Z.eqb_refl|rewrite IH, orb_true_r];
    reflexivity.
Qed.

Lemma generateLink_anchor protocol href :
  generateLink protocol href
  = QLatin1String "<a href='" ++ protocol ++ toPercentEncoding href exclude
      ++ QLatin1String "'>" ++ href ++ QLatin1String "</a>".
Proof.
  unfold generateLink. cbn [multiArg QLatin1String map String.list_ascii_of_string].
  cbv zeta. simpl. rewrite <- ?app_assoc. reflexivity.
Qed.

Lemma toHexUpper_not_lt v : toHexUpper v ≠ QLatin1Char "<".
Proof. unfold toHexUpper. change (QLatin1Char "<") with 60. destruct (v <? 10) eqn:E; lia. Qed.

(** A percent-encoded text holds no [<]. *)
Lemma percentEncode_lt_free bytes : QLatin1Char "<" ∉ percentEncode exclude bytes.
Proof.
  unfold percentEncode. induction bytes as [|c bytes IH]; simpl.
  - apply not_elem_of_nil.
  - rewrite elem_of_app. intros [H|H]; [|exact (IH H)].
    unfold percentEncodeByte in H.
    destruct (unreserved c || existsb (Z.eqb c) exclude) eqn:E.
    + apply list_elem_of_singleton in H. subst c. vm_compute in E. discriminate.
    + apply elem_of_cons in H as [H|H]; [discriminate|].
      apply elem_of_cons in H as [H|H]; [exact (toHexUpper_not_lt _ (eq_sym H))|].
      apply list_elem_of_singleton in H. exact (toHexUpper_not_lt _ (eq_sym H)).
Qed.

Lemma linkProtocol_lt_free m : QLatin1Char "<" ∉ linkProtocol m.
Proof.
  unfold linkProtocol.
  repeat (match goal with |- context [if ?b then _ else _] => destruct b end);
    intros H; vm_compute in H;
    repeat (apply elem_of_cons in H as [H|H]; [discriminate|]);
    by apply elem_of_nil in H.
Qed.

(** *** A colour marker without colours *)

(** At a colour marker that is followed by a code unit that is no digit, or
    by nothing, [parseColors] takes no digit ([len] is 0).  The turn of
    [toHtml] writes one closing element over the marker and takes one from
    [depth]; the turn of [toPlainText] removes the marker alone.  In both,
    what followed the marker stands unchanged after the cursor. *)
Lemma marker_turn (d : IrcTextFormatPrivate) (st : HtmlState)
    (out rest : QString) (l : Z) :
  processed st = out ++ 0x03 :: rest ->
  pos st = qsize out ->
  match rest with [] => True | c :: _ => isDigit c = false end ->
  parseColors (processed st) (pos st + 1) = mkColors false 0 (-1) (-1)
  ∧ toHtml_iter d st
    = (closeSpan,
       mkHtml (out ++ closeSpan ++ rest) (state st) (qsize out + 7) 0 (-1) (-1)
         (depth st - 1) (potentialUrl st))
  ∧ toPlainText_iter (mkPlain (out ++ 0x03 :: rest) (qsize out) l)
    = mkPlain (out ++ rest) (qsize out) 0.
Proof.
  intros Hp Hpos Hrest.
  pose proof (colorsAt_no_digit rest Hrest) as Hc.
  split; [rewrite Hp, Hpos, parseColors_cursor; exact Hc|]. split.
  - pose proof (toHtml_iter_turn d st out 3 rest Hp Hpos) as T.
    destruct (toHtml_iter d st) as [r st']. cbn [fst snd] in T.
    inversion T; subst; try discriminate; try congruence.
    + rewrite Hc in *. discriminate.
    + rewrite qsize_app. reflexivity.
  - rewrite toPlainText_iter_cursor. simpl. rewrite Hc. reflexivity.
Qed.

(** *** The depth of [toHtml] *)

Lemma land_pow2 s i :
  0 <= i -> Z.land s (2 ^ i) = if Z.testbit s i then 2 ^ i else 0.
Proof.
  intros Hi. apply Z.bits_inj'. intros n Hn.
  rewrite Z.land_spec, Z.pow2_bits_eqb by exact Hi.
  destruct (Z.testbit s i) eqn:E.
  - rewrite Z.pow2_bits_eqb by exact Hi.
    destruct (Z.eqb_spec i n) as [->|]; [rewrite E; reflexivity|apply andb_false_r].
  - rewrite Z.bits_0.
    destruct (Z.eqb_spec i n) as [->|]; [rewrite E; reflexivity|apply andb_false_r].
Qed.

Lemma flagCount_nonneg s : 0 <= flagCount s.
Proof.
  unfold flagCount.
  destruct (Z.testbit s 0), (Z.testbit s 2), (Z.testbit s 3), (Z.testbit s 4),
    (Z.testbit s 5); simpl; lia.
Qed.

Lemma flagCount_toggle s i :
  i ∈ [0; 2; 3; 4; 5] ->
  flagCount (Z.lxor s (2 ^ i))
  = if Z.land s (2 ^ i) =? 0 then flagCount s + 1 else flagCount s - 1.
Proof.
  intros Hi.
  assert (H0 : 0 <= i).
  { repeat (apply elem_of_cons in Hi as [->|Hi]; [lia|]). by apply elem_of_nil in Hi. }
  rewrite land_pow2 by exact H0. unfold flagCount. rewrite !Z.lxor_spec.
  repeat (apply elem_of_cons in Hi as [->|Hi];
          [destruct (Z.testbit s 0), (Z.testbit s 2), (Z.testbit s 3), (Z.testbit s 4),
             (Z.testbit s 5); reflexivity|]).
  by apply elem_of_nil in Hi.
Qed.

(** The flag of a format byte is one of the five bits that [flagCount]
    counts, and its opening element counts as one element. *)
Lemma toggleOf_flag d c flag style class :
  toggleOf c = Some (flag, style, class) ->
  (∃ i, i ∈ [0; 2; 3; 4; 5] ∧ flag = 2 ^ i) ∧ spanDelta (openSpan d style class) = 1.
Proof.
  unfold toggleOf, openSpan.
  repeat (match goal with |- context [if ?b then _ else _] => destruct b end);
    intros [= <- <- <-] || discriminate.
  all: split; [|destruct (spanFormat d); reflexivity].
  all: first [ exists 0; split; [repeat constructor|reflexivity]
             | exists 2; split; [repeat constructor|reflexivity]
             | exists 3; split; [repeat constructor|reflexivity]
             | exists 4; split; [repeat constructor|reflexivity]
             | exists 5; split; [repeat constructor|reflexivity] ].
Qed.

Lemma spanDelta_colorSpan d fgc bgc : spanDelta (colorSpan d fgc bgc) = 1.
Proof. destruct (colorSpan_shape d fgc bgc) as (tail & ->). vm_compute. reflexivity. Qed.

Lemma startsWith_app s tail : startsWith (s ++ tail) s = true.
Proof. induction s as [|c s IH]; simpl; [reflexivity|]. by rewrite Z.eqb_refl. Qed.

Lemma qsize_repeated_closeSpan n : 0 <= n -> qsize (repeated closeSpan n) = 7 * n.
Proof.
  intros Hn. unfold repeated, qsize.
  replace n with (Z.of_nat (Z.to_nat n)) at 2 by lia.
  induction (Z.to_nat n) as [|m IH]; simpl; [reflexivity|]. lia.
Qed.

Lemma closings_repeated n : 0 <= n -> closings (repeated closeSpan n) = n.
Proof.
  intros Hn. unfold closings. destruct (Z.eq_dec n 0) as [->|N]; [reflexivity|].
  rewrite repeated_succ by lia. rewrite startsWith_app.
  rewrite <- repeated_succ by lia. rewrite qsize_repeated_closeSpan by lia.
  change (qsize closeSpan) with 7. rewrite Z.mul_comm. apply Z.div_mul. lia.
Qed.

Lemma spanDelta_repeated n : 0 <= n -> spanDelta (repeated closeSpan n) = - n.
Proof.
  intros Hn. unfold spanDelta. destruct (Z.eq_dec n 0) as [->|N]; [reflexivity|].
  pose proof (closings_repeated n Hn) as C. unfold closings in C.
  rewrite repeated_succ in * by lia. rewrite startsWith_app in *. lia.
Qed.

Lemma markersColored_drop k s : markersColored s = true -> markersColored (drop k s) = true.
Proof.
  revert s. induction k as [|k IH]; intros s H; [exact H|].
  destruct s as [|c s]; [reflexivity|]. simpl in *.
  apply andb_true_iff in H as [_ H]. by apply IH.
Qed.

(** What one turn does to [depth]. *)
Lemma Turn_depth d st out c rest r st' :
  Turn d st out c rest r st' ->
  markersColored (c :: rest) = true ->
  flagCount (state st) <= depth st ->
  flagCount (state st') <= depth st'
  ∧ depth st' = depth st + spanDelta r
  ∧ (c = 0x0f -> r = repeated closeSpan (depth st)).
Proof.
  intros T Hm Hinv. pose proof (flagCount_nonneg (state st)) as Hnn.
  destruct T as [ flag style class Ht Hl | flag style class Ht Hl | colors -> -> Hok
                | -> Hok | -> Hd | -> Hd | Hp | Hn N3 N15 Hp ]; cbn [state depth].
  - destruct (toggleOf_flag d _ _ _ _ Ht) as [(i & Hi & ->) ->].
    rewrite flagCount_toggle, Hl by exact Hi. simpl.
    split; [lia|]. split; [reflexivity|].
    intros ->. discriminate.
  - destruct (toggleOf_flag d _ _ _ _ Ht) as [(i & Hi & ->) _].
    rewrite flagCount_toggle by exact Hi.
    destruct (Z.eqb_spec (Z.land (state st) (2 ^ i)) 0); [contradiction|].
    split; [lia|]. split; [reflexivity|].
    intros ->. discriminate.
  - rewrite spanDelta_colorSpan. split; [lia|]. split; [reflexivity|discriminate].
  - exfalso. simpl in Hm. destruct rest as [|x rest]; [discriminate|].
    apply andb_true_iff in Hm as [Hx _].
    rewrite (colorsAt_digit _ _ Hx) in Hok. discriminate.
  - rewrite spanDelta_repeated by lia. split; [reflexivity|]. split; [lia|reflexivity].
  - assert (depth st = 0) as -> by lia.
    split; [reflexivity|]. split; reflexivity.
  - change (spanDelta []) with 0. split; [lia|]. split; [lia|].
    intros ->. discriminate.
  - change (spanDelta []) with 0. split; [lia|]. split; [lia|]. contradiction.
Qed.

Lemma toHtml_loop_depth d k :
  ∀ st out rest,
    processed st = out ++ rest -> pos st = qsize out ->
    markersColored rest = true -> flagCount (state st) <= depth st ->
    flagCount (state (toHtml_loop d k st)) <= depth (toHtml_loop d k st)
    ∧ depth (toHtml_loop d k st)
      = depth st + openElements (toHtml_replacements d k st)
    ∧ ∃ out' rest',
        processed (toHtml_loop d k st) = out' ++ rest'
        ∧ pos (toHtml_loop d k st) = qsize out'
        ∧ markersColored rest' = true.
Proof.
  induction k as [|k IH]; intros st out rest Hp Hpos Hm Hinv.
  - simpl. split; [exact Hinv|]. split; [lia|]. eauto.
  - cbn [toHtml_loop toHtml_replacements]. destruct rest as [|c rest].
    + rewrite Hp, Hpos, app_nil_r, Z.ltb_irrefl. simpl.
      split; [exact Hinv|]. split; [lia|].
      exists out, []. rewrite Hp, app_nil_r. auto.
    + assert (Hlt : (pos st <? qsize (processed st)) = true).
      { apply Z.ltb_lt. rewrite Hp, Hpos, qsize_app, qsize_cons.
        pose proof (qsize_nonneg rest). lia. }
      rewrite Hlt.
      pose proof (toHtml_iter_turn d st out c rest Hp Hpos) as T.
      destruct (toHtml_iter d st) as [r st']. cbn [fst snd] in *.
      destruct (Turn_depth _ _ _ _ _ _ _ T Hm Hinv) as (Hinv' & Hd & _).
      destruct (Turn_cursor _ _ _ _ _ _ _ T) as (chunk & n & Hp' & Hpos' & _).
      assert (Hm' : markersColored (drop n rest) = true).
      { apply markersColored_drop. simpl in Hm. by apply andb_true_iff in Hm as [_ Hm]. }
      destruct (IH st' _ _ Hp' Hpos' Hm' Hinv') as (I1 & I2 & I3).
      split; [exact I1|]. split; [|exact I3]. simpl. lia.
Qed.

(** A text without colour markers, such as a sequence of style toggles and
    literal text with a trailing reset, meets the condition; escaping [<]
    adds no marker. *)
Lemma markersColored_no_marker text :
  Forall (fun c => c ≠ 0x03) text ->
  markersColored (processed (toHtml_init text)) = true.
Proof.
  intros H. assert (Hesc : Forall (fun c => c ≠ 0x03) (processed (toHtml_init text))).
  { simpl. unfold replaceChar. induction H as [|c text Hc _ IH]; simpl; [constructor|].
    apply Forall_app. split; [|exact IH].
    destruct (c =? QLatin1Char "<"); [|by constructor].
    repeat constructor; discriminate. }
  induction Hesc as [|c s Hc _ IH]; simpl; [reflexivity|].
  destruct (Z.eqb_spec c 3); [contradiction|]. exact IH.
Qed.

(** **** Claim C2 *)

(** C2, as the code has it.  Take a text in which a digit follows every
    colour marker, such as any sequence of style toggles and literal text
    with one trailing reset.  After any number of turns of the loop of
    [toHtml], [depth] is not negative and equals the number of elements
    that the replacements written so far have opened and not closed; and a
    turn that meets a reset byte writes exactly that many closing elements,
    after which [depth] is 0. *)
Theorem toHtml_depth (d : IrcTextFormatPrivate) (text : QString) (k : nat) :
  markersColored (processed (toHtml_init text)) = true ->
  let st := toHtml_loop d k (toHtml_init text) in
  let log := toHtml_replacements d k (toHtml_init text) in
  0 <= depth st
  ∧ depth st = openElements log
  ∧ (pos st < qsize (processed st) -> qat (processed st) (pos st) = 0x0f ->
     fst (toHtml_iter d st) = repeated closeSpan (openElements log)
     ∧ closings (fst (toHtml_iter d st)) = openElements log
     ∧ depth (snd (toHtml_iter d st)) = 0).
Proof.
  intros Hm st log.
  destruct (toHtml_loop_depth d k (toHtml_init text) [] _ eq_refl eq_refl Hm)
    as (Hinv & Hd & out & rest & Hp & Hpos & Hm'); [change (0 <= 0); lia|].
  fold st in Hinv, Hd, Hp, Hpos. fold log in Hd.
  change (depth (toHtml_init text)) with 0 in Hd. rewrite Z.add_0_l in Hd.
  pose proof (flagCount_nonneg (state st)) as Hnn.
  split; [lia|]. split; [exact Hd|].
  intros Hlt Hc. destruct rest as [|c rest].
  { rewrite Hp, Hpos, app_nil_r in Hlt. lia. }
  rewrite Hp, Hpos, qat_middle in Hc. subst c.
  pose proof (toHtml_iter_turn d st out _ rest Hp Hpos) as T.
  destruct (toHtml_iter d st) as [r st']. cbn [fst snd] in *.
  destruct (Turn_depth _ _ _ _ _ _ _ T Hm' Hinv) as (_ & Hd' & Hr).
  specialize (Hr eq_refl). subst r. rewrite <- Hd.
  split; [reflexivity|]. split; [apply closings_repeated; lia|].
  rewrite Hd', spanDelta_repeated by lia. lia.
Qed.

(** *** The potential-URL flag *)




Lemma toHtml_loop_done d k st :
  (pos st <? qsize (processed st)) = false -> toHtml_loop d k st = st.
Proof. intros H. destruct k; simpl; [|rewrite H]; reflexivity. Qed.

Lemma toHtml_loop_add d a b st :
  toHtml_loop d (a + b) st = toHtml_loop d b (toHtml_loop d a st).
Proof.
  revert st. induction a as [|a IH]; intros st; [reflexivity|]. simpl.
  destruct (pos st <? qsize (processed st)) eqn:H; [apply IH|].
  symmetry. by apply toHtml_loop_done.
Qed.

Lemma toHtml_loop_succ d k st :
  toHtml_loop d (S k) st
  = if pos (toHtml_loop d k st) <? qsize (processed (toHtml_loop d k st))
    then snd (toHtml_iter d (toHtml_loop d k st))
    else toHtml_loop d k st.
Proof.
  replace (S k) with (k + 1)%nat by lia. rewrite toHtml_loop_add. reflexivity.
Qed.





(** *** Links: the claims *)

(** **** Claim C7 *)

(** C7, as the code has it.  [setUrlPattern] stores a pattern without
    compiling it, and [toHtml] has no result other than a string.  With a
    stored pattern that does not compile, the link pass of a call finds no
    match: the call returns what the scan has produced, without links and
    without a report of the failure. *)
Theorem toHtml_invalid_pattern (d : IrcTextFormatPrivate) (pattern : QRegExp)
    (text : QString) :
  rx_isValid pattern = false ->
  urlPattern (setUrlPattern d pattern) = pattern
  ∧ ∀ fuel,
      toHtml (setUrlPattern d pattern) (S fuel) text
      = Some (processed (toHtml_scan (setUrlPattern d pattern) text)).
Proof.
  intros Hbad. split; [reflexivity|]. intros fuel. unfold toHtml.
  destruct (potentialUrl _ && negb _); [|reflexivity].
  unfold parseLinks. cbn [parseLinks_loop urlPattern setUrlPattern].
  unfold indexIn. rewrite Hbad. reflexivity.
Qed.

Lemma toPlainText_loop_done k st :
  (p_pos st <? qsize (p_processed st)) = false -> toPlainText_loop k st = st.
Proof. intros H. destruct k; simpl; [|rewrite H]; reflexivity. Qed.

Lemma toPlainText_loop_add a b st :
  toPlainText_loop (a + b) st = toPlainText_loop b (toPlainText_loop a st).
Proof.
  revert st. induction a as [|a IH]; intros st; [reflexivity|]. simpl.
  destruct (p_pos st <? qsize (p_processed st)) eqn:H; [apply IH|].
  symmetry. by apply toPlainText_loop_done.
Qed.

(** *** A scan does not look ahead

    What the two loops make of a text does not depend on what follows the
    text, as long as that does not start with a digit or a comma, which a
    colour marker at the end of the text would take. *)

Lemma rx_digits_frame r ext : endsColors ext -> rx_digits (r ++ ext) = rx_digits r.
Proof.
  intros He. destruct r as [|a [|b r]]; simpl; [| |reflexivity].
  - destruct ext as [|c ext]; [reflexivity|]. destruct He as [E _].
    simpl. rewrite E. reflexivity.
  - destruct (isDigit a); [|reflexivity].
    destruct ext as [|c ext]; [reflexivity|]. destruct He as [E _].
    simpl. rewrite E. reflexivity.
Qed.

Lemma rx_digits_length s : (length (rx_digits s) <= length s)%nat.
Proof.
  destruct (rx_digits_spec s) as (tail & E & _). apply (f_equal length) in E.
  rewrite length_app in E. lia.
Qed.

Lemma colorsAt_frame r ext : endsColors ext -> colorsAt (r ++ ext) = colorsAt r.
Proof.
  intros He. unfold colorsAt, rx_colors_here. cbv zeta.
  rewrite (rx_digits_frame r ext He).
  destruct (isEmpty (rx_digits r)); [reflexivity|].
  rewrite drop_app_le by apply rx_digits_length.
  destruct (drop (length (rx_digits r)) r) as [|x s'] eqn:E; simpl.
  - destruct ext as [|c ext]; [reflexivity|]. destruct He as [_ Hc].
    destruct (Z.eqb_spec c 44); [contradiction|reflexivity].
  - destruct (x =? 44); [|reflexivity]. by rewrite (rx_digits_frame s' ext He).
Qed.

Lemma colorsAt_len_le s : (Z.to_nat (c_len (colorsAt s)) <= length s)%nat.
Proof.
  unfold colorsAt. destruct (rx_colors_here s) as [caps|] eqn:H; simpl; [|lia].
  destruct (rx_colors_here_spec _ _ H) as (g & _ & Hlen & Hs).
  rewrite Hlen. apply (f_equal length) in Hs. rewrite length_app in Hs.
  unfold qsize. lia.
Qed.

Lemma toggleOf_isFormatByte c t : toggleOf c = Some t -> isFormatByte c = true.
Proof.
  unfold toggleOf, isFormatByte.
  destruct (Z.eqb_spec c 2) as [->|]; [reflexivity|].
  destruct (Z.eqb_spec c 29) as [->|]; [reflexivity|].
  destruct (Z.eqb_spec c 19) as [->|]; [reflexivity|].
  destruct (Z.eqb_spec c 21) as [->|]; [reflexivity|].
  destruct (Z.eqb_spec c 31) as [->|]; [reflexivity|].
  destruct (Z.eqb_spec c 22) as [->|]; [reflexivity|]. discriminate.
Qed.

Lemma toggleOf_None_isFormatByte c :
  toggleOf c = None -> c ≠ 0x0f -> isFormatByte c = false.
Proof.
  unfold toggleOf, isFormatByte. intros H N.
  destruct (Z.eqb_spec c 2); [discriminate|].
  destruct (Z.eqb_spec c 29); [discriminate|].
  destruct (Z.eqb_spec c 19); [discriminate|].
  destruct (Z.eqb_spec c 21); [discriminate|].
  destruct (Z.eqb_spec c 31); [discriminate|].
  destruct (Z.eqb_spec c 22); [discriminate|].
  destruct (Z.eqb_spec c 15); [contradiction|]. reflexivity.
Qed.

Lemma isUrlPunct_plainChar c : isUrlPunct c = true -> plainChar c.
Proof.
  unfold isUrlPunct, plainChar, isFormatByte. intros H.
  assert (Hc : c = 46 ∨ c = 47 ∨ c = 58) by lia.
  destruct Hc as [->|[->| ->]]; split; (reflexivity || discriminate).
Qed.

Lemma toggleOf_marker t : toggleOf 0x03 = Some t -> False.
Proof. discriminate. Qed.

Lemma toggleOf_reset t : toggleOf 0x0f = Some t -> False.
Proof. discriminate. Qed.

Lemma toggleOf_punct c t : toggleOf c = Some t -> isUrlPunct c = true -> False.
Proof.
  intros Ht Hp. apply toggleOf_isFormatByte in Ht.
  destruct (isUrlPunct_plainChar _ Hp). congruence.
Qed.

(** A turn is decided by the variables, the code unit read and what
    follows it. *)
Lemma Turn_det d st out c rest r1 s1 r2 s2 :
  Turn d st out c rest r1 s1 -> Turn d st out c rest r2 s2 -> r1 = r2 ∧ s1 = s2.
Proof.
  intros T1 T2.
  destruct T1 as [ flag style class Ht Hl | flag style class Ht Hl | colors E1 E2 Hok
                 | E1 Hok | E1 Hd | E1 Hd | Hp | Hn N3 N15 Hp ];
    inversion T2 as [ flag' style' class' Ht' Hl' | flag' style' class' Ht' Hl'
                    | colors' E1' E2' Hok' | E1' Hok' | E1' Hd' | E1' Hd' | Hp'
                    | Hn' N3' N15' Hp' ];
    subst;
    try (exfalso; first [ exact (toggleOf_marker _ Ht) | exact (toggleOf_reset _ Ht)
                        | exact (toggleOf_punct _ _ Ht Hp')
                        | exact (toggleOf_marker _ Ht') | exact (toggleOf_reset _ Ht')
                        | exact (toggleOf_punct _ _ Ht' Hp)
                        | congruence | lia | discriminate ]);
    try (split; reflexivity);
    try (assert (X : (flag, style, class) = (flag', style', class')) by congruence;
         injection X as -> -> ->; first [ split; reflexivity | contradiction ]).
Qed.

(** A turn on a text and the same turn on the text with more behind it. *)
Lemma Turn_frame d st st2 out c r ext r1 s1 :
  Turn d st out c r r1 s1 -> sameVars st st2 -> endsColors ext ->
  ∃ s2 out' j,
    Turn d st2 out c (r ++ ext) r1 s2
    ∧ sameVars s1 s2
    ∧ (j <= length r)%nat
    ∧ processed s1 = out' ++ drop j r ∧ pos s1 = qsize out'
    ∧ processed s2 = out' ++ drop j r ++ ext ∧ pos s2 = qsize out'.
Proof.
  intros T (S1 & S2 & S3 & S4 & S5) He.
  destruct T as [ flag style class Ht Hl | flag style class Ht Hl | colors E1 E2 Hok
                | E1 Hok | E1 Hd | E1 Hd | Hp | Hn N3 N15 Hp ].
  - eexists _, (out ++ openSpan d style class), O.
    split; [apply (Turn_open d st2 out c (r ++ ext) flag style class Ht); congruence|].
    unfold sameVars. cbn [state len fg bg depth processed pos drop].
    rewrite <- !app_assoc, S1, S2, S3, S4, S5. repeat split; lia.
  - eexists _, (out ++ closeSpan), O.
    split; [apply (Turn_close d st2 out c (r ++ ext) flag style class Ht); congruence|].
    unfold sameVars. cbn [state len fg bg depth processed pos drop].
    rewrite <- !app_assoc, S1, S2, S3, S4, S5. repeat split; lia.
  - subst colors.
    eexists _, (out ++ colorSpan d (c_fg (colorsAt r)) (c_bg (colorsAt r))),
      (Z.to_nat (c_len (colorsAt r))).
    split.
    { rewrite <- (colorsAt_frame r ext He).
      apply (Turn_color d st2 out c (r ++ ext) _ E1 eq_refl).
      rewrite (colorsAt_frame r ext He). exact Hok. }
    unfold sameVars. cbn [state len fg bg depth processed pos].
    rewrite (colorsAt_frame r ext He), drop_app_le by apply colorsAt_len_le.
    rewrite <- !app_assoc, S1, S5.
    repeat split; apply colorsAt_len_le.
  - eexists _, (out ++ closeSpan), O.
    split; [apply (Turn_marker d st2 out c (r ++ ext) E1);
            by rewrite (colorsAt_frame r ext He)|].
    unfold sameVars. cbn [state len fg bg depth processed pos drop].
    rewrite <- !app_assoc, S1, S5. repeat split; lia.
  - eexists _, (out ++ repeated closeSpan (depth st)), O.
    split; [rewrite S5; apply (Turn_reset d st2 out c (r ++ ext) E1); lia|].
    unfold sameVars. cbn [state len fg bg depth processed pos drop].
    rewrite <- !app_assoc, S2, S3, S4, S5. repeat split; lia.
  - eexists _, out, O.
    split; [apply (Turn_reset_drop d st2 out c (r ++ ext) E1); lia|].
    unfold sameVars. cbn [state len fg bg depth processed pos drop].
    rewrite S2, S3, S4. repeat split; lia.
  - eexists _, (out ++ [c]), O.
    split; [apply (Turn_punct d st2 out c (r ++ ext) Hp)|].
    unfold sameVars. cbn [state len fg bg depth processed pos drop].
    rewrite <- !app_assoc, S1, S2, S3, S4, S5. repeat split; lia.
  - eexists _, (out ++ [c]), O.
    split; [apply (Turn_other d st2 out c (r ++ ext) Hn N3 N15 Hp)|].
    unfold sameVars. cbn [state len fg bg depth processed pos drop].
    rewrite <- !app_assoc, S1, S2, S3, S4, S5. repeat split; lia.
Qed.

(** With the cursor in front of [rest], as many turns as [rest] has code
    units end the loop, and more of them change nothing. *)
Lemma toHtml_loop_enough d n st out rest :
  processed st = out ++ rest -> pos st = qsize out -> (length rest <= n)%nat ->
  toHtml_loop d n st = toHtml_loop d (length rest) st
  ∧ pos (toHtml_loop d n st) = qsize (processed (toHtml_loop d n st)).
Proof.
  intros Hp Hpos Hn.
  destruct (toHtml_loop_cursor d (length rest) st out rest Hp Hpos) as (chunks & E1 & E2 & _);
    [lia|].
  assert (Hdone : (pos (toHtml_loop d (length rest) st)
                   <? qsize (processed (toHtml_loop d (length rest) st))) = false).
  { rewrite E1, E2. apply Z.ltb_irrefl. }
  replace n with (length rest + (n - length rest))%nat by lia.
  rewrite toHtml_loop_add, toHtml_loop_done by exact Hdone.
  split; [reflexivity|]. rewrite E1, E2. reflexivity.
Qed.

(** The scan of a text, and the scan of the text with more behind it when
    it has come to the end of the text: the same has been written, and the
    variables are the same. *)
Lemma toHtml_loop_frame d n :
  ∀ st st2 out r ext,
    processed st = out ++ r -> pos st = qsize out ->
    processed st2 = out ++ r ++ ext -> pos st2 = qsize out ->
    sameVars st st2 -> endsColors ext -> (length r <= n)%nat ->
    ∃ k, (k <= length r)%nat
         ∧ processed (toHtml_loop d k st2) = processed (toHtml_loop d n st) ++ ext
         ∧ pos (toHtml_loop d k st2) = qsize (processed (toHtml_loop d n st))
         ∧ sameVars (toHtml_loop d n st) (toHtml_loop d k st2).
Proof.
  induction n as [|n IH]; intros st st2 out r ext Hp Hpos Hp2 Hpos2 Hs He Hn.
  - destruct r; [|simpl in Hn; lia]. exists O. simpl in *.
    rewrite Hp, Hp2, Hpos2, app_nil_r. auto.
  - destruct r as [|c r].
    + exists O. rewrite (toHtml_loop_done d (S n) st)
        by (rewrite Hp, Hpos, app_nil_r; apply Z.ltb_irrefl).
      simpl in *. rewrite Hp, Hp2, Hpos2, app_nil_r. auto.
    + simpl in Hn. cbn [toHtml_loop]. change ((c :: r) ++ ext) with (c :: r ++ ext) in Hp2.
      assert (Hlt : (pos st <? qsize (processed st)) = true).
      { apply Z.ltb_lt. rewrite Hp, Hpos, qsize_app, qsize_cons.
        pose proof (qsize_nonneg r). lia. }
      rewrite Hlt.
      pose proof (toHtml_iter_turn d st out c r Hp Hpos) as T.
      pose proof (toHtml_iter_turn d st2 out c (r ++ ext) Hp2 Hpos2) as T2.
      destruct (Turn_frame _ _ st2 _ _ _ ext _ _ T Hs He)
        as (s2 & out' & j & T2' & Hs' & Hj & P1 & Q1 & P2 & Q2).
      destruct (Turn_det _ _ _ _ _ _ _ _ _ T2 T2') as [_ E2].
      destruct (IH _ s2 out' (drop j r) ext P1 Q1 P2 Q2 Hs' He) as (k & Hk & R1 & R2 & R3).
      { rewrite length_drop. lia. }
      exists (S k). rewrite length_drop in Hk. split; [simpl; lia|].
      cbn [toHtml_loop].
      assert (Hlt2 : (pos st2 <? qsize (processed st2)) = true).
      { apply Z.ltb_lt. rewrite Hp2, Hpos2, qsize_app, qsize_cons.
        pose proof (qsize_nonneg (r ++ ext)). lia. }
      rewrite Hlt2, E2. auto.
Qed.





Lemma escape_app a b : escape (a ++ b) = escape a ++ escape b.
Proof. unfold escape, replaceChar. apply flat_map_app. Qed.

Lemma escape_cons c s :
  c ≠ QLatin1Char "<" -> escape (c :: s) = c :: escape s.
Proof.
  intros N. unfold escape, replaceChar. cbn [flat_map].
  destruct (Z.eqb_spec c (QLatin1Char "<")); [contradiction|reflexivity].
Qed.


(** What the loop of [toPlainText] makes of the text after the cursor does
    not depend on what stands before the cursor. *)
Lemma toPlainText_loop_shift n :
  ∀ rest, (length rest <= n)%nat ->
  ∃ plain, ∀ out l, ∃ l',
    toPlainText_loop n (mkPlain (out ++ rest) (qsize out) l)
    = mkPlain (out ++ plain) (qsize (out ++ plain)) l'.
Proof.
  induction n as [|n IH]; intros rest Hn.
  { destruct rest; [|simpl in Hn; lia]. exists []. intros out l. exists l.
    simpl. rewrite app_nil_r. reflexivity. }
  destruct rest as [|c rest].
  { exists []. intros out l. exists l. simpl. rewrite app_nil_r, Z.ltb_irrefl.
    reflexivity. }
  simpl in Hn.
  assert (Hlt : ∀ out, (qsize out <? qsize (out ++ c :: rest)) = true).
  { intros out. apply Z.ltb_lt. rewrite qsize_app, qsize_cons.
    pose proof (qsize_nonneg rest). lia. }
  destruct (isFormatByte c) eqn:Hformat; [|destruct (c =? 3) eqn:Hc].
  - destruct (IH rest) as (plain & Hplain); [lia|]. exists plain. intros out l.
    cbn [toPlainText_loop p_pos p_processed].
    rewrite Hlt, toPlainText_iter_cursor, Hformat. apply Hplain.
  - destruct (IH (drop (Z.to_nat (c_len (colorsAt rest))) rest)) as (plain & Hplain).
    { rewrite length_drop. lia. }
    exists plain. intros out l. cbn [toPlainText_loop p_pos p_processed].
    rewrite Hlt, toPlainText_iter_cursor, Hformat, Hc. apply Hplain.
  - destruct (IH rest) as (plain & Hplain); [lia|]. exists (c :: plain). intros out l.
    cbn [toPlainText_loop p_pos p_processed].
    rewrite Hlt, toPlainText_iter_cursor, Hformat, Hc.
    destruct (Hplain (out ++ [c]) l) as (l' & ->). exists l'.
    rewrite <- !app_assoc. reflexivity.
Qed.

(** With the cursor behind [out] and in front of [rest], the loop of
    [toPlainText] leaves [out] and makes of [rest] what [toPlainText]
    returns for it. *)
Lemma toPlainText_at n out rest l :
  (length rest <= n)%nat ->
  p_processed (toPlainText_loop n (mkPlain (out ++ rest) (qsize out) l))
  = out ++ toPlainText rest.
Proof.
  intros Hn. destruct (toPlainText_loop_shift n rest Hn) as (plain & Hplain).
  destruct (Hplain out l) as (l1 & ->). destruct (Hplain [] 0) as (l2 & E).
  cbn [p_processed]. f_equal.
  change ([] ++ rest) with rest in E. change (qsize []) with 0 in E.
  replace n with (length rest + (n - length rest))%nat in E by lia.
  rewrite toPlainText_loop_add in E. fold (toPlainText_run rest) in E.
  rewrite toPlainText_loop_done in E
    by (rewrite toPlainText_finished; apply Z.ltb_irrefl).
  unfold toPlainText. rewrite E. reflexivity.
Qed.

Lemma toPlainText_loop_frame n :
  ∀ out r ext l,
    endsColors ext -> (length r <= n)%nat ->
    ∃ k l',
      (k <= length r)%nat
      ∧ toPlainText_loop k (mkPlain (out ++ r ++ ext) (qsize out) l)
        = mkPlain (p_processed (toPlainText_loop n (mkPlain (out ++ r) (qsize out) l)) ++ ext)
            (qsize (p_processed (toPlainText_loop n (mkPlain (out ++ r) (qsize out) l))))
            l'.
Proof.
  induction n as [|n IH]; intros out r ext l He Hn.
  { destruct r; [|simpl in Hn; lia]. exists O, l. simpl. rewrite app_nil_r. auto. }
  destruct r as [|c r].
  { exists O, l. simpl. rewrite app_nil_r, Z.ltb_irrefl. auto. }
  simpl in Hn. change ((c :: r) ++ ext) with (c :: r ++ ext).
  assert (Hlt : ∀ rest, (qsize out <? qsize (out ++ c :: rest)) = true).
  { intros rest. apply Z.ltb_lt. rewrite qsize_app, qsize_cons.
    pose proof (qsize_nonneg rest). lia. }
  cbn [toPlainText_loop p_pos p_processed]. rewrite Hlt, toPlainText_iter_cursor.
  destruct (isFormatByte c) eqn:Hformat; [|destruct (c =? 3) eqn:Hc].
  - destruct (IH out r ext l He) as (k & l' & Hk & E); [lia|].
    exists (S k), l'. split; [simpl; lia|].
    cbn [toPlainText_loop p_pos p_processed].
    rewrite Hlt, toPlainText_iter_cursor, Hformat. exact E.
  - destruct (IH out (drop (Z.to_nat (c_len (colorsAt r))) r) ext (c_len (colorsAt r)) He)
      as (k & l' & Hk & E).
    { rewrite length_drop. lia. }
    exists (S k), l'. rewrite length_drop in Hk. split; [simpl; lia|].
    cbn [toPlainText_loop p_pos p_processed].
    rewrite Hlt, toPlainText_iter_cursor, Hformat, Hc.
    rewrite (colorsAt_frame r ext He), drop_app_le by apply colorsAt_len_le.
    exact E.
  - destruct (IH (out ++ [c]) r ext l He) as (k & l' & Hk & E); [lia|].
    exists (S k), l'. split; [simpl; lia|].
    cbn [toPlainText_loop p_pos p_processed].
    rewrite Hlt, toPlainText_iter_cursor, Hformat, Hc. exact E.
Qed.

(** [toPlainText] of a text in two parts, the second of which does not
    start with a digit or a comma, is made of [toPlainText] of the parts. *)
Lemma toPlainText_app a b :
  endsColors b -> toPlainText (a ++ b) = toPlainText a ++ toPlainText b.
Proof.
  intros He.
  destruct (toPlainText_loop_frame (length a) [] a b 0 He) as (k & l' & Hk & E); [lia|].
  change (p_processed (toPlainText_loop (length a) (mkPlain ([] ++ a) (qsize []) 0)))
    with (toPlainText a) in E.
  change ([] ++ a ++ b) with (a ++ b) in E. change (qsize []) with 0 in E.
  unfold toPlainText at 1. unfold toPlainText_run.
  rewrite length_app.
  replace (length a + length b)%nat with (k + (length a + length b - k))%nat by lia.
  rewrite toPlainText_loop_add, E. apply toPlainText_at. lia.
Qed.

Lemma toPlainText_marker rest :
  match rest with [] => True | c :: _ => isDigit c = false end ->
  toPlainText (0x03 :: rest) = toPlainText rest.
Proof.
  intros Hrest. unfold toPlainText at 1. unfold toPlainText_run.
  change (length (3 :: rest)) with (S (length rest)).
  cbn [toPlainText_loop p_pos p_processed].
  assert (Hlt : (0 <? qsize (3 :: rest)) = true).
  { apply Z.ltb_lt. rewrite qsize_cons. pose proof (qsize_nonneg rest). lia. }
  rewrite Hlt.
  change (mkPlain (3 :: rest) 0 0) with (mkPlain ([] ++ 3 :: rest) (qsize []) 0).
  rewrite toPlainText_iter_cursor. cbn [isFormatByte Z.eqb orb Pos.eqb].
  rewrite (colorsAt_no_digit rest Hrest). reflexivity.
Qed.

Lemma toPlainText_plainChar c rest :
  plainChar c -> toPlainText (c :: rest) = c :: toPlainText rest.
Proof.
  intros [Hf N3]. unfold toPlainText at 1. unfold toPlainText_run.
  change (length (c :: rest)) with (S (length rest)).
  cbn [toPlainText_loop p_pos p_processed].
  assert (Hlt : (0 <? qsize (c :: rest)) = true).
  { apply Z.ltb_lt. rewrite qsize_cons. pose proof (qsize_nonneg rest). lia. }
  rewrite Hlt.
  change (mkPlain (c :: rest) 0 0) with (mkPlain ([] ++ c :: rest) (qsize []) 0).
  rewrite toPlainText_iter_cursor, Hf.
  destruct (Z.eqb_spec c 3); [contradiction|].
  exact (toPlainText_at (length rest) [c] rest 0 (Nat.le_refl _)).
Qed.

(** *** The claims on the scan *)

(** **** Claim C3 *)

(** C3.  Take a text with a colour marker that is followed by a code unit
    that is no digit, or by nothing.  [toPlainText] returns what it returns
    for the text before the marker, followed by what it returns for the
    text behind it: of the three, the marker alone is gone, and a code unit
    behind it that is no format byte stands first in the rest.  The loop of
    [toHtml] comes to the marker having written what the scan of the text
    before the marker writes, with the variables of that scan; the turn at
    the marker writes one closing element in its place, takes one from
    [depth] and no digit from the text ([len] is 0); and the loop goes on in
    front of the escaped text that followed the marker, which gives what
    [toHtml] returns. *)
Theorem marker_without_digits (d : IrcTextFormatPrivate) (pre rest : QString) :
  asciiDigits ->
  match rest with [] => True | c :: _ => isDigit c = false end ->
  toPlainText (pre ++ 0x03 :: rest) = toPlainText pre ++ toPlainText rest
  ∧ (∀ c rest', rest = c :: rest' -> plainChar c ->
       toPlainText (pre ++ 0x03 :: rest) = toPlainText pre ++ c :: toPlainText rest')
  ∧ ∃ k flag,
      let scanned := toHtml_scan d pre in
      let init := toHtml_init (pre ++ 0x03 :: rest) in
      let before :=
        mkHtml (processed scanned ++ 0x03 :: escape rest) (state scanned)
          (qsize (processed scanned)) (len scanned) (fg scanned) (bg scanned)
          (depth scanned) flag in
      let after :=
        mkHtml (processed scanned ++ closeSpan ++ escape rest) (state scanned)
          (qsize (processed scanned) + qsize closeSpan) 0 (-1) (-1)
          (depth scanned - 1) flag in
      let final := toHtml_loop d (length (escape rest)) after in
      toHtml_loop d k init = before
      ∧ toHtml_loop d (S k) init = after
      ∧ toHtml_scan d (pre ++ 0x03 :: rest) = final
      ∧ ∀ fuel,
          toHtml d fuel (pre ++ 0x03 :: rest)
          = if potentialUrl final && negb (isEmpty (rx_pattern (urlPattern d)))
            then parseLinks fuel (processed final) (urlPattern d)
            else Some (processed final).
Proof.
  intros Ha Hrest.
  assert (H3 : isDigit 3 = false) by (rewrite (Ha 3) by lia; reflexivity).
  assert (Hplain : toPlainText (pre ++ 3 :: rest) = toPlainText pre ++ toPlainText rest).
  { rewrite toPlainText_app by (split; [exact H3|lia]).
    by rewrite toPlainText_marker. }
  split; [exact Hplain|]. split.
  { intros c rest' -> Hc. rewrite Hplain. by rewrite toPlainText_plainChar. }
  assert (Hesc : match escape rest with [] => True | c :: _ => isDigit c = false end).
  { destruct rest as [|c rest]; [exact I|]. unfold escape, replaceChar. cbn [flat_map].
    destruct (Z.eqb_spec c (QLatin1Char "<")); [|exact Hrest].
    change (QLatin1String "&lt;") with [38; 108; 116; 59]. cbn [app].
    rewrite (Ha 38) by lia. reflexivity. }
  assert (E : processed (toHtml_init (pre ++ 3 :: rest))
              = [] ++ escape pre ++ 3 :: escape rest).
  { change (processed (toHtml_init (pre ++ 3 :: rest))) with (escape (pre ++ 3 :: rest)).
    rewrite escape_app, escape_cons by discriminate. reflexivity. }
  destruct (toHtml_loop_frame d (length (escape pre)) (toHtml_init pre)
              (toHtml_init (pre ++ 3 :: rest)) [] (escape pre) (3 :: escape rest))
    as (k & Hk & R1 & R2 & S1 & S2 & S3 & S4 & S5);
    [reflexivity|reflexivity|exact E|reflexivity|by repeat split|split; [exact H3|lia]|lia|].
  change (toHtml_loop d (length (escape pre)) (toHtml_init pre))
    with (toHtml_scan d pre) in *.
  exists k, (potentialUrl (toHtml_loop d k (toHtml_init (pre ++ 3 :: rest)))).
  cbv zeta.
  assert (Hbefore : toHtml_loop d k (toHtml_init (pre ++ 3 :: rest))
                    = mkHtml (processed (toHtml_scan d pre) ++ 3 :: escape rest)
                        (state (toHtml_scan d pre)) (qsize (processed (toHtml_scan d pre)))
                        (len (toHtml_scan d pre)) (fg (toHtml_scan d pre))
                        (bg (toHtml_scan d pre)) (depth (toHtml_scan d pre))
                        (potentialUrl (toHtml_loop d k (toHtml_init (pre ++ 3 :: rest))))).
  { destruct (toHtml_loop d k (toHtml_init (pre ++ 3 :: rest))).
    cbn [processed state pos len fg bg depth potentialUrl] in *. congruence. }
  assert (Hafter : toHtml_loop d (S k) (toHtml_init (pre ++ 3 :: rest))
                   = mkHtml (processed (toHtml_scan d pre) ++ closeSpan ++ escape rest)
                       (state (toHtml_scan d pre))
                       (qsize (processed (toHtml_scan d pre)) + qsize closeSpan) 0 (-1) (-1)
                       (depth (toHtml_scan d pre) - 1)
                       (potentialUrl (toHtml_loop d k (toHtml_init (pre ++ 3 :: rest))))).
  { rewrite toHtml_loop_succ, R1, R2.
    assert (Hlt : (qsize (processed (toHtml_scan d pre))
                   <? qsize (processed (toHtml_scan d pre) ++ 3 :: escape rest)) = true).
    { apply Z.ltb_lt. rewrite qsize_app, qsize_cons.
      pose proof (qsize_nonneg (escape rest)). lia. }
    rewrite Hlt.
    destruct (marker_turn d _ _ _ 0 R1 R2 Hesc) as (_ & -> & _).
    cbn [snd]. rewrite <- S1, <- S5. reflexivity. }
  assert (Hscan : toHtml_scan d (pre ++ 3 :: rest)
                  = toHtml_loop d (length (escape rest))
                      (toHtml_loop d (S k) (toHtml_init (pre ++ 3 :: rest)))).
  { unfold toHtml_scan. cbv zeta.
    assert (Hlen : length (processed (toHtml_init (pre ++ 3 :: rest)))
                   = (S k + (length (escape pre) - k + length (escape rest)))%nat).
    { rewrite E. cbn [app]. rewrite length_app. simpl. lia. }
    rewrite Hlen, toHtml_loop_add, Hafter.
    refine (proj1 (toHtml_loop_enough d _ _
                     (processed (toHtml_scan d pre) ++ closeSpan) (escape rest) _ _ _)).
    - cbn [processed]. by rewrite <- app_assoc.
    - cbn [pos]. by rewrite qsize_app.
    - lia. }
  split; [exact Hbefore|]. split; [exact Hafter|].
  rewrite <- Hafter. split; [exact Hscan|].
  intros fuel. unfold toHtml. cbv zeta. rewrite Hscan. reflexivity.
Qed.

(** **** Claim C6 *)


(** *** Further properties of the two conversions *)

(** X1.  The loop of [toHtml] ends: after as many turns as the escaped text
    has code units the loop condition is false, and more fuel changes
    nothing. *)
Theorem toHtml_scan_terminates (d : IrcTextFormatPrivate) (text : QString) (more : nat) :
  (pos (toHtml_scan d text) <? qsize (processed (toHtml_scan d text))) = false
  ∧ toHtml_loop d (length (processed (toHtml_init text)) + more) (toHtml_init text)
    = toHtml_scan d text.
Proof.
  assert (H : (pos (toHtml_scan d text) <? qsize (processed (toHtml_scan d text))) = false).
  { rewrite toHtml_scan_finished. apply Z.ltb_irrefl. }
  split; [exact H|]. rewrite toHtml_loop_add. fold (toHtml_scan d text).
  by apply toHtml_loop_done.
Qed.

(** X2.  The loop of [toPlainText] ends: after as many turns as the text
    has code units the loop condition is false, and more fuel changes
    nothing. *)
Theorem toPlainText_terminates (text : QString) (more : nat) :
  (p_pos (toPlainText_run text) <? qsize (p_processed (toPlainText_run text))) = false
  ∧ p_processed (toPlainText_loop (length text + more) (mkPlain text 0 0))
    = toPlainText text.
Proof.
  assert (H : (p_pos (toPlainText_run text) <? qsize (p_processed (toPlainText_run text)))
              = false).
  { rewrite toPlainText_finished. apply Z.ltb_irrefl. }
  split; [exact H|]. rewrite toPlainText_loop_add. fold (toPlainText_run text).
  rewrite toPlainText_loop_done by exact H. reflexivity.
Qed.

(** X3.  [toPlainText] never makes a text longer, and the texts it returns
    unchanged are exactly those without format byte and colour marker. *)
Theorem toPlainText_fixpoint (x : QString) :
  (length (toPlainText x) <= length x)%nat
  ∧ (toPlainText x = x <-> Forall plainChar x).
Proof.
  destruct (toPlainText_run_spec x) as (_ & _ & H). split; [|split].
  - apply sublist_length. by apply Stripped_sublist.
  - intros E. rewrite <- E. exact (Stripped_plainChar _ _ H).
  - intros Hp. exact (Stripped_of_plain _ _ Hp H).
Qed.

Opaque closeSpan.

(** One turn of [toHtml] and one turn of [toPlainText] at the same code
    unit read the same code units and keep the same ones. *)
Lemma Turn_plain d st out c rest r st' out2 l :
  Turn d st out c rest r st' ->
  ∃ chunks rest' l',
    processed st' = (out ++ render chunks) ++ rest'
    ∧ pos st' = qsize (out ++ render chunks)
    ∧ toPlainText_iter (mkPlain (out2 ++ c :: rest) (qsize out2) l)
      = mkPlain ((out2 ++ literals chunks) ++ rest') (qsize (out2 ++ literals chunks)) l'
    ∧ (length rest' <= length rest)%nat
    ∧ (chunks = [Literal c] ∧ r = [] ∨ chunks = [Markup r]).
Proof.
  intros T. rewrite toPlainText_iter_cursor.
  destruct T as [ flag style class Ht Hl | flag style class Ht Hl | colors -> -> Hok
                | -> Hok | -> Hd | -> Hd | Hp | Hn N3 N15 Hp ].
  - rewrite (toggleOf_isFormatByte _ _ Ht).
    exists [Markup (openSpan d style class)], rest, l.
    cbn [processed pos render literals omap flat_map]. simpl.
    rewrite ?app_nil_r, <- ?app_assoc. auto 10.
  - rewrite (toggleOf_isFormatByte _ _ Ht).
    exists [Markup closeSpan], rest, l.
    cbn [processed pos render literals omap flat_map]. simpl.
    rewrite ?app_nil_r, <- ?app_assoc. auto 10.
  - exists [Markup (colorSpan d (c_fg (colorsAt rest)) (c_bg (colorsAt rest)))],
      (drop (Z.to_nat (c_len (colorsAt rest))) rest), (c_len (colorsAt rest)).
    cbn [processed pos render literals omap flat_map]. simpl.
    rewrite ?app_nil_r, <- ?app_assoc, length_drop.
    repeat split; auto; lia.
  - exists [Markup closeSpan], rest, 0. rewrite (colorsAt_not_ok _ Hok).
    cbn [processed pos render literals omap flat_map]. simpl.
    rewrite ?app_nil_r, <- ?app_assoc. auto 10.
  - exists [Markup (repeated closeSpan (depth st))], rest, l.
    cbn [processed pos render literals omap flat_map]. simpl.
    rewrite ?app_nil_r, <- ?app_assoc. auto 10.
  - exists [Markup []], rest, l.
    cbn [processed pos render literals omap flat_map]. simpl.
    rewrite ?app_nil_r, <- ?app_assoc. auto 10.
  - destruct (isUrlPunct_plainChar _ Hp) as [Hf N3].
    rewrite Hf. destruct (Z.eqb_spec c 3); [contradiction|].
    exists [Literal c], rest, l. simpl. rewrite <- ?app_assoc. auto 10.
  - rewrite (toggleOf_None_isFormatByte _ Hn N15).
    destruct (Z.eqb_spec c 3); [contradiction|].
    exists [Literal c], rest, l. simpl. rewrite <- ?app_assoc. auto 10.
Qed.

Transparent closeSpan.

Lemma loops_agree d n :
  ∀ st out rest out2 l,
    processed st = out ++ rest -> pos st = qsize out -> (length rest <= n)%nat ->
    ∃ chunks,
      processed (toHtml_loop d n st) = out ++ render chunks
      ∧ p_processed (toPlainText_loop n (mkPlain (out2 ++ rest) (qsize out2) l))
        = out2 ++ literals chunks
      ∧ markups chunks `sublist_of` toHtml_replacements d n st.
Proof.
  induction n as [|n IH]; intros st out rest out2 l Hp Hpos Hn.
  - destruct rest; [|simpl in Hn; lia]. exists []. simpl.
    rewrite Hp, !app_nil_r. repeat split; constructor.
  - destruct rest as [|c rest].
    + exists []. simpl. rewrite Hp, Hpos, !app_nil_r, !Z.ltb_irrefl, Hp, !app_nil_r.
      repeat split; constructor.
    + simpl in Hn.
      cbn [toHtml_loop toHtml_replacements toPlainText_loop p_pos p_processed].
      assert (Hlt : (pos st <? qsize (processed st)) = true).
      { apply Z.ltb_lt. rewrite Hp, Hpos, qsize_app, qsize_cons.
        pose proof (qsize_nonneg rest). lia. }
      assert (Hlt2 : (qsize out2 <? qsize (out2 ++ c :: rest)) = true).
      { apply Z.ltb_lt. rewrite qsize_app, qsize_cons.
        pose proof (qsize_nonneg rest). lia. }
      rewrite Hlt, Hlt2.
      pose proof (toHtml_iter_turn d st out c rest Hp Hpos) as T.
      destruct (toHtml_iter d st) as [r st']. cbn [fst snd] in *.
      destruct (Turn_plain _ _ _ _ _ _ _ out2 l T)
        as (chunk & rest' & l' & Hp' & Hpos' & Hplain & Hlen & Hchunk).
      rewrite Hplain.
      destruct (IH st' _ rest' (out2 ++ literals chunk) l' Hp' Hpos')
        as (chunks & E1 & E2 & M); [lia|].
      exists (chunk ++ chunks).
      rewrite render_app, literals_app, markups_app, !app_assoc.
      split; [exact E1|]. split; [exact E2|].
      destruct Hchunk as [[-> ->]| ->]; simpl;
        [by apply sublist_cons|by apply sublist_skip].
Qed.

(** X4.  The two conversions agree on what is text: what the loop of
    [toHtml] produces is the plain text of the escaped input, as
    [toPlainText] returns it, with replacements of the loop written in
    between. *)
Theorem toHtml_text_is_plainText (d : IrcTextFormatPrivate) (text : QString) :
  ∃ chunks,
    processed (toHtml_scan d text) = render chunks
    ∧ literals chunks = toPlainText (processed (toHtml_init text))
    ∧ (markups chunks
         `sublist_of` toHtml_replacements d (length (processed (toHtml_init text)))
                        (toHtml_init text)).
Proof.
  destruct (loops_agree d (length (processed (toHtml_init text))) (toHtml_init text)
              [] (processed (toHtml_init text)) [] 0)
    as (chunks & E1 & E2 & M); [reflexivity|reflexivity|lia|].
  exists chunks. split; [exact E1|]. split; [|exact M].
  exact (eq_sym E2).
Qed.

Lemma toHtml_loop_plain d n :
  ∀ st out rest,
    processed st = out ++ rest -> pos st = qsize out -> Forall plainChar rest ->
    processed (toHtml_loop d n st) = out ++ rest
    ∧ depth (toHtml_loop d n st) = depth st
    ∧ state (toHtml_loop d n st) = state st.
Proof.
  induction n as [|n IH]; intros st out rest Hp Hpos Hall; [simpl; auto|].
  cbn [toHtml_loop]. destruct rest as [|c rest].
  - rewrite Hp, Hpos, app_nil_r, Z.ltb_irrefl, Hp, app_nil_r. auto.
  - assert (Hlt : (pos st <? qsize (processed st)) = true).
    { apply Z.ltb_lt. rewrite Hp, Hpos, qsize_app, qsize_cons.
      pose proof (qsize_nonneg rest). lia. }
    rewrite Hlt. inversion Hall as [|? ? [Hf N3] Hall']; subst.
    pose proof (toHtml_iter_turn d st out c rest Hp Hpos) as T.
    destruct (toHtml_iter d st) as [r st']. cbn [fst snd] in *.
    destruct T as [ flag style class Ht Hl | flag style class Ht Hl | colors E1 E2 Hok
                  | E1 Hok | E1 Hd | E1 Hd | Hpu | Hn _ N15 Hpu ];
      try (rewrite (toggleOf_isFormatByte _ _ Ht) in Hf; discriminate);
      try contradiction;
      try (subst c; discriminate).
    + match goal with
      | |- context [toHtml_loop d n ?s] =>
          destruct (IH s (out ++ [c]) rest eq_refl eq_refl Hall') as (I1 & I2 & I3)
      end.
      rewrite I1, I2, I3, <- app_assoc. auto.
    + match goal with
      | |- context [toHtml_loop d n ?s] =>
          destruct (IH s (out ++ [c]) rest eq_refl eq_refl Hall') as (I1 & I2 & I3)
      end.
      rewrite I1, I2, I3, <- app_assoc. auto.
Qed.

(** X5.  A text without format byte and colour marker goes through the
    loop of [toHtml] as it is, but for the escaped [<]: no element is
    opened, and with an empty link pattern [toHtml] returns the escaped
    text. *)
Theorem toHtml_unformatted (d : IrcTextFormatPrivate) (text : QString) :
  Forall plainChar text ->
  processed (toHtml_scan d text) = replaceChar text (QLatin1Char "<") (QLatin1String "&lt;")
  ∧ depth (toHtml_scan d text) = 0
  ∧ (∀ fuel, isEmpty (rx_pattern (urlPattern d)) = true ->
             toHtml d fuel text
             = Some (replaceChar text (QLatin1Char "<") (QLatin1String "&lt;"))).
Proof.
  intros Hall.
  assert (Hesc : Forall plainChar (processed (toHtml_init text))).
  { simpl. unfold replaceChar. induction Hall as [|c text Hc _ IH]; simpl; [constructor|].
    apply Forall_app. split; [|exact IH].
    destruct (c =? QLatin1Char "<"); [|by constructor].
    repeat constructor; discriminate. }
  destruct (toHtml_loop_plain d (length (processed (toHtml_init text))) (toHtml_init text)
              [] _ eq_refl eq_refl Hesc) as (E1 & E2 & _).
  fold (toHtml_scan d text) in E1, E2.
  split; [exact E1|]. split; [exact E2|].
  intros fuel Hempty. unfold toHtml. rewrite Hempty, andb_false_r, E1. reflexivity.
Qed.

(** *** Further properties of parseColors *)

Lemma parseColors_at pre rest : parseColors (pre ++ rest) (qsize pre) = colorsAt rest.
Proof.
  destruct pre as [|c pre _] using rev_ind.
  - change (qsize []) with 0. unfold parseColors, colorsAt, indexIn, rx_colors. simpl.
    destruct rest as [|x rest]; [reflexivity|]. simpl.
    destruct (rx_colors_here (x :: rest)) as [caps|] eqn:Hhere.
    + simpl. pose proof (rx_colors_length_pos _ _ Hhere).
      destruct (Z.ltb_spec 0 (rx_colors_length caps)); [reflexivity|lia].
    + change (0 + 1) with 1.
      destruct (rx_colors_search rest 1) as [m|] eqn:Hs; [|reflexivity].
      pose proof (rx_colors_search_idx _ _ _ Hs) as [Hle _].
      destruct (Z.eqb_spec (m_idx m) 0); [lia|reflexivity].
  - rewrite <- app_assoc, qsize_app. apply parseColors_cursor.
Qed.

Lemma toInt_two_digits g :
  (length g <= 2)%nat ->
  0 <= toInt_value g <= 99
  ∧ match toInt g with Some v => 0 <= v <= 99 | None => True end.
Proof.
  intros Hl. unfold toInt_value.
  destruct g as [|a [|b [|? ?]]]; [simpl; lia| | |simpl in Hl; lia];
    unfold toInt, toInt_from, digitValue;
    repeat (match goal with
            | |- context [if ?b then _ else _] => destruct b eqn:?
            end); simpl; lia.
Qed.

Lemma rx_colors_here_caps s caps :
  rx_colors_here s = Some caps ->
  (1 <= length (fst caps) <= 2)%nat ∧ (length (snd caps) <= 2)%nat.
Proof.
  unfold rx_colors_here. destruct (isEmpty (rx_digits s)) eqn:Hne; [discriminate|].
  destruct (rx_digits_group s Hne) as [_ Hfg].
  destruct (drop _ _) as [|c s']; [intros [= <-]; simpl; lia|].
  destruct (c =? 44); intros [= <-]; simpl; [|lia].
  destruct (rx_digits_spec s') as (_ & _ & _ & Hl). lia.
Qed.

(** X6.  [parseColors] at a position of a text succeeds exactly if a digit
    stands there.  It then takes between one and five code units of the
    text, the foreground is a number from 0 to 99, and the background is
    -1, for none, or a number from 0 to 99.  When it fails it takes nothing
    and both colours are -1. *)
Theorem parseColors_bounds (pre rest : QString) :
  let colors := parseColors (pre ++ rest) (qsize pre) in
  (c_ok colors = true <-> ∃ x rest', rest = x :: rest' ∧ isDigit x = true)
  ∧ (c_ok colors = true ->
     1 <= c_len colors <= 5 ∧ c_len colors <= qsize rest
     ∧ 0 <= c_fg colors <= 99
     ∧ (c_bg colors = -1 ∨ 0 <= c_bg colors <= 99))
  ∧ (c_ok colors = false -> c_len colors = 0 ∧ c_fg colors = -1 ∧ c_bg colors = -1).
Proof.
  cbv zeta. rewrite parseColors_at. split; [split|split].
  - intros Hok. destruct rest as [|x rest'].
    + rewrite colorsAt_no_digit in Hok by exact I. discriminate.
    + destruct (isDigit x) eqn:Hx; [eauto|].
      rewrite colorsAt_no_digit in Hok by exact Hx. discriminate.
  - intros (x & rest' & -> & Hx). by apply colorsAt_digit.
  - unfold colorsAt. destruct (rx_colors_here rest) as [caps|] eqn:Hhere; [|discriminate].
    intros _. simpl.
    destruct (rx_colors_here_caps _ _ Hhere) as [H1 H2].
    destruct (rx_colors_here_spec _ _ Hhere) as (g & _ & Hg & Hrest).
    destruct (toInt_two_digits (fst caps)) as [Hfg _]; [lia|].
    pose proof (toInt_two_digits (snd caps) H2) as [_ Hbg].
    split; [|split; [|split; [exact Hfg|]]].
    + unfold rx_colors_length, qsize. destruct (isEmpty (snd caps)); lia.
    + pose proof (f_equal qsize Hrest) as Hq. rewrite qsize_app in Hq.
      pose proof (qsize_nonneg (drop (Z.to_nat (rx_colors_length caps)) rest)). lia.
    + destruct (toInt (snd caps)); [right; exact Hbg|left; reflexivity].
  - intros Hok. rewrite (colorsAt_not_ok _ Hok). auto.
Qed.

(** *** Further properties of the links *)

Lemma land_15_range c : 0 <= Z.land c 15 <= 15.
Proof.
  assert (E : Z.land c 15 = c mod 16) by (exact (Z.land_ones c 4 ltac:(lia))).
  rewrite E. pose proof (Z.mod_pos_bound c 16). lia.
Qed.

Lemma high_nibble_range c : 0 <= Z.shiftr (Z.land c 240) 4 <= 15.
Proof.
  rewrite Z.shiftr_land. change (Z.shiftr 240 4) with 15. apply land_15_range.
Qed.

Lemma toHexUpper_kept v : 0 <= v <= 15 -> kept (toHexUpper v) = true.
Proof.
  intros H.
  assert (Hv : v = 0 ∨ v = 1 ∨ v = 2 ∨ v = 3 ∨ v = 4 ∨ v = 5 ∨ v = 6 ∨ v = 7 ∨ v = 8
               ∨ v = 9 ∨ v = 10 ∨ v = 11 ∨ v = 12 ∨ v = 13 ∨ v = 14 ∨ v = 15) by lia.
  repeat (destruct Hv as [->|Hv]; [reflexivity|]). subst v. reflexivity.
Qed.

Lemma percentEncodeByte_kept c :
  Forall (fun b => kept b = true) (percentEncodeByte exclude c).
Proof.
  unfold percentEncodeByte. fold (kept c). destruct (kept c) eqn:E.
  - by repeat constructor.
  - constructor; [reflexivity|].
    constructor; [apply toHexUpper_kept, high_nibble_range|].
    constructor; [apply toHexUpper_kept, land_15_range|constructor].
Qed.

Lemma percentEncode_kept bytes :
  Forall (fun b => kept b = true) (percentEncode exclude bytes).
Proof.
  unfold percentEncode. induction bytes as [|c bytes IH]; simpl; [constructor|].
  apply Forall_app. split; [apply percentEncodeByte_kept|exact IH].
Qed.

Lemma percentEncode_of_kept bytes :
  Forall (fun b => kept b = true) bytes -> percentEncode exclude bytes = bytes.
Proof.
  unfold percentEncode. induction 1 as [|c bytes Hc _ IH]; simpl; [reflexivity|].
  unfold percentEncodeByte at 1. fold (kept c). rewrite Hc, IH. reflexivity.
Qed.

(** X7.  Percent-encoding with the exclusions of [generateLink] writes only
    unreserved and excluded bytes, each input byte as one byte or as three.
    Since [%] is excluded, encoding an encoded text changes nothing: an
    address that is percent-encoded already is not encoded again. *)
Theorem percentEncode_idempotent (bytes : list Z) :
  percentEncode exclude (percentEncode exclude bytes) = percentEncode exclude bytes
  ∧ Forall (fun b => kept b = true) (percentEncode exclude bytes)
  ∧ (length bytes <= length (percentEncode exclude bytes) <= 3 * length bytes)%nat.
Proof.
  split; [apply percentEncode_of_kept, percentEncode_kept|].
  split; [apply percentEncode_kept|].
  unfold percentEncode. induction bytes as [|c bytes IH]; simpl; [lia|].
  rewrite length_app. unfold percentEncodeByte at 1 3.
  destruct (unreserved c || existsb (Z.eqb c) exclude); simpl; lia.
Qed.

Lemma kept_printable b :
  kept b = true ->
  33 <= b <= 126 ∧ b ≠ 39 ∧ b ≠ 34 ∧ b ≠ 60 ∧ b ≠ 62.
Proof.
  unfold kept, unreserved, exclude. intros H.
  change (QLatin1String ":/?@%#=+&,") with [58; 47; 63; 64; 37; 35; 61; 43; 38; 44] in H.
  simpl in H. lia.
Qed.

(** X8.  The address that [parseLinks] writes into the [href] of an anchor,
    the scheme followed by the percent-encoded match, consists of printable
    ASCII characters other than the quotes (39 and 34) and the angle
    brackets (60 and 62): nothing in a match can end the attribute or the
    element. *)
Theorem parseLinks_address_safe (p : QString) (m : RxMatch) :
  let href := mid p (m_idx m) (m_len m) in
  let address := linkProtocol m ++ toPercentEncoding href exclude in
  fst (parseLinks_iter p m)
  = qreplace p (m_idx m) (m_len m)
      (QLatin1String "<a href='" ++ address ++ QLatin1String "'>" ++ href
         ++ QLatin1String "</a>")
  ∧ Forall (fun b => 33 <= b <= 126 ∧ b ≠ 39 ∧ b ≠ 34 ∧ b ≠ 60 ∧ b ≠ 62) address.
Proof.
  intros href address. split.
  - unfold parseLinks_iter. fold href. rewrite generateLink_anchor.
    unfold address. rewrite <- !app_assoc. reflexivity.
  - assert (Hk : Forall (fun b => kept b = true) address).
    { unfold address. apply Forall_app. split; [|apply percentEncode_kept].
      unfold linkProtocol.
      repeat (match goal with |- context [if ?b then _ else _] => destruct b end);
        repeat constructor. }
    eapply Forall_impl; [exact Hk|]. intros b. apply kept_printable.
Qed.

Lemma qsize_qreplace p idx n after :
  0 <= idx -> 0 <= n -> idx + n <= qsize p ->
  qsize (qreplace p idx n after) = qsize p - n + qsize after.
Proof.
  intros Hi Hn Hle. unfold qreplace.
  destruct (Z.ltb_spec idx 0); [lia|].
  destruct (Z.ltb_spec (qsize p) idx); [lia|]. simpl.
  rewrite Z.min_l by lia. unfold qsize in *.
  rewrite !length_app, length_take, length_drop. lia.
Qed.

Lemma parseLinks_loop_terminates rx :
  findsNonEmpty rx ->
  ∀ fuel processed pos,
    0 <= pos -> (Z.to_nat (qsize processed - pos) < fuel)%nat ->
    ∃ result, parseLinks_loop fuel rx processed pos = Some result.
Proof.
  intros Hrx. induction fuel as [|fuel IH]; intros processed pos Hpos Hfuel; [lia|].
  simpl. destruct (indexIn rx processed pos) as [m|] eqn:Hm; [|eauto].
  destruct (Hrx _ _ _ Hm) as (H1 & H2 & H3).
  unfold parseLinks_iter.
  pose proof (qsize_nonneg (generateLink (linkProtocol m)
                              (mid processed (m_idx m) (m_len m)))).
  apply IH; [lia|]. rewrite qsize_qreplace by lia. lia.
Qed.

(** X9.  With a link pattern whose matches are never empty, the loop of
    [parseLinks] ends, whatever the text: one turn more than the text has
    code units is fuel enough, and so [toHtml] returns. *)
Theorem parseLinks_terminates (d : IrcTextFormatPrivate) (text : QString) (more : nat) :
  findsNonEmpty (urlPattern d) ->
  (∃ result,
     parseLinks (S (length text) + more) text (urlPattern d) = Some result)
  ∧ (∃ html,
       toHtml d (S (length (processed (toHtml_scan d text))) + more) text = Some html).
Proof.
  intros Hrx.
  assert (H : ∀ message,
              ∃ result, parseLinks (S (length message) + more) message (urlPattern d)
                        = Some result).
  { intros message. apply parseLinks_loop_terminates; [exact Hrx|lia|].
    unfold qsize. lia. }
  split; [apply H|]. unfold toHtml.
  destruct (potentialUrl _ && negb _); [apply H|eauto].
Qed.

Lemma parseLinks_loop_diverges rx :
  findsAlways rx ->
  ∀ fuel processed pos,
    0 <= pos <= qsize processed -> parseLinks_loop fuel rx processed pos = None.
Proof.
  intros Hrx. induction fuel as [|fuel IH]; intros processed pos Hpos; [reflexivity|].
  simpl. destruct (Hrx processed pos Hpos) as (m & -> & H1 & H2 & H3).
  unfold parseLinks_iter. apply IH.
  rewrite qsize_qreplace by lia.
  pose proof (qsize_nonneg (generateLink (linkProtocol m)
                              (mid processed (m_idx m) (m_len m)))). lia.
Qed.

(** X10.  With a link pattern that finds a match from every offset, as a
    pattern does that matches the empty text, the loop of [parseLinks]
    never ends: every turn inserts an anchor and searches on behind it, in
    a text that has grown by as much.  [toHtml] then does not return for
    any text in which the potential-URL flag gets set. *)
Theorem parseLinks_diverges (d : IrcTextFormatPrivate) (text : QString) :
  findsAlways (urlPattern d) ->
  (∀ fuel, parseLinks fuel text (urlPattern d) = None)
  ∧ (potentialUrl (toHtml_scan d text) = true ->
     isEmpty (rx_pattern (urlPattern d)) = false ->
     ∀ fuel, toHtml d fuel text = None).
Proof.
  intros Hrx.
  assert (H : ∀ message fuel, parseLinks fuel message (urlPattern d) = None).
  { intros message fuel. apply parseLinks_loop_diverges; [exact Hrx|].
    pose proof (qsize_nonneg message). lia. }
  split; [apply H|]. intros Hu Hp fuel. unfold toHtml. rewrite Hu, Hp. apply H.
Qed.

(** *** The claims on what [toHtml] returns *)

Lemma untag_written s : untag (written s) = s.
Proof.
  unfold untag, written. rewrite <- list_fmap_compose. apply list_fmap_id.
Qed.

Lemma untag_app a b : untag (a ++ b) = untag a ++ untag b.
Proof. apply fmap_app. Qed.

Lemma untag_tagged chunks : untag (tagged chunks) = render chunks.
Proof.
  unfold tagged, render. induction chunks as [|[c|r] chunks IH]; simpl; [reflexivity| |].
  - by rewrite IH.
  - by rewrite untag_app, untag_written, IH.
Qed.

Lemma untag_mid t position n : untag (midTagged t position n) = mid (untag t) position n.
Proof. unfold untag, midTagged, mid. by rewrite fmap_take, fmap_drop. Qed.

Lemma untag_replace t position n after :
  untag (replaceTagged t position n after) = qreplace (untag t) position n (untag after).
Proof.
  unfold replaceTagged, qreplace, qsize, untag. rewrite length_fmap.
  destruct ((position <? 0) || (Z.of_nat (length t) <? position)); [reflexivity|].
  cbv zeta. by rewrite !fmap_app, fmap_take, fmap_drop.
Qed.

(** The literal code units of a tagged string. *)
Lemma tagged_origin chunks (P : QChar -> Prop) :
  Forall P (literals chunks) -> Forall (fun x => fst x = true -> P (snd x)) (tagged chunks).
Proof.
  unfold tagged, literals. induction chunks as [|[c|r] chunks IH]; simpl; intros H.
  - constructor.
  - inversion H; subst. constructor; auto.
  - apply Forall_app. split; [|auto].
    unfold written. apply Forall_forall. intros x Hx.
    apply list_elem_of_fmap in Hx as (y & -> & _). discriminate.
Qed.

(** Anchors bring no code unit of the text with them, and take none away
    from where it came. *)
Lemma Linked_origin (P : QChar -> Prop) t t' :
  Linked t t' ->
  Forall (fun x => fst x = true -> P (snd x)) t ->
  Forall (fun x => fst x = true -> P (snd x)) t'.
Proof.
  induction 1 as [|t position n address t' Haddr HL IH]; intros Ht; [exact Ht|].
  apply IH. unfold replaceTagged.
  destruct ((position <? 0) || (Z.of_nat (length t) <? position)); [exact Ht|].
  cbv zeta. repeat (apply Forall_app; split).
  - by apply Forall_take.
  - unfold written. apply Forall_forall. intros x Hx.
    apply list_elem_of_fmap in Hx as (y & -> & _). discriminate.
  - unfold midTagged. by apply Forall_take, Forall_drop.
  - unfold written. apply Forall_forall. intros x Hx.
    apply list_elem_of_fmap in Hx as (y & -> & _). discriminate.
  - by apply Forall_drop.
Qed.

(** The link pass puts anchors around parts of the string it is given. *)
Lemma parseLinks_loop_linked rx fuel :
  ∀ p pos t html,
    untag t = p -> parseLinks_loop fuel rx p pos = Some html ->
    ∃ t', Linked t t' ∧ untag t' = html.
Proof.
  induction fuel as [|fuel IH]; intros p pos t html Ht H; [discriminate|].
  simpl in H. destruct (indexIn rx p pos) as [m|].
  2:{ injection H as <-. exists t. split; [constructor|exact Ht]. }
  unfold parseLinks_iter in H. rewrite generateLink_anchor in H.
  set (address := linkProtocol m ++ toPercentEncoding (mid p (m_idx m) (m_len m)) exclude).
  set (t1 := replaceTagged t (m_idx m) (m_len m)
               (written (QLatin1String "<a href='" ++ address ++ QLatin1String "'>")
                ++ midTagged t (m_idx m) (m_len m) ++ written (QLatin1String "</a>"))).
  assert (Hu1 : untag t1
                = qreplace p (m_idx m) (m_len m)
                    (QLatin1String "<a href='" ++ linkProtocol m
                     ++ toPercentEncoding (mid p (m_idx m) (m_len m)) exclude
                     ++ QLatin1String "'>" ++ mid p (m_idx m) (m_len m)
                     ++ QLatin1String "</a>")).
  { unfold t1. rewrite untag_replace, !untag_app, !untag_written, untag_mid, Ht.
    unfold address. rewrite <- !app_assoc. reflexivity. }
  destruct (IH _ _ t1 html Hu1 H) as (t' & HL & Hu).
  exists t'. split; [|exact Hu].
  apply (Linked_anchor t (m_idx m) (m_len m) address); [|exact HL].
  unfold address. rewrite elem_of_app.
  intros [Hin|Hin]; [exact (linkProtocol_lt_free _ Hin)|exact (percentEncode_lt_free _ Hin)].
Qed.

(** **** Claim C4 *)

(** C4.  Before the scan every [<] of the input becomes [&lt;] and every
    other code unit is kept as it is, so the escaped text holds no [<].
    What the scan produces is made of code units taken over from the
    escaped text, which together are the escaped text less its format
    bytes, colour markers and colours, and of replacements that the scan has
    written between them.  What [toHtml] returns is that string, with
    anchors put around parts of it when the link pass runs: an anchor is
    written by [toHtml], the address in it holds no [<], and the part it
    stands around is left as it is.  So no code unit of the result that
    comes from the text is [<]. *)
Theorem toHtml_escapes_lt (d : IrcTextFormatPrivate) (text : QString) :
  processed (toHtml_init text) = escape text
  ∧ (QLatin1Char "<" ∉ escape text)
  ∧ (∀ pre c post, text = pre ++ c :: post ->
       escape text
       = escape pre ++ (if c =? QLatin1Char "<" then QLatin1String "&lt;" else [c])
           ++ escape post)
  ∧ ∃ chunks,
      processed (toHtml_scan d text) = render chunks
      ∧ literals chunks = toPlainText (escape text)
      ∧ (QLatin1Char "<" ∉ literals chunks)
      ∧ (markups chunks
           `sublist_of` toHtml_replacements d (length (escape text)) (toHtml_init text))
      ∧ (∀ fuel,
           potentialUrl (toHtml_scan d text) && negb (isEmpty (rx_pattern (urlPattern d)))
           = false ->
           toHtml d fuel text = Some (render chunks))
      ∧ (∀ fuel html,
           toHtml d fuel text = Some html ->
           ∃ t, Linked (tagged chunks) t
                ∧ untag t = html
                ∧ Forall (fun x => fst x = true -> snd x ≠ QLatin1Char "<") t).
Proof.
  split; [reflexivity|]. split; [apply replaceChar_lt_free|]. split.
  { intros pre c post ->. unfold escape, replaceChar. rewrite flat_map_app. reflexivity. }
  destruct (loops_agree d (length (escape text)) (toHtml_init text)
              [] (escape text) [] 0)
    as (chunks & E1 & E2 & M); [reflexivity|reflexivity|lia|].
  change (toHtml_loop d (length (escape text)) (toHtml_init text))
    with (toHtml_scan d text) in E1.
  change (p_processed (toPlainText_loop (length (escape text))
                         (mkPlain ([] ++ escape text) (qsize []) 0)))
    with (toPlainText (escape text)) in E2.
  simpl in E1, E2.
  assert (Hlt : QLatin1Char "<" ∉ literals chunks).
  { rewrite <- E2. intros Hin. apply (replaceChar_lt_free text).
    destruct (toPlainText_run_spec (escape text)) as (_ & _ & Hs).
    exact (elem_of_sublist _ _ _ Hin (Stripped_sublist _ _ Hs)). }
  exists chunks. split; [exact E1|]. split; [by symmetry|]. split; [exact Hlt|].
  split; [exact M|]. split.
  { intros fuel H. unfold toHtml. cbv zeta. rewrite H, E1. reflexivity. }
  intros fuel html H.
  assert (Horigin : Forall (fun x => fst x = true -> snd x ≠ QLatin1Char "<")
                      (tagged chunks)).
  { apply (tagged_origin chunks (fun c => c ≠ QLatin1Char "<")).
    apply Forall_forall. intros x Hx ->. exact (Hlt Hx). }
  unfold toHtml in H. cbv zeta in H.
  destruct (potentialUrl (toHtml_scan d text) && negb (isEmpty (rx_pattern (urlPattern d)))).
  - destruct (parseLinks_loop_linked _ _ _ _ (tagged chunks) _
                (eq_trans (untag_tagged chunks) (eq_sym E1)) H) as (t & HL & Hu).
    exists t. split; [exact HL|]. split; [exact Hu|].
    exact (Linked_origin (fun c => c ≠ QLatin1Char "<") _ _ HL Horigin).
  - injection H as <-. exists (tagged chunks).
    split; [constructor|]. split; [by rewrite untag_tagged|exact Horigin].
Qed.

(** **** Claim C5 *)

Lemma contains_elem_of s c : contains s c = true <-> c ∈ s.
Proof.
  unfold contains. induction s as [|x s IH]; simpl.
  - split; [discriminate|]. intros H. by apply elem_of_nil in H.
  - rewrite elem_of_cons, <- IH.
    destruct (Z.eqb_spec c x) as [E|N]; simpl.
    + split; [intros _; left; exact E|reflexivity].
    + split; [intros H; right; exact H|]. intros [E|H]; [contradiction|exact H].
Qed.

Lemma startsWith_CaseInsensitive_spec prefix :
  ∀ s, startsWith_CaseInsensitive s prefix = true
       <-> ∃ head tail, s = head ++ tail
                        ∧ map (foldCase 0) head = map (foldCase 0) prefix.
Proof.
  induction prefix as [|x prefix IH]; intros s; simpl.
  - split; [intros _; by exists [], s|reflexivity].
  - destruct s as [|c s].
    + split; [discriminate|]. intros (head & tail & E & Hm).
      symmetry in E. apply app_eq_nil in E as [-> _]. discriminate.
    + rewrite andb_true_iff, IH, Z.eqb_eq. split.
      * intros (Hc & head & tail & -> & Hm). exists (c :: head), tail.
        simpl. by rewrite Hc, Hm.
      * intros (head & tail & E & Hm). destruct head as [|h head]; [discriminate|].
        simpl in E, Hm. injection E as -> ->. injection Hm as Hc Hm.
        split; [exact Hc|]. by exists head, tail.
Qed.

(** The scheme that [parseLinks] prepends is the one decided on capture 1. *)
Lemma linkProtocol_scheme m : SchemeOf (m_cap2 m) (m_cap1 m) (linkProtocol m).
Proof.
  unfold linkProtocol. destruct (m_cap2 m) as [|x cap2] eqn:E2; cbn [isEmpty].
  2:{ by apply Scheme_own. }
  destruct (contains (m_cap1 m) (QLatin1Char "@")) eqn:E1.
  { apply Scheme_mailto; [reflexivity|]. by apply contains_elem_of. }
  assert (N : QLatin1Char "@" ∉ m_cap1 m).
  { intros Hin. apply contains_elem_of in Hin. congruence. }
  destruct (startsWith_CaseInsensitive (m_cap1 m) (QLatin1String "ftp.")) eqn:E3.
  - apply Scheme_ftp; [reflexivity|exact N|].
    by apply startsWith_CaseInsensitive_spec.
  - apply Scheme_http; [reflexivity|exact N|]. intros Hf.
    apply startsWith_CaseInsensitive_spec in Hf. congruence.
Qed.

Lemma parseLinks_loop_links rx (decideOn : QString -> RxMatch -> QString) fuel :
  (∀ str offset m, indexIn rx str offset = Some m ->
                   decideOn (mid str (m_idx m) (m_len m)) m = m_cap1 m) ->
  ∀ p pos result,
    parseLinks_loop fuel rx p pos = Some result -> Links rx decideOn p pos result.
Proof.
  intros Hd. induction fuel as [|fuel IH]; intros p pos result H; [discriminate|].
  simpl in H. destruct (indexIn rx p pos) as [m|] eqn:Hm.
  2:{ injection H as <-. by apply Links_done. }
  unfold parseLinks_iter in H. rewrite generateLink_anchor in H.
  apply (Links_match rx decideOn p pos m (linkProtocol m) result Hm).
  - rewrite (Hd _ _ _ Hm). apply linkProtocol_scheme.
  - apply IH. exact H.
Qed.

(** The scheme of a match is determined by its captures and by the text it
    is decided on, and so is the text that [Links] arrives at. *)
Lemma SchemeOf_det cap2 decidedOn s1 s2 :
  SchemeOf cap2 decidedOn s1 -> SchemeOf cap2 decidedOn s2 -> s1 = s2.
Proof.
  intros H1 H2.
  destruct H1 as [N1|E1 A1|E1 A1 F1|E1 A1 F1];
    destruct H2 as [N2|E2 A2|E2 A2 F2|E2 A2 F2];
    try reflexivity; try contradiction.
Qed.

Lemma Links_det rx decideOn p pos r1 r2 :
  Links rx decideOn p pos r1 -> Links rx decideOn p pos r2 -> r1 = r2.
Proof.
  intros H1. revert r2.
  induction H1 as [p pos Hn|p pos m scheme result Hm Hs Hl IH]; intros r2 H2.
  - destruct H2 as [p pos _|p pos m' scheme' result' Hm' _ _]; [reflexivity|].
    congruence.
  - destruct H2 as [p pos Hn|p pos m' scheme' result' Hm' Hs' Hl']; [congruence|].
    assert (m' = m) as -> by congruence.
    rewrite (SchemeOf_det _ _ _ _ Hs' Hs) in Hl'. exact (IH _ Hl').
Qed.

(** Only what is decided on at the matches of the pattern counts. *)
Lemma Links_ext rx (f g : QString -> RxMatch -> QString) :
  (∀ str offset m, indexIn rx str offset = Some m ->
                   f (mid str (m_idx m) (m_len m)) m = g (mid str (m_idx m) (m_len m)) m) ->
  ∀ p pos result, Links rx f p pos result -> Links rx g p pos result.
Proof.
  intros Hfg p pos result H.
  induction H as [p pos Hn|p pos m scheme result Hm Hs Hl IH].
  - by apply Links_done.
  - apply (Links_match rx g p pos m scheme result Hm); [|exact IH].
    rewrite <- (Hfg _ _ _ Hm). exact Hs.
Qed.

(** Where the links are described, the loop of [parseLinks] arrives at them. *)
Lemma Links_parseLinks_loop rx p pos result :
  Links rx (fun _ m => m_cap1 m) p pos result ->
  ∃ fuel, parseLinks_loop fuel rx p pos = Some result.
Proof.
  intros H. induction H as [p pos Hn|p pos m scheme result Hm Hs Hl [fuel IH]].
  - exists 1%nat. simpl. by rewrite Hn.
  - exists (S fuel). simpl. rewrite Hm. unfold parseLinks_iter.
    rewrite generateLink_anchor.
    rewrite (SchemeOf_det _ _ _ _ (linkProtocol_scheme m) Hs). exact IH.
Qed.

(** C5, as the code has it.  [parseLinks] returns the text in which every
    match that its search finds, from the start of the text and then from
    behind each anchor, is replaced by an anchor whose [href] is the scheme
    followed by the percent-encoded text of the match, in which each of
    [:/?@%#=+&,] stays as it is, and whose visible text is the text of the
    match itself; it returns that text and no other, whenever there is
    one.  For a match whose scheme capture, [cap(2)], is empty the scheme is
    decided on capture 1: [mailto:] if it holds [@], else [ftp://] if it
    starts with [ftp.] whatever the case, else [http://]; for any other
    match no scheme is prepended.  With a pattern whose capture 1 is always
    the text of the match, the scheme is thus decided on the text of the
    match.  This is the link pass of [toHtml], which returns what
    [parseLinks] returns on the text that the scan has written. *)
Theorem parseLinks_anchor (rx : QRegExp) (message result : QString) :
  ((∃ fuel, parseLinks fuel message rx = Some result)
   <-> Links rx (fun _ m => m_cap1 m) message 0 result)
  ∧ ((∀ str offset m, indexIn rx str offset = Some m ->
                      m_cap1 m = mid str (m_idx m) (m_len m)) ->
     ((∃ fuel, parseLinks fuel message rx = Some result)
      <-> Links rx (fun href _ => href) message 0 result))
  ∧ (∀ b, b ∈ QLatin1String ":/?@%#=+&," -> percentEncode exclude [b] = [b])
  ∧ (∀ d text fuel,
       urlPattern d = rx -> processed (toHtml_scan d text) = message ->
       potentialUrl (toHtml_scan d text) = true ->
       isEmpty (rx_pattern rx) = false ->
       toHtml d fuel text = parseLinks fuel message rx).
Proof.
  split; [|split; [|split]].
  - split.
    + intros [fuel H]. apply (parseLinks_loop_links rx _ fuel); [reflexivity|exact H].
    + apply Links_parseLinks_loop.
  - intros Hcap. split.
    + intros [fuel H]. apply (parseLinks_loop_links rx _ fuel); [|exact H].
      intros str offset m Hm. symmetry. exact (Hcap _ _ _ Hm).
    + intros H. apply Links_parseLinks_loop. revert H. apply Links_ext.
      intros str offset m Hm. symmetry. exact (Hcap _ _ _ Hm).
  - intros b Hb. unfold percentEncode. cbn [flat_map]. rewrite app_nil_r.
    unfold percentEncodeByte.
    rewrite (existsb_elem_of b exclude Hb), orb_true_r. reflexivity.
  - intros d text fuel Hrx Hmsg Hflag Hne. unfold toHtml. cbv zeta.
    rewrite Hflag, Hrx, Hne, Hmsg. reflexivity.
Qed.

End TextFormat.

(** ** IrcUserModel: get and lessThan *)
Module IrcUserModelFacts.
Import IrcUserModel.

Lemma indexOf_from_absent l str i : str ∉ l -> indexOf_from l str i = -1.
Proof.
  revert i. induction l as [|s l IH]; intros i H; simpl; [reflexivity|].
  apply not_elem_of_cons in H as [N H]. destruct (decide (s = str)); [congruence|].
  by apply IH.
Qed.

Lemma indexOf_from_first l str i0 i :
  l !! i = Some str -> (∀ j, (j < i)%nat -> l !! j ≠ Some str) ->
  indexOf_from l str i0 = i0 + Z.of_nat i.
Proof.
  revert i0 i. induction l as [|s l IH]; intros i0 i Hi Hfirst; [discriminate|].
  simpl. destruct (decide (s = str)) as [->|N].
  - destruct i as [|i]; [lia|]. exfalso. apply (Hfirst O); [lia|reflexivity].
  - destruct i as [|i]; [simpl in Hi; congruence|].
    rewrite (IH (i0 + 1) i Hi); [lia|].
    intros j Hj. apply (Hfirst (S j)). lia.
Qed.

Lemma rank_ranked prefixes u i : ranked prefixes u i -> rank prefixes u = Z.of_nat i.
Proof.
  intros (c & tail & Hp & Hi & Hfirst). unfold rank, indexOf. rewrite Hp.
  cbn [isEmpty negb]. change (qat (c :: tail) 0) with c.
  rewrite (indexOf_from_first _ _ 0 i Hi Hfirst). lia.
Qed.

Lemma rank_unranked prefixes u : unranked prefixes u -> rank prefixes u = -1.
Proof.
  intros [Hp|(c & tail & Hp & Hc)]; unfold rank; rewrite Hp; [reflexivity|].
  cbn [isEmpty negb]. change (qat (c :: tail) 0) with c.
  by apply indexOf_from_absent.
Qed.

Lemma lessThan_rank foldCase one another :
  lessThan foldCase one another
  = let i1 := rank (network_prefixes one) one in
    let i2 := rank (network_prefixes one) another in
    if (0 <=? i1) && (i2 <? 0) then true
    else if (i1 <? 0) && (0 <=? i2) then false
    else if (0 <=? i1) && (0 <=? i2) && negb (i1 =? i2) then i1 <? i2
    else compare_CaseInsensitive foldCase (name one) (name another) <? 0.
Proof. reflexivity. Qed.

(** C8.  [lessThan] keeps the documented order.  With the prefixes of the
    network as the priority list and the first code unit of a member's
    prefix as its symbol: a member whose symbol is in the list sorts before
    one that has no prefix or whose symbol is not in the list; of two
    members whose symbols are first found at different positions of the
    list, the one found earlier sorts first; in every other case (the same
    position, or neither symbol in the list) the names are compared without
    regard to case. *)
Theorem lessThan_contract (foldCase : Z -> Z -> Z) (one another : IrcUser) :
  let prefixes := network_prefixes one in
  let byName := compare_CaseInsensitive foldCase (name one) (name another) <? 0 in
  (∀ i, ranked prefixes one i -> unranked prefixes another ->
        lessThan foldCase one another = true)
  ∧ (∀ i, unranked prefixes one -> ranked prefixes another i ->
          lessThan foldCase one another = false)
  ∧ (∀ i1 i2, ranked prefixes one i1 -> ranked prefixes another i2 -> i1 ≠ i2 ->
              lessThan foldCase one another = bool_decide (i1 < i2)%nat)
  ∧ (∀ i, ranked prefixes one i -> ranked prefixes another i ->
          lessThan foldCase one another = byName)
  ∧ (unranked prefixes one -> unranked prefixes another ->
     lessThan foldCase one another = byName).
Proof.
  intros prefixes byName. rewrite lessThan_rank. fold prefixes. cbv zeta.
  repeat split.
  - intros i H1 H2. rewrite (rank_ranked _ _ _ H1), (rank_unranked _ _ H2).
    destruct (Z.leb_spec 0 (Z.of_nat i)); [reflexivity|lia].
  - intros i H1 H2. rewrite (rank_unranked _ _ H1), (rank_ranked _ _ _ H2).
    destruct (Z.leb_spec 0 (Z.of_nat i)); [reflexivity|lia].
  - intros i1 i2 H1 H2 Hne. rewrite (rank_ranked _ _ _ H1), (rank_ranked _ _ _ H2).
    destruct (Z.leb_spec 0 (Z.of_nat i1)); [|lia].
    destruct (Z.leb_spec 0 (Z.of_nat i2)); [|lia].
    destruct (Z.ltb_spec (Z.of_nat i2) 0); [lia|].
    destruct (Z.ltb_spec (Z.of_nat i1) 0); [lia|].
    destruct (Z.eqb_spec (Z.of_nat i1) (Z.of_nat i2)); [lia|]. simpl.
    destruct (Z.ltb_spec (Z.of_nat i1) (Z.of_nat i2));
      [rewrite bool_decide_eq_true_2|rewrite bool_decide_eq_false_2]; (reflexivity || lia).
  - intros i H1 H2. rewrite (rank_ranked _ _ _ H1), (rank_ranked _ _ _ H2).
    destruct (Z.leb_spec 0 (Z.of_nat i)); [|lia].
    destruct (Z.ltb_spec (Z.of_nat i) 0); [lia|].
    rewrite Z.eqb_refl. reflexivity.
  - intros H1 H2. rewrite (rank_unranked _ _ H1), (rank_unranked _ _ H2). reflexivity.
Qed.

(** For an index that is not an index of the list, [get] returns the null
    pointer, and the data of the model are what they were. *)
Lemma get_outside_list (d : IrcUserModelPrivate) (index : Z) :
  index < 0 ∨ Z.of_nat (length (userList d)) <= index -> get d index = (None, d).
Proof.
  intros H. unfold get, value in *. f_equal.
  destruct (Z.ltb_spec index 0); [reflexivity|].
  destruct (Z.leb_spec (Z.of_nat (length (userList d))) index); [reflexivity|lia].
Qed.

(** Inside the range, [get] returns the pointer stored at the index. *)
Lemma get_in_range (d : IrcUserModelPrivate) (i : nat) (u : IrcUserPtr) :
  userList d !! i = Some u -> get d (Z.of_nat i) = (u, d).
Proof.
  intros H. unfold get, value. f_equal.
  pose proof (lookup_lt_Some _ _ _ H) as Hlt.
  destruct (Z.ltb_spec (Z.of_nat i) 0); [lia|].
  destruct (Z.leb_spec (Z.of_nat (length (userList d))) (Z.of_nat i)); [lia|].
  rewrite Nat2Z.id. by apply nth_lookup_Some.
Qed.

End IrcUserModelFacts.

(** ** The statements on concrete texts *)
Module Checks.
Import Sample.

Local Abbreviation scan := (toHtml_scan Latin1.isDigit Latin1.isSpace).
Local Abbreviation html :=
  (toHtml Latin1.isDigit Latin1.isSpace Latin1.foldCase Latin1.toUtf8).
Local Abbreviation plain := (toPlainText Latin1.isDigit).

(** *** The examples of the documentation *)

Example bold_style :
  html (format rx_empty SpanStyle) 0 ([0x02] ++ QLatin1String "bold" ++ [0x02])
  = Some (QLatin1String "<span style='font-weight: bold'>bold</span>").
Proof. vm_compute. reflexivity. Qed.

Example bold_class :
  html (format rx_empty SpanClass) 0 ([0x02] ++ QLatin1String "bold" ++ [0x02])
  = Some (QLatin1String "<span class='bold'>bold</span>").
Proof. vm_compute. reflexivity. Qed.

Example color_reset :
  html (format rx_empty SpanStyle) 0 ([0x03] ++ QLatin1String "4red" ++ [0x0f])
  = Some (QLatin1String "<span style='color: red'>red</span>")
  ∧ plain ([0x03] ++ QLatin1String "4red" ++ [0x0f]) = QLatin1String "red".
Proof. split; vm_compute; reflexivity. Qed.

Example color_background :
  html (format rx_empty SpanClass) 0 ([0x03] ++ QLatin1String "4,99x")
  = Some (QLatin1String "<span class='red transparent-background'>x").
Proof. vm_compute. reflexivity. Qed.

Example plain_colors :
  plain ([0x02] ++ QLatin1String "a" ++ [0x03] ++ QLatin1String "12,3b" ++ [0x03]
         ++ QLatin1String ",5" ++ [0x0f])
  = QLatin1String "ab,5".
Proof. vm_compute. reflexivity. Qed.

Example escaped_lt :
  html (format rx_empty SpanStyle) 0 (QLatin1String "a<b>&c")
  = Some (QLatin1String "a&lt;b>&c").
Proof. vm_compute. reflexivity. Qed.

(** A dot between two letters sets the flag; a dot after a space, or at
    either end of the text, does not, and neither does a dot that follows
    a reset byte dropped at the start of the text. *)
Example flag_set :
  potentialUrl (scan (format rx_empty SpanStyle) (QLatin1String "a.b")) = true
  ∧ potentialUrl (scan (format rx_empty SpanStyle) (QLatin1String "a .b")) = false
  ∧ potentialUrl (scan (format rx_empty SpanStyle) (QLatin1String ".b")) = false
  ∧ potentialUrl (scan (format rx_empty SpanStyle) (QLatin1String "a.")) = false
  ∧ potentialUrl (scan (format rx_empty SpanStyle) ([0x0f] ++ QLatin1String ".b")) = false
  ∧ potentialUrl (scan (format rx_empty SpanStyle) ([0x02] ++ QLatin1String ".b")) = true.
Proof. repeat split; vm_compute; reflexivity. Qed.

Example link_with_scheme :
  generateLink Latin1.toUtf8 [] (QLatin1String "http://example.com/a b")
  = QLatin1String "<a href='http://example.com/a%20b'>http://example.com/a b</a>".
Proof. vm_compute. reflexivity. Qed.

(** *** Claim C2 *)

(** A colour marker without digits, met while no element is open, takes
    [depth] below zero. *)
Lemma depth_negative :
  depth (scan (format rx_empty SpanStyle) [0x03]) = -1
  ∧ processed (scan (format rx_empty SpanStyle) [0x03]) = closeSpan.
Proof. split; vm_compute; reflexivity. Qed.

Lemma toHtml_depth_witness :
  markersColored Latin1.isDigit (processed (toHtml_init colored_bold)) = true
  ∧ (let st := toHtml_loop Latin1.isDigit Latin1.isSpace (format rx_empty SpanStyle) 4
                 (toHtml_init colored_bold) in
     let log := toHtml_replacements Latin1.isDigit Latin1.isSpace
                  (format rx_empty SpanStyle) 4 (toHtml_init colored_bold) in
     0 <= depth st
     ∧ depth st = openElements log
     ∧ (pos st < qsize (processed st) -> qat (processed st) (pos st) = 0x0f ->
        fst (toHtml_iter Latin1.isDigit Latin1.isSpace (format rx_empty SpanStyle) st)
        = repeated closeSpan (openElements log)
        ∧ closings (fst (toHtml_iter Latin1.isDigit Latin1.isSpace
                           (format rx_empty SpanStyle) st))
          = openElements log
        ∧ depth (snd (toHtml_iter Latin1.isDigit Latin1.isSpace
                        (format rx_empty SpanStyle) st)) = 0)).
Proof.
  split; [reflexivity|].
  exact (toHtml_depth Latin1.isDigit Latin1.isSpace (format rx_empty SpanStyle)
           colored_bold 4 eq_refl).
Defined.

(** In that text the reset is met after four turns, with two elements
    open, and closes both. *)
Example colored_bold_reset :
  let st := toHtml_loop Latin1.isDigit Latin1.isSpace (format rx_empty SpanStyle) 4
              (toHtml_init colored_bold) in
  qat (processed st) (pos st) = 0x0f
  ∧ depth st = 2
  ∧ fst (toHtml_iter Latin1.isDigit Latin1.isSpace (format rx_empty SpanStyle) st)
    = QLatin1String "</span></span>".
Proof. repeat split; vm_compute; reflexivity. Qed.

(** *** Claim C3 *)

Lemma marker_without_digits_witness :
  asciiDigits Latin1.isDigit
  ∧ Latin1.isDigit (QLatin1Char "x") = false
  ∧ plain (QLatin1String "a" ++ 0x03 :: QLatin1String "x")
    = plain (QLatin1String "a") ++ plain (QLatin1String "x")
  ∧ (∀ c rest', QLatin1String "x" = c :: rest' -> plainChar c ->
       plain (QLatin1String "a" ++ 0x03 :: QLatin1String "x")
       = plain (QLatin1String "a") ++ c :: plain rest')
  ∧ ∃ k flag,
      let d := format rx_empty SpanStyle in
      let scanned := scan d (QLatin1String "a") in
      let init := toHtml_init (QLatin1String "a" ++ 0x03 :: QLatin1String "x") in
      let before :=
        mkHtml (processed scanned ++ 0x03 :: escape (QLatin1String "x")) (state scanned)
          (qsize (processed scanned)) (len scanned) (fg scanned) (bg scanned)
          (depth scanned) flag in
      let after :=
        mkHtml (processed scanned ++ closeSpan ++ escape (QLatin1String "x")) (state scanned)
          (qsize (processed scanned) + qsize closeSpan) 0 (-1) (-1)
          (depth scanned - 1) flag in
      let final :=
        toHtml_loop Latin1.isDigit Latin1.isSpace d (length (escape (QLatin1String "x")))
          after in
      toHtml_loop Latin1.isDigit Latin1.isSpace d k init = before
      ∧ toHtml_loop Latin1.isDigit Latin1.isSpace d (S k) init = after
      ∧ scan d (QLatin1String "a" ++ 0x03 :: QLatin1String "x") = final
      ∧ ∀ fuel,
          html d fuel (QLatin1String "a" ++ 0x03 :: QLatin1String "x")
          = if potentialUrl final && negb (isEmpty (rx_pattern (urlPattern d)))
            then parseLinks Latin1.foldCase Latin1.toUtf8 fuel (processed final) (urlPattern d)
            else Some (processed final).
Proof.
  assert (H1 : asciiDigits Latin1.isDigit) by (intros c _; reflexivity).
  assert (H2 : Latin1.isDigit (QLatin1Char "x") = false) by reflexivity.
  split; [exact H1|]. split; [exact H2|].
  exact (marker_without_digits Latin1.isDigit Latin1.isSpace Latin1.foldCase Latin1.toUtf8
           (format rx_empty SpanStyle) (QLatin1String "a") (QLatin1String "x") H1 H2).
Defined.

Example marker_before_letter :
  plain (QLatin1String "a" ++ 0x03 :: QLatin1String "x") = QLatin1String "ax"
  ∧ processed (scan (format rx_empty SpanStyle) (QLatin1String "a" ++ 0x03 :: QLatin1String "x"))
    = QLatin1String "a</span>x".
Proof. split; vm_compute; reflexivity. Qed.

(** *** Claim C5 *)

(** The pattern [((s:)?ab)@c\.d] has a scheme group, and in the text
    [ab@c.d] the match is the whole text, with an empty scheme capture.  The
    match holds [@], so that the scheme would be [mailto:] were it decided
    on the match; capture 1 is [ab], and [toHtml] returns a link with the
    scheme [http://]. *)
Lemma scheme_from_capture :
  processed (scan (format rx_scheme SpanStyle) (QLatin1String "ab@c.d"))
  = QLatin1String "ab@c.d"
  ∧ potentialUrl (scan (format rx_scheme SpanStyle) (QLatin1String "ab@c.d")) = true
  ∧ indexIn rx_scheme (QLatin1String "ab@c.d") 0
    = Some (mkRxMatch 0 6 (QLatin1String "ab") [])
  ∧ mid (QLatin1String "ab@c.d") 0 6 = QLatin1String "ab@c.d"
  ∧ contains (QLatin1String "ab@c.d") (QLatin1Char "@") = true
  ∧ (∀ fuel, html (format rx_scheme SpanStyle) (S (S fuel)) (QLatin1String "ab@c.d")
             = Some (QLatin1String "<a href='http://ab@c.d'>ab@c.d</a>"))
  ∧ Links Latin1.foldCase Latin1.toUtf8 rx_scheme (fun href _ => href)
      (QLatin1String "ab@c.d") 0 (QLatin1String "<a href='mailto:ab@c.d'>ab@c.d</a>")
  ∧ ¬ Links Latin1.foldCase Latin1.toUtf8 rx_scheme (fun href _ => href)
        (QLatin1String "ab@c.d") 0 (QLatin1String "<a href='http://ab@c.d'>ab@c.d</a>").
Proof.
  assert (L : Links Latin1.foldCase Latin1.toUtf8 rx_scheme (fun href _ => href)
                (QLatin1String "ab@c.d") 0 (QLatin1String "<a href='mailto:ab@c.d'>ab@c.d</a>")).
  { apply (Links_match _ _ _ _ _ _ (mkRxMatch 0 6 (QLatin1String "ab") [])
             (QLatin1String "mailto:")); [reflexivity| |].
    - apply Scheme_mailto; [reflexivity|].
      apply (contains_elem_of (QLatin1String "ab@c.d")). reflexivity.
    - apply Links_done. reflexivity. }
  repeat split; try (vm_compute; reflexivity); [exact L|].
  intros H. pose proof (Links_det _ _ _ _ _ _ _ _ H L) as E. vm_compute in E. discriminate.
Qed.

(** A text with two matches, the first with a scheme of its own. *)
Lemma parseLinks_anchor_witness :
  Links Latin1.foldCase Latin1.toUtf8 rx_scheme (fun _ m => m_cap1 m)
    (QLatin1String "s:ab@c.d ab@c.d") 0
    (QLatin1String "<a href='s:ab@c.d'>s:ab@c.d</a> <a href='http://ab@c.d'>ab@c.d</a>").
Proof.
  apply (parseLinks_anchor Latin1.isDigit Latin1.isSpace Latin1.foldCase Latin1.toUtf8
           rx_scheme (QLatin1String "s:ab@c.d ab@c.d")
           (QLatin1String "<a href='s:ab@c.d'>s:ab@c.d</a> <a href='http://ab@c.d'>ab@c.d</a>")).
  exists 3%nat. vm_compute. reflexivity.
Defined.

Lemma startsWith_take (s prefix : QString) :
  startsWith s prefix = true -> take (length prefix) s = prefix.
Proof.
  revert s. induction prefix as [|x prefix IH]; intros s H; [reflexivity|].
  destruct s as [|c s]; [discriminate|]. simpl in H.
  apply andb_prop in H as [Hc H]. apply Z.eqb_eq in Hc as ->.
  simpl. by rewrite (IH _ H).
Qed.

Lemma searchLiteral_found needle s idx i :
  searchLiteral needle s idx = Some i ->
  ∃ k : nat, i = idx + Z.of_nat k ∧ startsWith (drop k s) needle = true.
Proof.
  revert idx. induction s as [|c s IH]; intros idx; simpl.
  - destruct (startsWith [] needle) eqn:E; [|discriminate].
    intros [= <-]. exists 0%nat. split; [lia|exact E].
  - destruct (startsWith (c :: s) needle) eqn:E.
    + intros [= <-]. exists 0%nat. split; [lia|exact E].
    + intros H. apply IH in H as (k & -> & H). exists (S k). split; [lia|exact H].
Qed.

(** Under the pattern [(ftp\.c\.d)] capture 1 is the text of every match,
    and the scheme is the one that the text of the match asks for. *)
Lemma rx_whole_capture (str : QString) (offset : Z) (m : RxMatch) :
  indexIn rx_whole str offset = Some m -> m_cap1 m = mid str (m_idx m) (m_len m).
Proof.
  unfold indexIn, rx_whole. cbn [rx_isValid rx_search]. cbv zeta.
  set (o := if offset <? 0 then offset + qsize str else offset).
  destruct (Z.ltb_spec o 0); [discriminate|].
  destruct (Z.ltb_spec (qsize str) o); [discriminate|]. cbn [orb].
  destruct (searchLiteral _ _ _) as [i|] eqn:E; [|discriminate].
  intros [= <-]. cbn [m_idx m_len m_cap1].
  apply searchLiteral_found in E as (k & -> & Hs).
  unfold mid. replace (Z.to_nat (o + Z.of_nat k)) with (Z.to_nat o + k)%nat by lia.
  rewrite <- drop_drop. symmetry. apply (startsWith_take _ _ Hs).
Qed.

Example link_on_whole_match :
  html (format rx_whole SpanStyle) 2 (QLatin1String "see ftp.c.d")
  = Some (QLatin1String "see <a href='ftp://ftp.c.d'>ftp.c.d</a>")
  ∧ Links Latin1.foldCase Latin1.toUtf8 rx_whole (fun href _ => href)
      (QLatin1String "see ftp.c.d") 0
      (QLatin1String "see <a href='ftp://ftp.c.d'>ftp.c.d</a>").
Proof.
  split; [vm_compute; reflexivity|].
  apply (Links_match _ _ _ _ _ _ (mkRxMatch 4 7 (QLatin1String "ftp.c.d") [])
           (QLatin1String "ftp://")); [reflexivity| |].
  - apply Scheme_ftp; [reflexivity| |].
    + intros H. apply (contains_elem_of (QLatin1String "ftp.c.d")) in H. discriminate.
    + exists (QLatin1String "ftp."), (QLatin1String "c.d"). split; reflexivity.
  - apply Links_done. reflexivity.
Qed.

Example ftp_link :
  fst (parseLinks_iter Latin1.foldCase Latin1.toUtf8 (QLatin1String "see FTP.foo.org now")
         (mkRxMatch 4 11 (QLatin1String "FTP.foo.org") []))
  = QLatin1String "see <a href='ftp://FTP.foo.org'>FTP.foo.org</a> now".
Proof. vm_compute. reflexivity. Qed.

(** *** Claim C6 *)


(** The dot of [ab@c.d] stands between two letters: the text before it is
    [ab@c], the text after it is [d]. *)
Example url_like_sample :
  urlLikeText Latin1.isDigit Latin1.isSpace (format rx_scheme SpanStyle)
    (QLatin1String "ab@c.d")
  ∧ ¬ urlLikeText Latin1.isDigit Latin1.isSpace (format rx_scheme SpanStyle)
        (QLatin1String "a .b").
Proof.
  split.
  - exists (QLatin1String "ab@c"), (QLatin1Char "."), (QLatin1String "d").
    repeat split.
  - intros (pre & c & post & E & Hc & Hs).
    destruct pre as [|x0 [|x1 [|x2 [|x3 pre]]]]; vm_compute in E.
    + injection E as <- <-. discriminate Hc.
    + injection E as <- <- <-. discriminate Hc.
    + injection E as <- <- <- <-. vm_compute in Hs. discriminate Hs.
    + injection E as <- <- <- <- E. discriminate Hc.
    + injection E as <- <- <- <- E. destruct pre; discriminate E.
Qed.

(** *** Claim C7 *)

(** The pattern [(] does not compile; it is stored all the same, and the
    call returns the text it would return without link detection. *)
Lemma invalid_pattern_unreported :
  rx_isValid rx_unbalanced = false
  ∧ urlPattern (setUrlPattern (format rx_empty SpanStyle) rx_unbalanced) = rx_unbalanced
  ∧ potentialUrl (scan (setUrlPattern (format rx_empty SpanStyle) rx_unbalanced)
                    (QLatin1String "a.b")) = true
  ∧ html (setUrlPattern (format rx_empty SpanStyle) rx_unbalanced) 1 (QLatin1String "a.b")
    = Some (QLatin1String "a.b").
Proof. repeat split; vm_compute; reflexivity. Qed.

Lemma toHtml_invalid_pattern_witness :
  rx_isValid rx_unbalanced = false
  ∧ urlPattern (setUrlPattern (format rx_empty SpanStyle) rx_unbalanced) = rx_unbalanced
  ∧ ∀ fuel,
      html (setUrlPattern (format rx_empty SpanStyle) rx_unbalanced) (S fuel)
        (QLatin1String "a.b")
      = Some (processed (scan (setUrlPattern (format rx_empty SpanStyle) rx_unbalanced)
                           (QLatin1String "a.b"))).
Proof.
  split; [reflexivity|].
  exact (toHtml_invalid_pattern Latin1.isDigit Latin1.isSpace Latin1.foldCase Latin1.toUtf8
           (format rx_empty SpanStyle) rx_unbalanced (QLatin1String "a.b") eq_refl).
Defined.

(** *** Claim C8 and the list of [get] *)

Example lessThan_sample :
  IrcUserModel.lessThan Latin1.foldCase op voiced = true
  ∧ IrcUserModel.lessThan Latin1.foldCase voiced op = false
  ∧ IrcUserModel.lessThan Latin1.foldCase voiced bob = true
  ∧ IrcUserModel.lessThan Latin1.foldCase bob voiced = false
  ∧ IrcUserModel.lessThan Latin1.foldCase alice bob = true
  ∧ IrcUserModel.lessThan Latin1.foldCase bob alice = false.
Proof. repeat split; vm_compute; reflexivity. Qed.

Example get_sample :
  IrcUserModel.get two_users 1 = (Some bob, two_users)
  ∧ IrcUserModel.get two_users (-1) = (None, two_users)
  ∧ IrcUserModel.get two_users 2 = (None, two_users).
Proof. repeat split; vm_compute; reflexivity. Qed.

End Checks.

(** ** IrcUserModel: the order of lessThan *)
Module IrcUserOrderFacts.
Import IrcUserModel.

Section Order.

Variable foldCase : Z -> Z -> Z.

Set Default Proof Using "Type".

(** The comparison of the names is antisymmetric ... *)
Lemma compare_from_swap a :
  ∀ b la lb, compare_from foldCase b a lb la = - compare_from foldCase a b la lb.
Proof.
  induction a as [|x a IH]; intros [|y b] la lb; simpl; try reflexivity.
  destruct (Z.eqb_spec (foldCase la x - foldCase lb y) 0) as [E|N];
    destruct (Z.eqb_spec (foldCase lb y - foldCase la x) 0); try lia.
  apply IH.
Qed.

(** ... and transitive. *)
Lemma compare_from_trans a :
  ∀ b c la lb lc,
    let x := compare_from foldCase a b la lb in
    let y := compare_from foldCase b c lb lc in
    let z := compare_from foldCase a c la lc in
    (x <= 0 -> y <= 0 -> z <= 0) ∧ (x < 0 -> y <= 0 -> z < 0)
    ∧ (x <= 0 -> y < 0 -> z < 0).
Proof.
  induction a as [|u a IH]; intros [|v b] [|w c] la lb lc; simpl; try lia;
    repeat (match goal with
            | |- context [?e =? 0] => destruct (Z.eqb_spec e 0)
            end); try lia.
  apply IH.
Qed.

(** [lessThan] orders by the position of the prefix symbol, members
    without a listed symbol last, and then by name. *)
Lemma lessThan_true_iff one another :
  let i1 := rank (network_prefixes one) one in
  let i2 := rank (network_prefixes one) another in
  lessThan foldCase one another = true
  <-> (0 <= i1 ∧ (i2 < 0 ∨ i1 < i2))
      ∨ ((i1 < 0 ∧ i2 < 0 ∨ 0 <= i1 ∧ i1 = i2)
         ∧ compare_CaseInsensitive foldCase (name one) (name another) < 0).
Proof.
  intros i1 i2. rewrite IrcUserModelFacts.lessThan_rank. fold i1 i2. cbv zeta.
  destruct ((0 <=? i1) && (i2 <? 0)) eqn:E1; [split; [lia|reflexivity]|].
  destruct ((i1 <? 0) && (0 <=? i2)) eqn:E2; [split; [discriminate|lia]|].
  destruct ((0 <=? i1) && (0 <=? i2) && negb (i1 =? i2)) eqn:E3; lia.
Qed.

Lemma lessThan_asymmetric (a b : IrcUser) :
  network_prefixes b = network_prefixes a ->
  lessThan foldCase a b = true -> lessThan foldCase b a = false.
Proof.
  intros Hb H. apply not_true_iff_false. intros H'.
  apply lessThan_true_iff in H. apply lessThan_true_iff in H'.
  rewrite Hb in H'. cbv zeta in *. unfold compare_CaseInsensitive in *.
  pose proof (compare_from_swap (name a) (name b) 0 0) as Sab.
  generalize dependent (rank (network_prefixes a) a). intros ia.
  generalize dependent (rank (network_prefixes a) b). intros ib.
  generalize dependent (compare_from foldCase (name a) (name b) 0 0). intros cab.
  generalize dependent (compare_from foldCase (name b) (name a) 0 0). intros cba.
  intros. lia.
Qed.

Lemma lessThan_negatively_transitive (a b c : IrcUser) :
  network_prefixes b = network_prefixes a ->
  network_prefixes c = network_prefixes a ->
  lessThan foldCase a b = false -> lessThan foldCase b c = false ->
  lessThan foldCase a c = false.
Proof.
  intros Hb Hc H H'. apply not_true_iff_false. intros H''.
  apply not_true_iff_false in H, H'.
  pose proof (lessThan_true_iff a b) as Hab. pose proof (lessThan_true_iff b c) as Hbc.
  apply lessThan_true_iff in H''. rewrite Hb in Hbc. cbv zeta in *.
  unfold compare_CaseInsensitive in *.
  pose proof (compare_from_swap (name a) (name b) 0 0) as Sab.
  pose proof (compare_from_swap (name b) (name c) 0 0) as Sbc.
  pose proof (compare_from_swap (name a) (name c) 0 0) as Sac.
  pose proof (compare_from_trans (name c) (name b) (name a) 0 0 0) as Tcba.
  cbv zeta in *.
  generalize dependent (rank (network_prefixes a) a). intros ia.
  generalize dependent (rank (network_prefixes a) b). intros ib.
  generalize dependent (rank (network_prefixes a) c). intros ic.
  generalize dependent (compare_from foldCase (name a) (name b) 0 0). intros cab.
  generalize dependent (compare_from foldCase (name b) (name a) 0 0). intros cba.
  generalize dependent (compare_from foldCase (name b) (name c) 0 0). intros cbc.
  generalize dependent (compare_from foldCase (name c) (name b) 0 0). intros ccb.
  generalize dependent (compare_from foldCase (name a) (name c) 0 0). intros cac.
  generalize dependent (compare_from foldCase (name c) (name a) 0 0). intros cca.
  intros.
  assert (Nab : ¬ (0 <= ia ∧ (ib < 0 ∨ ia < ib)
                   ∨ (ia < 0 ∧ ib < 0 ∨ 0 <= ia ∧ ia = ib) ∧ cab < 0))
    by (intros X; apply H, Hab, X).
  assert (Nbc : ¬ (0 <= ib ∧ (ic < 0 ∨ ib < ic)
                   ∨ (ib < 0 ∧ ic < 0 ∨ 0 <= ib ∧ ib = ic) ∧ cbc < 0))
    by (intros X; apply H', Hbc, X).
  clear - Nab Nbc H'' Tcba Sab Sbc Sac. lia.
Qed.

(** X11.  Among members of one network [lessThan] is a strict weak order,
    as sorting and binary search need it: no member is less than itself,
    two members are never each less than the other, and both "less than"
    and "not less than" are transitive. *)
Theorem lessThan_strict_weak_order (a b c : IrcUser) :
  network_prefixes b = network_prefixes a ->
  network_prefixes c = network_prefixes a ->
  lessThan foldCase a a = false
  ∧ (lessThan foldCase a b = true -> lessThan foldCase b a = false)
  ∧ (lessThan foldCase a b = true -> lessThan foldCase b c = true ->
     lessThan foldCase a c = true)
  ∧ (lessThan foldCase a b = false -> lessThan foldCase b c = false ->
     lessThan foldCase a c = false).
Proof.
  intros Hb Hc. split; [|split; [|split]].
  - destruct (lessThan foldCase a a) eqn:E; [|reflexivity].
    by rewrite (lessThan_asymmetric a a eq_refl E) in E.
  - by apply lessThan_asymmetric.
  - intros H H'. destruct (lessThan foldCase a c) eqn:E; [reflexivity|].
    assert (Hcb : lessThan foldCase c b = false).
    { apply lessThan_asymmetric; [congruence|exact H']. }
    assert (Hab : lessThan foldCase a b = false).
    { apply (lessThan_negatively_transitive a c b); [exact Hc|exact Hb|exact E|].
      exact Hcb. }
    congruence.
  - by apply lessThan_negatively_transitive.
Qed.

End Order.

End IrcUserOrderFacts.

(** ** QList, qUpperBound and the list of users *)
Module IrcUserListFacts.
Import IrcUserModel IrcUserList.

Section Lists.

Context {T : Type} `{EqDecision T}.

Set Default Proof Using "Type*".

Lemma qlist_indexOf_absent (l : list T) value i0 :
  value ∉ l -> QList.indexOf_from l value i0 = -1.
Proof.
  revert i0. induction l as [|x l IH]; intros i0 Hn; simpl; [reflexivity|].
  apply not_elem_of_cons in Hn as [Hx Hl].
  destruct (decide (x = value)); [congruence|]. by apply IH.
Qed.

Lemma qlist_indexOf_first (l1 l2 : list T) value i0 :
  value ∉ l1 ->
  QList.indexOf_from (l1 ++ value :: l2) value i0 = i0 + Z.of_nat (length l1).
Proof.
  revert i0. induction l1 as [|x l1 IH]; intros i0 Hn; simpl.
  - destruct (decide (value = value)); [lia|congruence].
  - apply not_elem_of_cons in Hn as [Hx Hl].
    destruct (decide (x = value)); [congruence|]. rewrite IH by exact Hl. lia.
Qed.

(** A list that holds [value] splits at its first occurrence. *)
Lemma first_occurrence (l : list T) value :
  value ∈ l -> ∃ l1 l2, l = l1 ++ value :: l2 ∧ value ∉ l1.
Proof.
  induction l as [|x l IH]; intros Hin; [by apply elem_of_nil in Hin|].
  destruct (decide (x = value)) as [->|N].
  - exists [], l. split; [reflexivity|apply not_elem_of_nil].
  - apply elem_of_cons in Hin as [->|Hin]; [congruence|].
    destruct (IH Hin) as (l1 & l2 & -> & Hn). exists (x :: l1), l2.
    split; [reflexivity|]. apply not_elem_of_cons. split; [congruence|exact Hn].
Qed.

Lemma insert_split (l : list T) i value :
  0 <= i <= Z.of_nat (length l) ->
  QList.insert l i value = take (Z.to_nat i) l ++ value :: drop (Z.to_nat i) l.
Proof.
  intros Hi. unfold QList.insert.
  destruct (Z.leb_spec i 0).
  - replace (Z.to_nat i) with O by lia. reflexivity.
  - destruct (Z.leb_spec (Z.of_nat (length l)) i); [|reflexivity].
    rewrite take_ge, drop_ge by lia. reflexivity.
Qed.

Lemma removeAt_middle (l1 l2 : list T) value :
  QList.removeAt (l1 ++ value :: l2) (Z.of_nat (length l1)) = l1 ++ l2.
Proof.
  unfold QList.removeAt. rewrite length_app. simpl.
  destruct (Z.ltb_spec (Z.of_nat (length l1)) 0); [lia|].
  destruct (Z.leb_spec (Z.of_nat (length l1 + S (length l2))) (Z.of_nat (length l1)));
    [lia|]. simpl.
  rewrite Nat2Z.id, take_app_length.
  replace (Z.to_nat (Z.of_nat (length l1) + 1)) with (length l1 + 1)%nat by lia.
  rewrite drop_app_add. reflexivity.
Qed.

(** The binary search stays inside the part of the list it was given and,
    in a list that [lessThan value] splits into a part that is not greater
    and a part that is, finds the split. *)
Lemma qUpperBound_loop_spec (l : list T) value lessThan fuel :
  ∀ begin n,
    0 <= begin -> 0 <= n -> begin + n <= Z.of_nat (length l) ->
    (Z.to_nat n <= fuel)%nat ->
    let r := QList.qUpperBound_loop fuel l value lessThan begin n in
    begin <= r <= begin + n
    ∧ ((∀ i j x y, (i <= j)%nat -> l !! i = Some x -> l !! j = Some y ->
                   lessThan value x = true -> lessThan value y = true) ->
       (∀ i x, Z.of_nat i < begin -> l !! i = Some x -> lessThan value x = false) ->
       (∀ i x, begin + n <= Z.of_nat i -> l !! i = Some x -> lessThan value x = true) ->
       (∀ i x, Z.of_nat i < r -> l !! i = Some x -> lessThan value x = false)
       ∧ (∀ i x, r <= Z.of_nat i -> l !! i = Some x -> lessThan value x = true)).
Proof.
  induction fuel as [|fuel IH]; intros begin n Hb Hn Hle Hfuel; cbv zeta.
  - assert (n = 0) as -> by lia. simpl. split; [lia|]. intros _ Hlow Hup.
    split; [exact Hlow|]. intros i x Hi. apply Hup. lia.
  - simpl. destruct (Z.ltb_spec 0 n) as [Hpos|Hpos].
    2:{ assert (n = 0) as -> by lia. split; [lia|]. intros _ Hlow Hup.
        split; [exact Hlow|]. intros i x Hi. apply Hup. lia. }
    assert (Hhalf : Z.shiftr n 1 = n / 2) by (apply Z.shiftr_div_pow2; lia).
    rewrite Hhalf. pose proof (Z.div_lt_upper_bound n 2 n) as Hlt.
    assert (0 <= n / 2 < n) as Hrange by (split; [apply Z.div_pos; lia|apply Hlt; lia]).
    destruct (l !! Z.to_nat (begin + n / 2)) as [x|] eqn:Hx.
    2:{ apply lookup_ge_None in Hx. lia. }
    destruct (lessThan value x) eqn:Hvx.
    + destruct (IH begin (n / 2)) as [Hr Hpart]; [lia..|]. split; [lia|].
      intros Hp Hlow Hup. apply Hpart; [exact Hp|exact Hlow|].
      intros i y Hi Hy. apply (Hp (Z.to_nat (begin + n / 2)) i x y); [lia|done..].
    + destruct (IH (begin + n / 2 + 1) (n - (n / 2 + 1))) as [Hr Hpart]; [lia..|].
      split; [lia|]. intros Hp Hlow Hup. apply Hpart; [exact Hp| |].
      * intros i y Hi Hy. destruct (lessThan value y) eqn:Hvy; [|reflexivity].
        rewrite (Hp i (Z.to_nat (begin + n / 2)) y x) in Hvx; [discriminate|lia|done..].
      * intros i y Hi Hy. apply (Hup i); [lia|exact Hy].
Qed.

(** [qUpperBound] returns an index from 0 to the size of the list.
    If the elements greater than the value, those that [lessThan] puts after
    it, are all behind the others, the index is that of the first of them:
    no element before it is greater than the value and every element from
    it on is. *)
Lemma qUpperBound_spec (l : list T) (value : T) (lessThan : T -> T -> bool) :
  let r := QList.qUpperBound l value lessThan in
  0 <= r <= Z.of_nat (length l)
  ∧ ((∀ i j x y, (i <= j)%nat -> l !! i = Some x -> l !! j = Some y ->
                 lessThan value x = true -> lessThan value y = true) ->
     (∀ i x, Z.of_nat i < r -> l !! i = Some x -> lessThan value x = false)
     ∧ (∀ i x, r <= Z.of_nat i -> l !! i = Some x -> lessThan value x = true)).
Proof.
  cbv zeta. unfold QList.qUpperBound.
  destruct (qUpperBound_loop_spec l value lessThan (length l) 0 (Z.of_nat (length l)))
    as [Hr Hpart]; [lia..|].
  split; [lia|]. intros Hp. apply Hpart; [exact Hp| |].
  - intros i x Hi. lia.
  - intros i x Hi Hx. apply lookup_lt_Some in Hx. lia.
Qed.

Lemma lookup_inserted (l1 l2 : list T) v k :
  (l1 ++ v :: l2) !! k
  = if decide (k < length l1)%nat then l1 !! k
    else if decide (k = length l1) then Some v
    else l2 !! (k - length l1 - 1)%nat.
Proof.
  destruct (decide (k < length l1)%nat); [by apply lookup_app_l|].
  rewrite lookup_app_r by lia.
  destruct (decide (k = length l1)) as [->|N].
  - by rewrite Nat.sub_diag.
  - destruct (k - length l1)%nat as [|m] eqn:E; [lia|].
    cbn. by rewrite Nat.sub_0_r.
Qed.

Lemma lookup_joined (l1 l2 : list T) k :
  (l1 ++ l2) !! k
  = if decide (k < length l1)%nat then l1 !! k else l2 !! (k - length l1)%nat.
Proof.
  destruct (decide (k < length l1)%nat); [by apply lookup_app_l|].
  apply lookup_app_r. lia.
Qed.

(** A list in order stays in order when a value is put behind elements
    that are not greater than it and before elements that it is not
    greater than. *)
Lemma inOrder_insert (lessThan : T -> T -> bool) (l1 l2 : list T) v :
  QList.inOrder lessThan (l1 ++ l2) ->
  Forall (fun x => lessThan v x = false) l1 ->
  Forall (fun y => lessThan y v = false) l2 ->
  QList.inOrder lessThan (l1 ++ v :: l2).
Proof.
  intros Ho H1 H2 i j x y Hij Hx Hy.
  rewrite lookup_inserted in Hx, Hy.
  rewrite Forall_lookup in H1. rewrite Forall_lookup in H2.
  destruct (decide (j < length l1)%nat).
  - destruct (decide (i < length l1)%nat); [|lia].
    apply (Ho i j); [lia|rewrite lookup_joined..];
      destruct (decide _); (done || lia).
  - destruct (decide (j = length l1)).
    + injection Hy as <-. destruct (decide (i < length l1)%nat); [|lia]. eauto.
    + destruct (decide (i < length l1)%nat).
      * apply (Ho i (j - 1)%nat); [lia|rewrite lookup_joined..].
        -- destruct (decide _); (done || lia).
        -- destruct (decide _); [lia|].
           replace (j - 1 - length l1)%nat with (j - length l1 - 1)%nat by lia. done.
      * destruct (decide (i = length l1)).
        -- injection Hx as <-. eauto.
        -- apply (Ho (i - 1) (j - 1))%nat; [lia|rewrite lookup_joined..].
           ++ destruct (decide _); [lia|].
              replace (i - 1 - length l1)%nat with (i - length l1 - 1)%nat by lia. done.
           ++ destruct (decide _); [lia|].
              replace (j - 1 - length l1)%nat with (j - length l1 - 1)%nat by lia. done.
Qed.

Lemma inOrder_remove (lessThan : T -> T -> bool) (l1 l2 : list T) v :
  QList.inOrder lessThan (l1 ++ v :: l2) -> QList.inOrder lessThan (l1 ++ l2).
Proof.
  intros Ho i j x y Hij Hx Hy. rewrite lookup_joined in Hx, Hy.
  destruct (decide (j < length l1)%nat).
  - destruct (decide (i < length l1)%nat); [|lia].
    apply (Ho i j); [lia|rewrite lookup_inserted..];
      destruct (decide _); (done || lia).
  - destruct (decide (i < length l1)%nat).
    + apply (Ho i (S j)); [lia|rewrite lookup_inserted..].
      * destruct (decide _); (done || lia).
      * destruct (decide _); [lia|]. destruct (decide _); [lia|].
        replace (S j - length l1 - 1)%nat with (j - length l1)%nat by lia. done.
    + apply (Ho (S i) (S j)); [lia|rewrite lookup_inserted..].
      * destruct (decide _); [lia|]. destruct (decide _); [lia|].
        replace (S i - length l1 - 1)%nat with (i - length l1)%nat by lia. done.
      * destruct (decide _); [lia|]. destruct (decide _); [lia|].
        replace (S j - length l1 - 1)%nat with (j - length l1)%nat by lia. done.
Qed.

Lemma indexOf_found (l : list T) value :
  value ∈ l ->
  0 <= QList.indexOf l value < Z.of_nat (length l)
  ∧ l !! Z.to_nat (QList.indexOf l value) = Some value
  ∧ ∀ j, (j < Z.to_nat (QList.indexOf l value))%nat -> l !! j ≠ Some value.
Proof.
  intros Hin. destruct (first_occurrence _ _ Hin) as (l1 & l2 & E & Hl1).
  subst l. unfold QList.indexOf. rewrite qlist_indexOf_first by exact Hl1.
  rewrite Z.add_0_l, Nat2Z.id. split; [|split].
  - rewrite length_app. simpl. lia.
  - by apply list_lookup_middle.
  - intros j Hj Hx. rewrite lookup_app_l in Hx by exact Hj.
    apply Hl1. by eapply list_elem_of_lookup_2.
Qed.

Lemma value_lookup (l : list T) (i : nat) (x defaultValue : T) :
  l !! i = Some x -> value l (Z.of_nat i) defaultValue = x.
Proof.
  intros H. unfold value. pose proof (lookup_lt_Some _ _ _ H) as Hlt.
  destruct (Z.ltb_spec (Z.of_nat i) 0); [lia|].
  destruct (Z.leb_spec (Z.of_nat (length l)) (Z.of_nat i)); [lia|].
  rewrite Nat2Z.id. by apply nth_lookup_Some.
Qed.

(** Inserting at the upper bound keeps a list in order.  Of [lessThan] it
    takes that, on the value and the elements of the list, it is asymmetric
    and "not less than" is transitive. *)
Lemma insert_upper_bound (lessThan : T -> T -> bool) (l : list T) v :
  (∀ y, y ∈ l -> lessThan v y = true -> lessThan y v = false) ->
  (∀ x y, x ∈ l -> y ∈ l ->
          lessThan v y = false -> lessThan y x = false -> lessThan v x = false) ->
  QList.inOrder lessThan l ->
  let r := Z.to_nat (QList.qUpperBound l v lessThan) in
  QList.inOrder lessThan (take r l ++ v :: drop r l)
  ∧ Forall (fun x => lessThan v x = false) (take r l)
  ∧ Forall (fun y => lessThan v y = true) (drop r l).
Proof.
  intros Ha Hn Ho r.
  destruct (qUpperBound_spec l v lessThan) as [Hr Hpart]. fold r in Hr.
  destruct Hpart as [Hlow Hup].
  { intros i j x y Hij Hx Hy Hvx. destruct (decide (i = j)) as [->|N]; [congruence|].
    destruct (lessThan v y) eqn:Hvy; [reflexivity|].
    rewrite (Hn x y) in Hvx; [discriminate|by eapply list_elem_of_lookup_2..|exact Hvy|].
    apply (Ho i j); [lia|done..]. }
  assert (H1 : Forall (fun x => lessThan v x = false) (take r l)).
  { apply Forall_lookup. intros i x Hx. apply lookup_take_Some in Hx as [Hx Hi].
    apply (Hlow i); [lia|exact Hx]. }
  assert (H2 : Forall (fun y => lessThan v y = true) (drop r l)).
  { apply Forall_lookup. intros i y Hy. rewrite lookup_drop in Hy.
    apply (Hup (r + i)%nat); [lia|exact Hy]. }
  split; [|split; [exact H1|exact H2]].
  apply inOrder_insert; [by rewrite take_drop|exact H1|].
  apply Forall_lookup. intros i y Hy. apply Ha.
  - rewrite lookup_drop in Hy. by eapply list_elem_of_lookup_2.
  - rewrite Forall_lookup in H2. by eapply H2.
Qed.

End Lists.

Lemma setUserList_same (d : IrcUserModelPrivate) : setUserList d (userList d) = d.
Proof. by destruct d. Qed.

(** [addUser] inserts at an index of the list: behind the last element when
    the model does not sort, at the upper bound when it does. *)
Lemma addUser_index lessThan names (d : IrcUserModelPrivate) (user : IrcUserPtr) :
  ∃ idx,
    0 <= idx <= Z.of_nat (length (userList d))
    ∧ idx = (if dynamicSort d
             then QList.qUpperBound (userList d) user (comparator lessThan (sortOrder d))
             else Z.of_nat (length (userList d)))
    ∧ addUser lessThan names d user
      = (let userList' := take (Z.to_nat idx) (userList d)
                          ++ user :: drop (Z.to_nat idx) (userList d) in
         ([beginInsertRows idx idx; endInsertRows; added user; namesChanged names;
           usersChanged userList'; countChanged (Z.of_nat (length userList'))],
          setUserList d userList')).
Proof.
  unfold addUser.
  destruct (dynamicSort d); [destruct (sortOrder d)|]; cbv zeta;
    eexists; (split; [|split; [reflexivity|]]).
  - apply (qUpperBound_spec (userList d) user (IrcUserLessThan lessThan)).
  - rewrite insert_split; [reflexivity|].
    apply (qUpperBound_spec (userList d) user (IrcUserLessThan lessThan)).
  - apply (qUpperBound_spec (userList d) user (IrcUserGreaterThan lessThan)).
  - rewrite insert_split; [reflexivity|].
    apply (qUpperBound_spec (userList d) user (IrcUserGreaterThan lessThan)).
  - lia.
  - rewrite insert_split; [reflexivity|lia].
Qed.

(** X12.  [indexOf] returns -1 exactly for a user that is not in the list.
    For one that is, it returns the first row that holds it: a row of the
    list at which [get] returns the user and before which [get] returns
    others. *)
Theorem indexOf_get (d : IrcUserModelPrivate) (user : IrcUserPtr) :
  (IrcUserList.indexOf d user = -1 <-> (user ∉ userList d))
  ∧ ((user ∈ userList d) ->
     0 <= IrcUserList.indexOf d user < Z.of_nat (length (userList d))
     ∧ get d (IrcUserList.indexOf d user) = (user, d)
     ∧ ∀ j, 0 <= j < IrcUserList.indexOf d user -> (get d j).1 ≠ user).
Proof.
  unfold IrcUserList.indexOf, QList.indexOf.
  destruct (decide (user ∈ userList d)) as [Hin|Hn].
  - destruct (first_occurrence _ _ Hin) as (l1 & l2 & E & Hl1).
    assert (Hi : QList.indexOf_from (userList d) user 0 = Z.of_nat (length l1)).
    { rewrite E, qlist_indexOf_first by exact Hl1. lia. }
    rewrite Hi. split; [split; [lia|done]|]. intros _. split; [|split].
    + rewrite E, length_app. simpl. lia.
    + apply IrcUserModelFacts.get_in_range. rewrite E. by apply list_lookup_middle.
    + intros j Hj. destruct (l1 !! Z.to_nat j) as [x|] eqn:Hx.
      2:{ apply lookup_ge_None in Hx. lia. }
      replace j with (Z.of_nat (Z.to_nat j)) by lia.
      rewrite (IrcUserModelFacts.get_in_range d (Z.to_nat j) x).
      * simpl. intros ->. apply Hl1. by eapply list_elem_of_lookup_2.
      * rewrite E. rewrite lookup_app_l; [exact Hx|]. by eapply lookup_lt_Some.
  - rewrite qlist_indexOf_absent by exact Hn. split; [done|]. intros Hin. done.
Qed.

(** X13.  [addUser] puts the user into the list once and moves no other
    user: the list splits into the part before the new row and the part
    behind it, and the part behind is empty when the model does not sort.
    The signals name that row, the user, the new list and a count that is
    one more than before; role, sort order and the sort flag stay. *)
Theorem addUser_inserts lessThan names (d : IrcUserModelPrivate) (user : IrcUserPtr) :
  ∃ l1 l2,
    userList d = l1 ++ l2
    ∧ addUser lessThan names d user
      = ([beginInsertRows (Z.of_nat (length l1)) (Z.of_nat (length l1));
          endInsertRows; added user; namesChanged names;
          usersChanged (l1 ++ user :: l2);
          countChanged (Z.of_nat (length (userList d)) + 1)],
         mkPrivate (role d) (sortOrder d) (dynamicSort d) (l1 ++ user :: l2))
    ∧ (dynamicSort d = false -> l2 = []).
Proof.
  destruct (addUser_index lessThan names d user) as (idx & Hidx & Hdef & ->).
  exists (take (Z.to_nat idx) (userList d)), (drop (Z.to_nat idx) (userList d)).
  split; [by rewrite take_drop|]. split.
  - cbv zeta. rewrite length_take_le by lia. rewrite Z2Nat.id by lia.
    unfold setUserList. repeat f_equal.
    rewrite length_app. simpl. rewrite length_take, length_drop. lia.
  - intros Hs. rewrite Hs in Hdef. subst idx. rewrite Nat2Z.id. by apply drop_all.
Qed.

(** X14.  A model that sorts dynamically and whose list is in order for the
    comparator of its sort order is in order after [addUser] too, and the
    new user stands behind every user that the comparator does not put
    after it.  Of the comparator this takes that, on the new user and the
    users of the list, it is asymmetric and "not less than" is transitive. *)
Theorem addUser_keeps_order lessThan names (d : IrcUserModelPrivate) (user : IrcUserPtr) :
  dynamicSort d = true ->
  (∀ y, (y ∈ userList d) -> comparator lessThan (sortOrder d) user y = true ->
        comparator lessThan (sortOrder d) y user = false) ->
  (∀ x y, (x ∈ userList d) -> (y ∈ userList d) ->
          comparator lessThan (sortOrder d) user y = false ->
          comparator lessThan (sortOrder d) y x = false ->
          comparator lessThan (sortOrder d) user x = false) ->
  QList.inOrder (comparator lessThan (sortOrder d)) (userList d) ->
  ∃ l1 l2,
    userList d = l1 ++ l2
    ∧ userList (addUser lessThan names d user).2 = l1 ++ user :: l2
    ∧ QList.inOrder (comparator lessThan (sortOrder d)) (l1 ++ user :: l2)
    ∧ Forall (fun x => comparator lessThan (sortOrder d) user x = false) l1
    ∧ Forall (fun y => comparator lessThan (sortOrder d) user y = true) l2.
Proof.
  intros Hs Ha Hn Ho.
  destruct (addUser_index lessThan names d user) as (idx & Hidx & Hdef & ->).
  rewrite Hs in Hdef.
  destruct (insert_upper_bound _ _ user Ha Hn Ho) as (Ho' & H1 & H2).
  rewrite <- Hdef in Ho', H1, H2.
  exists (take (Z.to_nat idx) (userList d)), (drop (Z.to_nat idx) (userList d)).
  split; [by rewrite take_drop|]. split; [reflexivity|]. done.
Qed.

(** X15.  [removeUser] does nothing, and announces nothing, for a user that
    is not in the list.  Otherwise it takes out the first occurrence of the
    user and no other element, and the signals name the row of that
    occurrence, the user, the new list and a count that is one less than
    before.  A list that is in order, for whatever comparator, stays so. *)
Theorem removeUser_spec names (d : IrcUserModelPrivate) (user : IrcUserPtr) :
  ((user ∉ userList d) -> removeUser names d user = ([], d))
  ∧ (∀ l1 l2, userList d = l1 ++ user :: l2 -> (user ∉ l1) ->
       removeUser names d user
       = ([beginRemoveRows (Z.of_nat (length l1)) (Z.of_nat (length l1));
           endRemoveRows; removed user; namesChanged names;
           usersChanged (l1 ++ l2);
           countChanged (Z.of_nat (length (userList d)) - 1)],
          mkPrivate (role d) (sortOrder d) (dynamicSort d) (l1 ++ l2)))
  ∧ (∀ lessThan : IrcUserPtr -> IrcUserPtr -> bool,
       QList.inOrder lessThan (userList d) ->
       QList.inOrder lessThan (userList (removeUser names d user).2)).
Proof.
  assert (Hout : (user ∉ userList d) -> removeUser names d user = ([], d)).
  { intros Hn. unfold removeUser, QList.indexOf.
    rewrite qlist_indexOf_absent by exact Hn. reflexivity. }
  assert (Hin : ∀ l1 l2, userList d = l1 ++ user :: l2 -> (user ∉ l1) ->
       removeUser names d user
       = ([beginRemoveRows (Z.of_nat (length l1)) (Z.of_nat (length l1));
           endRemoveRows; removed user; namesChanged names;
           usersChanged (l1 ++ l2);
           countChanged (Z.of_nat (length (userList d)) - 1)],
          mkPrivate (role d) (sortOrder d) (dynamicSort d) (l1 ++ l2))).
  { intros l1 l2 E Hl1. unfold removeUser, QList.indexOf.
    rewrite E, qlist_indexOf_first by exact Hl1. rewrite Z.add_0_l.
    destruct (Z.eqb_spec (Z.of_nat (length l1)) (-1)); [lia|]. cbn [negb].
    cbv zeta. rewrite removeAt_middle. unfold setUserList. repeat f_equal.
    rewrite !length_app. simpl. lia. }
  split; [exact Hout|]. split; [exact Hin|].
  intros lessThan Ho. destruct (decide (user ∈ userList d)) as [Hu|Hu].
  - destruct (first_occurrence _ _ Hu) as (l1 & l2 & E & Hl1).
    rewrite (Hin l1 l2 E Hl1). simpl. rewrite E in Ho. by eapply inOrder_remove.
  - rewrite (Hout Hu). exact Ho.
Qed.

(** X16.  Removing a user right after adding it gives back the model as it
    was, sorted or not, if the user was not in the list before. *)
Theorem addUser_removeUser lessThan names names'
    (d : IrcUserModelPrivate) (user : IrcUserPtr) :
  (user ∉ userList d) ->
  (removeUser names' (addUser lessThan names d user).2 user).2 = d.
Proof.
  intros Hn.
  destruct (addUser_index lessThan names d user) as (idx & Hidx & _ & ->).
  cbv zeta. cbn [snd]. unfold removeUser, QList.indexOf. cbn [userList setUserList].
  assert (Hl1 : user ∉ take (Z.to_nat idx) (userList d)).
  { intros Hin. apply Hn. apply elem_of_take in Hin as (i & Hi & _).
    by eapply list_elem_of_lookup_2. }
  rewrite qlist_indexOf_first by exact Hl1. rewrite Z.add_0_l.
  destruct (Z.eqb_spec (Z.of_nat (length (take (Z.to_nat idx) (userList d)))) (-1));
    [lia|].
  cbn [negb snd]. rewrite removeAt_middle, take_drop. unfold setUserList. cbn.
  by destruct d.
Qed.

(** X17.  With [lessThan] as the model defines it, a list of members of
    one network that is in order for the sort order of a dynamically sorted
    model is in order after [addUser] of another member of that network. *)
Theorem addUser_order_of_lessThan (foldCase : Z -> Z -> Z) names
    (d : IrcUserModelPrivate) (user : IrcUserPtr) (prefixes : list QString) :
  dynamicSort d = true ->
  Forall (onNetwork prefixes) (user :: userList d) ->
  QList.inOrder (comparator (lessThan_pointers foldCase) (sortOrder d)) (userList d) ->
  QList.inOrder (comparator (lessThan_pointers foldCase) (sortOrder d))
    (userList (addUser (lessThan_pointers foldCase) names d user).2).
Proof.
  intros Hs Hnet Ho.
  destruct (addUser_index (lessThan_pointers foldCase) names d user)
    as (idx & Hidx & Hdef & ->).
  rewrite Hs in Hdef. cbv zeta. cbn [snd userList setUserList]. subst idx.
  apply Forall_cons in Hnet as [(u & -> & Hu) Hnet]. rewrite Forall_forall in Hnet.
  apply insert_upper_bound; [| |exact Ho].
  - intros y Hy. destruct (Hnet y Hy) as (v & -> & Hv).
    destruct (sortOrder d); cbn;
      apply IrcUserOrderFacts.lessThan_asymmetric; congruence.
  - intros x y Hx Hy. destruct (Hnet x Hx) as (v & -> & Hv).
    destruct (Hnet y Hy) as (w & -> & Hw).
    destruct (sortOrder d); cbn.
    + apply IrcUserOrderFacts.lessThan_negatively_transitive; congruence.
    + intros H1 H2.
      apply (IrcUserOrderFacts.lessThan_negatively_transitive _ v w u);
        congruence.
Qed.

(** What [index(user)] returns. *)
Lemma index_user_spec (m : IrcUserModelObject) (user : IrcUserPtr) :
  index_user m user
  = if decide (channel m ≠ 0 ∧ (user ∈ userList (d_ptr m)))
    then mkIndex (QList.indexOf (userList (d_ptr m)) user) 0 user (this m)
    else invalidIndex.
Proof.
  unfold index_user, index, hasIndex, rowCount.
  change (isValid invalidIndex) with false. cbn [columnCount].
  change (0 <? 0) with false. change (0 <? 1) with true.
  rewrite orb_false_r, andb_true_r. cbn [orb].
  destruct (Z.eqb_spec (channel m) 0) as [E|N]; cbn [orb].
  { destruct (decide _) as [[? _]|]; [done|reflexivity]. }
  destruct (decide (user ∈ userList (d_ptr m))) as [Hin|Hn].
  - destruct (indexOf_found _ _ Hin) as (Hr & Hx & _).
    destruct (decide _) as [_|X]; [|exfalso; apply X; done].
    destruct (Z.ltb_spec (QList.indexOf (userList (d_ptr m)) user) 0); [lia|].
    destruct (Z.ltb_spec (QList.indexOf (userList (d_ptr m)) user)
                (Z.of_nat (length (userList (d_ptr m))))); [|lia].
    cbn [negb]. f_equal.
    rewrite <- (Z2Nat.id (QList.indexOf (userList (d_ptr m)) user)) at 1 by lia.
    by apply value_lookup.
  - unfold QList.indexOf. rewrite qlist_indexOf_absent by exact Hn.
    destruct (decide _) as [[_ ?]|]; [done|reflexivity].
Qed.

(** X18.  [user(index(u))] is [u] for a user of the list of a model that
    has a channel.  For every other pointer, and in a model without
    channel, [index(u)] is the invalid index and [user] of it is null. *)
Theorem user_of_index (m : IrcUserModelObject) (user : IrcUserPtr) :
  user_index m (index_user m user)
  = (if decide (channel m ≠ 0 ∧ (user ∈ userList (d_ptr m))) then user else None)
  ∧ (index_user m user = invalidIndex
     <-> ¬ (channel m ≠ 0 ∧ (user ∈ userList (d_ptr m)))).
Proof.
  rewrite index_user_spec.
  destruct (decide (channel m ≠ 0 ∧ (user ∈ userList (d_ptr m)))) as [[Hc Hin]|Hn].
  - destruct (indexOf_found _ _ Hin) as (Hr & _ & _). split.
    + unfold user_index, hasIndex, rowCount. cbn [row column internalPointer].
      destruct (Z.eqb_spec (channel m) 0); [done|]. cbn [orb].
      destruct (Z.ltb_spec (QList.indexOf (userList (d_ptr m)) user) 0); [lia|].
      change (0 <? 0) with false. cbn [orb columnCount].
      destruct (Z.ltb_spec (QList.indexOf (userList (d_ptr m)) user)
                  (Z.of_nat (length (userList (d_ptr m))))); [|lia].
      reflexivity.
    + split; [|intros X; exfalso; apply X; done].
      unfold invalidIndex. intros X. injection X as X _ _ _. lia.
  - split; [reflexivity|]. split; [intros _; exact Hn|reflexivity].
Qed.

(** X19.  [sort] leaves the persistent indexes on their users, whatever
    order [qSort] gives the list, as long as it only reorders it: the index
    of a user of the list is replaced by the index of the first row that
    holds the user after sorting.  The index of any other pointer, and every
    index of a model without channel, is replaced by the invalid index. *)
Theorem sort_persistent_indexes
    (qSort : (IrcUserPtr -> IrcUserPtr -> bool) -> list IrcUserPtr -> list IrcUserPtr)
    (lessThan : IrcUserPtr -> IrcUserPtr -> bool)
    (m : IrcUserModelObject) (persistentIndexList : list QModelIndex)
    (column' : Z) (order : SortOrder) :
  (∀ cmp l, qSort cmp l ≡ₚ l) ->
  ∃ m' newPersistentIndexes,
    sort qSort lessThan m persistentIndexList column' order
    = ([layoutAboutToBeChanged; layoutChanged], newPersistentIndexes, m')
    ∧ sortOrder (d_ptr m') = order
    ∧ userList (d_ptr m') ≡ₚ userList (d_ptr m)
    ∧ length newPersistentIndexes = length persistentIndexList
    ∧ ∀ k old new,
        persistentIndexList !! k = Some old -> newPersistentIndexes !! k = Some new ->
        if decide (channel m ≠ 0 ∧ (internalPointer old ∈ userList (d_ptr m)))
        then internalPointer new = internalPointer old
             ∧ model new = this m ∧ column new = 0 ∧ 0 <= row new
             ∧ userList (d_ptr m') !! Z.to_nat (row new) = Some (internalPointer old)
             ∧ ∀ j, (j < Z.to_nat (row new))%nat ->
                    userList (d_ptr m') !! j ≠ Some (internalPointer old)
        else new = invalidIndex.
Proof.
  intros Hperm. unfold sort. cbv zeta. eexists _, _. split; [reflexivity|].
  cbn [d_ptr sortOrder userList].
  set (l' := match order with
             | AscendingOrder => qSort (IrcUserLessThan lessThan) (userList (d_ptr m))
             | DescendingOrder => qSort (IrcUserGreaterThan lessThan) (userList (d_ptr m))
             end).
  assert (Hl' : l' ≡ₚ userList (d_ptr m)) by (destruct order; apply Hperm).
  split; [reflexivity|]. split; [exact Hl'|]. split; [by rewrite !length_map|].
  intros k old new Hold Hnew. rewrite !list_lookup_fmap, Hold in Hnew.
  cbn in Hnew. injection Hnew as <-. rewrite index_user_spec. cbn [channel d_ptr userList this].
  destruct (decide (channel m ≠ 0 ∧ (internalPointer old ∈ userList (d_ptr m))))
    as [[Hc Hin]|Hn].
  - assert (Hin' : internalPointer old ∈ l') by (by rewrite Hl').
    destruct (decide _) as [_|X]; [|exfalso; apply X; done].
    destruct (indexOf_found _ _ Hin') as (Hr & Hx & Hfirst).
    cbn [internalPointer model column row]. repeat split; (done || lia).
  - destruct (decide _) as [[Hc Hin]|_]; [|reflexivity].
    exfalso. apply Hn. split; [exact Hc|]. by rewrite <- Hl'.
Qed.

Lemma removeOne_appended (l : list Z) (x : Z) : (x ∉ l) -> removeOne (l ++ [x]) x = l.
Proof.
  induction l as [|y l IH]; intros Hn; simpl.
  - by rewrite Z.eqb_refl.
  - apply not_elem_of_cons in Hn as [Hy Hl].
    destruct (Z.eqb_spec y x); [congruence|]. by rewrite IH.
Qed.

(** The users that [setUsers] gives a model. *)
Lemma setUsers_list qSort lessThan names (d : IrcUserModelPrivate) (users : list IrcUserPtr) :
  setUsers lessThan names qSort d users
  = (let l := if dynamicSort d
              then qSort (comparator lessThan (sortOrder d)) users else users in
     ([beginResetModel] ++ map added l
      ++ [endResetModel; namesChanged names; usersChanged l;
          countChanged (Z.of_nat (length l))],
      setUserList d l)).
Proof.
  unfold setUsers. destruct (dynamicSort d); [|reflexivity].
  by destruct (sortOrder d).
Qed.

(** [setChannel] to the null pointer and to a channel of the heap. *)
Lemma setChannel_null qSort lessThan (heap : gmap Z IrcChannelPrivate)
    (m : IrcUserModelObject) :
  channel m ≠ 0 ->
  setChannel qSort lessThan heap m 0
  = ([beginResetModel; endResetModel; channelChanged 0],
     alter (fun c => mkChannel (ch_userList c) (ch_names c)
                       (removeOne (ch_userModels c) (this m))) (channel m) heap,
     mkModel (this m) 0 (d_ptr m)).
Proof.
  intros Hc. unfold setChannel.
  destruct (Z.eqb_spec (channel m) 0) as [|_]; [done|]. reflexivity.
Qed.

Lemma setChannel_channel qSort lessThan (heap : gmap Z IrcChannelPrivate)
    (m : IrcUserModelObject) (channel' : Z) (c : IrcChannelPrivate) :
  channel' ≠ 0 -> channel m ≠ channel' -> heap !! channel' = Some c ->
  setChannel qSort lessThan heap m channel'
  = (let l := if dynamicSort (d_ptr m)
              then qSort (comparator lessThan (sortOrder (d_ptr m))) (ch_userList c)
              else ch_userList c in
     ([beginResetModel; beginResetModel] ++ map added l
      ++ [endResetModel; namesChanged (ch_names c); usersChanged l;
          countChanged (Z.of_nat (length l)); endResetModel; channelChanged channel'],
      alter (fun c => mkChannel (ch_userList c) (ch_names c)
                        (ch_userModels c ++ [this m])) channel'
        (if negb (channel m =? 0)
         then alter (fun c => mkChannel (ch_userList c) (ch_names c)
                                (removeOne (ch_userModels c) (this m)))
                (channel m) heap
         else heap),
      mkModel (this m) channel' (setUserList (d_ptr m) l))).
Proof.
  intros Hc' Hne Hc. unfold setChannel.
  destruct (Z.eqb_spec (channel m) channel') as [|_]; [done|]. cbn [negb].
  destruct (Z.eqb_spec channel' 0) as [|_]; [done|]. cbn [negb].
  set (heap1 := if negb (channel m =? 0) then _ else heap).
  assert (H1 : heap1 !! channel' = Some c).
  { subst heap1. destruct (negb (channel m =? 0)); [|exact Hc].
    rewrite lookup_alter_ne by done. exact Hc. }
  rewrite lookup_alter_eq, H1.
  cbn [fmap option_fmap option_map default id ch_userList ch_names].
  rewrite setUsers_list. cbv zeta. cbn [app]. rewrite <- app_assoc. reflexivity.
Qed.

(** X20.  [setChannel(0)] on a model that has a channel takes the model off
    the list of models of that channel and touches no other channel.  It
    leaves the list of users as it is: [count] is 0 from then on, while
    [users] and [get] still give the users of the channel that was left.
    The model announces a reset and [channelChanged], and neither
    [usersChanged] nor [countChanged]. *)
Theorem setChannel_detach
    (qSort : (IrcUserPtr -> IrcUserPtr -> bool) -> list IrcUserPtr -> list IrcUserPtr)
    (lessThan : IrcUserPtr -> IrcUserPtr -> bool)
    (heap : gmap Z IrcChannelPrivate) (m : IrcUserModelObject) :
  channel m ≠ 0 ->
  (setChannel qSort lessThan heap m 0).1.1
  = [beginResetModel; endResetModel; channelChanged 0]
  ∧ IrcUserList.count (setChannel qSort lessThan heap m 0).2 = 0
  ∧ users (setChannel qSort lessThan heap m 0).2 = users m
  ∧ (∀ i, get (d_ptr (setChannel qSort lessThan heap m 0).2) i = get (d_ptr m) i)
  ∧ (setChannel qSort lessThan heap m 0).1.2 !! channel m
    = (fun c => mkChannel (ch_userList c) (ch_names c)
                  (removeOne (ch_userModels c) (this m))) <$> heap !! channel m
  ∧ ∀ a, a ≠ channel m -> (setChannel qSort lessThan heap m 0).1.2 !! a = heap !! a.
Proof.
  intros Hc. rewrite setChannel_null by exact Hc. cbn [fst snd].
  repeat split.
  - apply lookup_alter_eq.
  - intros a Ha. by apply lookup_alter_ne.
Qed.

(** X21.  [setChannel] to another channel gives the model the users of
    that channel, sorted if the model sorts dynamically, and appends the
    model to the models of the channel.  [count] is then the number of
    these users, the number that [countChanged] carries; every user is
    announced by [added], in the order of the list, between two nested
    resets. *)
Theorem setChannel_attach
    (qSort : (IrcUserPtr -> IrcUserPtr -> bool) -> list IrcUserPtr -> list IrcUserPtr)
    (lessThan : IrcUserPtr -> IrcUserPtr -> bool)
    (heap : gmap Z IrcChannelPrivate) (m : IrcUserModelObject)
    (channel' : Z) (c : IrcChannelPrivate) :
  channel' ≠ 0 -> channel m ≠ channel' -> heap !! channel' = Some c ->
  let l := if dynamicSort (d_ptr m)
           then qSort (comparator lessThan (sortOrder (d_ptr m))) (ch_userList c)
           else ch_userList c in
  (setChannel qSort lessThan heap m channel').1.1
  = [beginResetModel; beginResetModel] ++ map added l
    ++ [endResetModel; namesChanged (ch_names c); usersChanged l;
        countChanged (Z.of_nat (length l)); endResetModel; channelChanged channel']
  ∧ users (setChannel qSort lessThan heap m channel').2 = l
  ∧ IrcUserList.count (setChannel qSort lessThan heap m channel').2
    = Z.of_nat (length l)
  ∧ channel (setChannel qSort lessThan heap m channel').2 = channel'
  ∧ (setChannel qSort lessThan heap m channel').1.2 !! channel'
    = Some (mkChannel (ch_userList c) (ch_names c) (ch_userModels c ++ [this m])).
Proof.
  intros Hc' Hne Hc l.
  rewrite (setChannel_channel qSort lessThan heap m channel' c Hc' Hne Hc).
  cbv zeta. fold l. cbn [fst snd].
  unfold IrcUserList.count, rowCount, users. cbn [channel d_ptr userList setUserList].
  destruct (Z.eqb_spec channel' 0) as [|_]; [done|]. cbn [orb].
  repeat split. rewrite lookup_alter_eq.
  assert (H1 : (if negb (channel m =? 0)
                then alter (fun c => mkChannel (ch_userList c) (ch_names c)
                                       (removeOne (ch_userModels c) (this m)))
                       (channel m) heap
                else heap) !! channel' = Some c).
  { destruct (negb (channel m =? 0)); [|exact Hc].
    rewrite lookup_alter_ne by done. exact Hc. }
  by rewrite H1.
Qed.

(** X22.  Attaching a model without channel to a channel and detaching it
    again leaves the channels as they were, if the model was not among the
    models of the channel before.  The model is not as it was: it keeps the
    users of the channel, with a [count] of 0. *)
Theorem setChannel_round_trip
    (qSort : (IrcUserPtr -> IrcUserPtr -> bool) -> list IrcUserPtr -> list IrcUserPtr)
    (lessThan : IrcUserPtr -> IrcUserPtr -> bool)
    (heap : gmap Z IrcChannelPrivate) (m : IrcUserModelObject)
    (channel' : Z) (c : IrcChannelPrivate) :
  channel m = 0 -> channel' ≠ 0 -> heap !! channel' = Some c ->
  (this m ∉ ch_userModels c) ->
  let attached := setChannel qSort lessThan heap m channel' in
  let detached := setChannel qSort lessThan attached.1.2 attached.2 0 in
  detached.1.2 = heap
  ∧ channel detached.2 = 0
  ∧ IrcUserList.count detached.2 = 0
  ∧ users detached.2 = users attached.2.
Proof.
  intros Hm Hc' Hc Hthis. cbv zeta.
  rewrite (setChannel_channel qSort lessThan heap m channel' c Hc')
    by (exact Hc || congruence).
  cbv zeta. cbn [fst snd]. rewrite setChannel_null by exact Hc'.
  cbn [fst snd channel this]. rewrite Hm. change (negb (0 =? 0)) with false.
  repeat split. apply map_eq. intros a.
  destruct (decide (a = channel')) as [->|Ha].
  - rewrite !lookup_alter_eq, Hc. cbn. rewrite removeOne_appended by exact Hthis.
    by destruct c.
  - by rewrite !lookup_alter_ne.
Qed.

(** C10.  On a model that has a channel, [get(index)] is the null pointer
    for every [index] outside [0, count()), and the model is what it was.
    On a model without channel this fails: [count()] is [rowCount()], which
    is 0 there, so that every index is outside the range, whereas [get]
    reads [d->userList] without looking at [d->channel].  After
    [setChannel(0)] the list still holds the users of the channel that the
    model has left, and [get(index)] returns the pointer that the list has
    at [index].  The model is unchanged then too.  [index(row, column,
    parent)], which reads the same list, returns the invalid index
    there. *)
Theorem get_outside_count
    (qSort : (IrcUserPtr -> IrcUserPtr -> bool) -> list IrcUserPtr -> list IrcUserPtr)
    (lessThan : IrcUserPtr -> IrcUserPtr -> bool)
    (heap : gmap Z IrcChannelPrivate) (m : IrcUserModelObject) (index : Z) :
  channel m ≠ 0 ->
  (index < 0 ∨ count m <= index -> get (d_ptr m) index = (None, d_ptr m))
  ∧ count (setChannel qSort lessThan heap m 0).2 = 0
  ∧ (index < 0 ∨ count (setChannel qSort lessThan heap m 0).2 <= index)
  ∧ (∀ user, 0 <= index -> userList (d_ptr m) !! Z.to_nat index = Some user ->
       get (d_ptr (setChannel qSort lessThan heap m 0).2) index
       = (user, d_ptr (setChannel qSort lessThan heap m 0).2))
  ∧ (∀ column parent,
       IrcUserList.index (setChannel qSort lessThan heap m 0).2 index column parent
       = invalidIndex).
Proof.
  intros Hc. rewrite setChannel_null by exact Hc. cbn [snd d_ptr].
  assert (H0 : count (mkModel (this m) 0 (d_ptr m)) = 0) by reflexivity.
  split; [|split; [exact H0|split; [rewrite H0; lia|split]]].
  - intros H. apply IrcUserModelFacts.get_outside_list.
    unfold count, rowCount in H. cbn [orb] in H.
    destruct (Z.eqb_spec (channel m) 0) as [|_]; [contradiction|exact H].
  - intros user Hi Hu.
    rewrite <- (Z2Nat.id index Hi) at 1.
    exact (IrcUserModelFacts.get_in_range (d_ptr m) (Z.to_nat index) user Hu).
  - intros column parent. reflexivity.
Qed.

End IrcUserListFacts.

(** * Examples for the further properties *)
Module FurtherChecks.
Import IrcUserModel IrcUserList Sample.

Local Abbreviation byPrefix := (lessThan_pointers Latin1.foldCase).

Lemma startsWith_size (p t : QString) : startsWith t p = true -> qsize p <= qsize t.
Proof.
  revert t. unfold qsize. induction p as [|x p IH]; intros t H; simpl; [lia|].
  destruct t as [|y t]; [discriminate|]. simpl in H.
  apply andb_prop in H as [_ H]. apply IH in H. simpl. lia.
Qed.

Lemma searchLiteral_bounds needle s idx i :
  searchLiteral needle s idx = Some i ->
  idx <= i ∧ i + qsize needle <= idx + qsize s.
Proof.
  revert idx. induction s as [|c s IH]; intros idx; simpl.
  - destruct (startsWith [] needle) eqn:E; [|discriminate].
    intros [= <-]. destruct needle; [simpl; lia|discriminate].
  - destruct (startsWith (c :: s) needle) eqn:E.
    + intros [= <-]. split; [lia|].
      apply startsWith_size in E. lia.
    + intros H. apply IH in H. unfold qsize in *. simpl. lia.
Qed.

Lemma rx_group_findsNonEmpty : findsNonEmpty rx_group.
Proof.
  intros str offset m. unfold indexIn, rx_group. cbn [rx_isValid rx_search].
  cbv zeta. pose proof (qsize_nonneg str) as Hs.
  set (o := if offset <? 0 then offset + qsize str else offset).
  assert (Ho : offset <= o) by (subst o; destruct (Z.ltb_spec offset 0); lia).
  destruct (Z.ltb_spec o 0); [discriminate|].
  destruct (Z.ltb_spec (qsize str) o); [discriminate|]. cbn [orb].
  destruct (searchLiteral _ _ _) as [i|] eqn:E; [|discriminate].
  intros [= <-]. cbn [m_idx m_len]. apply searchLiteral_bounds in E.
  unfold qsize in *. rewrite length_drop in E. simpl in E. lia.
Qed.

Lemma runOf_bounds c s : 0 <= runOf c s <= qsize s.
Proof.
  induction s as [|x s IH]; unfold qsize in *; simpl; [lia|].
  destruct (x =? c); lia.
Qed.

Lemma rx_star_findsAlways : findsAlways rx_star.
Proof.
  intros str offset Ho. unfold indexIn, rx_star. cbn [rx_isValid rx_search]. cbv zeta.
  assert (E1 : (offset <? 0) = false) by lia.
  assert (E2 : (qsize str <? offset) = false) by lia.
  rewrite !E1, E2. cbn [orb].
  eexists. split; [reflexivity|]. cbn [m_idx m_len].
  pose proof (runOf_bounds (QLatin1Char "x") (drop (Z.to_nat offset) str)) as Hr.
  unfold qsize in *. rewrite length_drop in Hr. lia.
Qed.

Lemma insertSorted_permutation {T} (lessThan : T -> T -> bool) x l :
  insertSorted lessThan x l ≡ₚ x :: l.
Proof.
  induction l as [|y l IH]; simpl; [reflexivity|].
  destruct (lessThan x y); [reflexivity|]. rewrite IH. apply Permutation_swap.
Qed.

Lemma qSort_permutation {T} (lessThan : T -> T -> bool) l : qSort lessThan l ≡ₚ l.
Proof.
  induction l as [|x l IH]; simpl; [reflexivity|].
  rewrite insertSorted_permutation. by rewrite IH.
Qed.

Lemma sorted_users_inOrder :
  QList.inOrder (comparator byPrefix (sortOrder sorted_users)) (userList sorted_users).
Proof.
  intros [|[|i]] [|[|j]] x y Hij Hx Hy; try lia; try discriminate.
  injection Hx as <-. injection Hy as <-. reflexivity.
Qed.

Lemma toHtml_unformatted_witness :
  Forall plainChar (QLatin1String "a<b")
  ∧ toHtml Latin1.isDigit Latin1.isSpace Latin1.foldCase Latin1.toUtf8
      (format rx_empty SpanStyle) 0 (QLatin1String "a<b")
    = Some (QLatin1String "a&lt;b").
Proof.
  assert (H : Forall plainChar (QLatin1String "a<b")).
  { repeat (constructor; [split; [reflexivity|vm_compute; discriminate]|]).
    constructor. }
  split; [exact H|].
  exact (proj2 (proj2 (toHtml_unformatted Latin1.isDigit Latin1.isSpace Latin1.foldCase
                         Latin1.toUtf8 (format rx_empty SpanStyle)
                         (QLatin1String "a<b") H)) 0%nat eq_refl).
Defined.

Lemma parseLinks_terminates_witness :
  findsNonEmpty (urlPattern (format rx_group SpanStyle))
  ∧ (∃ result,
       parseLinks Latin1.foldCase Latin1.toUtf8 (S (length (QLatin1String "see xy@z")) + 0)
         (QLatin1String "see xy@z") (urlPattern (format rx_group SpanStyle))
       = Some result)
  ∧ (∃ html,
       toHtml Latin1.isDigit Latin1.isSpace Latin1.foldCase Latin1.toUtf8
         (format rx_group SpanStyle)
         (S (length (processed (toHtml_scan Latin1.isDigit Latin1.isSpace
                                  (format rx_group SpanStyle)
                                  (QLatin1String "see xy@z")))) + 0)
         (QLatin1String "see xy@z")
       = Some html).
Proof.
  split; [exact rx_group_findsNonEmpty|].
  exact (parseLinks_terminates Latin1.isDigit Latin1.isSpace Latin1.foldCase Latin1.toUtf8
           (format rx_group SpanStyle) (QLatin1String "see xy@z") 0
           rx_group_findsNonEmpty).
Defined.

Lemma parseLinks_diverges_witness :
  findsAlways (urlPattern (format rx_star SpanStyle))
  ∧ (∀ fuel, parseLinks Latin1.foldCase Latin1.toUtf8 fuel (QLatin1String "a.b")
               (urlPattern (format rx_star SpanStyle)) = None)
  ∧ (∀ fuel, toHtml Latin1.isDigit Latin1.isSpace Latin1.foldCase Latin1.toUtf8
               (format rx_star SpanStyle) fuel (QLatin1String "a.b") = None).
Proof.
  split; [exact rx_star_findsAlways|].
  pose proof (parseLinks_diverges Latin1.isDigit Latin1.isSpace Latin1.foldCase
                Latin1.toUtf8 (format rx_star SpanStyle) (QLatin1String "a.b")
                rx_star_findsAlways) as [H1 H2].
  split; [exact H1|]. exact (H2 eq_refl eq_refl).
Defined.

Lemma lessThan_strict_weak_order_witness :
  network_prefixes voiced = network_prefixes op
  ∧ network_prefixes bob = network_prefixes op
  ∧ lessThan Latin1.foldCase op op = false
  ∧ (lessThan Latin1.foldCase op voiced = true ->
     lessThan Latin1.foldCase voiced op = false)
  ∧ (lessThan Latin1.foldCase op voiced = true ->
     lessThan Latin1.foldCase voiced bob = true ->
     lessThan Latin1.foldCase op bob = true)
  ∧ (lessThan Latin1.foldCase op voiced = false ->
     lessThan Latin1.foldCase voiced bob = false ->
     lessThan Latin1.foldCase op bob = false).
Proof.
  split; [reflexivity|]. split; [reflexivity|].
  exact (IrcUserOrderFacts.lessThan_strict_weak_order Latin1.foldCase op voiced bob
           eq_refl eq_refl).
Defined.

Lemma addUser_keeps_order_witness :
  dynamicSort sorted_users = true
  ∧ QList.inOrder (comparator byPrefix (sortOrder sorted_users)) (userList sorted_users)
  ∧ ∃ l1 l2,
      userList sorted_users = l1 ++ l2
      ∧ userList (addUser byPrefix [] sorted_users (Some bob)).2 = l1 ++ Some bob :: l2
      ∧ QList.inOrder (comparator byPrefix (sortOrder sorted_users)) (l1 ++ Some bob :: l2)
      ∧ Forall (fun x => comparator byPrefix (sortOrder sorted_users) (Some bob) x = false) l1
      ∧ Forall (fun y => comparator byPrefix (sortOrder sorted_users) (Some bob) y = true) l2.
Proof.
  split; [reflexivity|]. split; [exact sorted_users_inOrder|].
  apply (IrcUserListFacts.addUser_keeps_order byPrefix [] sorted_users (Some bob) eq_refl).
  - intros y Hy. apply list_elem_of_In in Hy. simpl in Hy.
    destruct Hy as [<-|[<-|[]]]; vm_compute; congruence.
  - intros x y Hx Hy. apply list_elem_of_In in Hx. apply list_elem_of_In in Hy.
    simpl in Hx, Hy.
    destruct Hx as [<-|[<-|[]]]; destruct Hy as [<-|[<-|[]]]; vm_compute; congruence.
  - exact sorted_users_inOrder.
Defined.

Lemma addUser_removeUser_witness :
  (Some alice ∉ userList two_users)
  ∧ (removeUser [] (addUser byPrefix [] two_users (Some alice)).2 (Some alice)).2
    = two_users.
Proof.
  assert (H : Some alice ∉ userList two_users).
  { intros H. apply list_elem_of_In in H. simpl in H.
    destruct H as [H|[H|[]]]; discriminate H. }
  split; [exact H|].
  exact (IrcUserListFacts.addUser_removeUser byPrefix [] [] two_users (Some alice) H).
Defined.

Lemma addUser_order_of_lessThan_witness :
  dynamicSort sorted_users = true
  ∧ Forall (onNetwork prefixes) (Some bob :: userList sorted_users)
  ∧ QList.inOrder (comparator byPrefix (sortOrder sorted_users)) (userList sorted_users)
  ∧ QList.inOrder (comparator byPrefix (sortOrder sorted_users))
      (userList (addUser byPrefix [] sorted_users (Some bob)).2).
Proof.
  assert (H : Forall (onNetwork prefixes) (Some bob :: userList sorted_users)).
  { repeat (constructor; [eexists; split; reflexivity|]). constructor. }
  split; [reflexivity|]. split; [exact H|]. split; [exact sorted_users_inOrder|].
  exact (IrcUserListFacts.addUser_order_of_lessThan Latin1.foldCase [] sorted_users (Some bob) prefixes
           eq_refl H sorted_users_inOrder).
Defined.

Lemma sort_persistent_indexes_witness :
  (∀ (cmp : IrcUserPtr -> IrcUserPtr -> bool) l, qSort cmp l ≡ₚ l)
  ∧ ∃ m' newPersistentIndexes,
      sort qSort byPrefix attached [index_of_bob] 0 DescendingOrder
      = ([layoutAboutToBeChanged; layoutChanged], newPersistentIndexes, m')
      ∧ sortOrder (d_ptr m') = DescendingOrder
      ∧ userList (d_ptr m') ≡ₚ userList (d_ptr attached)
      ∧ length newPersistentIndexes = length [index_of_bob]
      ∧ ∀ k old new,
          [index_of_bob] !! k = Some old -> newPersistentIndexes !! k = Some new ->
          if decide (channel attached ≠ 0
                     ∧ (internalPointer old ∈ userList (d_ptr attached)))
          then internalPointer new = internalPointer old
               ∧ model new = this attached ∧ column new = 0 ∧ 0 <= row new
               ∧ userList (d_ptr m') !! Z.to_nat (row new) = Some (internalPointer old)
               ∧ ∀ j, (j < Z.to_nat (row new))%nat ->
                      userList (d_ptr m') !! j ≠ Some (internalPointer old)
          else new = invalidIndex.
Proof.
  split; [exact qSort_permutation|].
  exact (IrcUserListFacts.sort_persistent_indexes qSort byPrefix attached [index_of_bob] 0 DescendingOrder
           qSort_permutation).
Defined.

(** Sorted in descending order, the member without prefix comes first, and
    the persistent index follows it from row 1 to row 0. *)
Example sort_moves_index :
  (sort qSort byPrefix attached [index_of_bob] 0 DescendingOrder).1.2
  = [mkIndex 0 0 (Some bob) 1]
  ∧ userList (d_ptr (sort qSort byPrefix attached [index_of_bob] 0 DescendingOrder).2)
    = [Some bob; Some op].
Proof. split; reflexivity. Qed.

Lemma setChannel_detach_witness :
  channel attached ≠ 0
  ∧ (setChannel qSort byPrefix channels attached 0).1.1
    = [beginResetModel; endResetModel; channelChanged 0]
  ∧ IrcUserList.count (setChannel qSort byPrefix channels attached 0).2 = 0
  ∧ users (setChannel qSort byPrefix channels attached 0).2 = users attached
  ∧ (∀ i, get (d_ptr (setChannel qSort byPrefix channels attached 0).2) i
          = get (d_ptr attached) i)
  ∧ (setChannel qSort byPrefix channels attached 0).1.2 !! channel attached
    = (fun c => mkChannel (ch_userList c) (ch_names c)
                  (removeOne (ch_userModels c) (this attached)))
        <$> channels !! channel attached
  ∧ ∀ a, a ≠ channel attached ->
         (setChannel qSort byPrefix channels attached 0).1.2 !! a = channels !! a.
Proof.
  assert (H : channel attached ≠ 0) by (vm_compute; discriminate).
  split; [exact H|]. exact (IrcUserListFacts.setChannel_detach qSort byPrefix channels attached H).
Defined.

Lemma get_outside_count_witness :
  channel attached ≠ 0
  ∧ (0 < 0 ∨ IrcUserList.count attached <= 0
     -> get (d_ptr attached) 0 = (None, d_ptr attached))
  ∧ IrcUserList.count (setChannel qSort byPrefix channels attached 0).2 = 0
  ∧ (0 < 0 ∨ IrcUserList.count (setChannel qSort byPrefix channels attached 0).2 <= 0)
  ∧ (∀ user, 0 <= 0 -> userList (d_ptr attached) !! Z.to_nat 0 = Some user ->
       get (d_ptr (setChannel qSort byPrefix channels attached 0).2) 0
       = (user, d_ptr (setChannel qSort byPrefix channels attached 0).2))
  ∧ (∀ column parent,
       IrcUserList.index (setChannel qSort byPrefix channels attached 0).2 0 column parent
       = invalidIndex).
Proof.
  assert (H : channel attached ≠ 0) by (vm_compute; discriminate).
  split; [exact H|].
  exact (IrcUserListFacts.get_outside_count qSort byPrefix channels attached 0 H).
Defined.

(** The index 0 is outside [0, count()) of the model that has left its
    channel, and [get(0)] is the first user of that channel, not the null
    pointer; [index(0, 0)] is invalid. *)
Example get_on_detached_model :
  IrcUserList.count (setChannel qSort byPrefix channels attached 0).2 = 0
  ∧ (get (d_ptr (setChannel qSort byPrefix channels attached 0).2) 0).1 = Some op
  ∧ (get (d_ptr (setChannel qSort byPrefix channels attached 0).2) 1).1 = Some bob
  ∧ (get (d_ptr (setChannel qSort byPrefix channels attached 0).2) 2).1 = None
  ∧ IrcUserList.index (setChannel qSort byPrefix channels attached 0).2 0 0 invalidIndex
    = invalidIndex
  ∧ IrcUserList.index attached 0 0 invalidIndex = mkIndex 0 0 (Some op) 1.
Proof. repeat split. Qed.

(** A model that has left its channel counts no user and still returns
    the users of the channel. *)
Example detached_model_keeps_users :
  IrcUserList.count (setChannel qSort byPrefix channels attached 0).2 = 0
  ∧ (get (d_ptr (setChannel qSort byPrefix channels attached 0).2) 0).1 = Some op
  ∧ users (setChannel qSort byPrefix channels attached 0).2 = [Some op; Some bob].
Proof. repeat split. Qed.

Lemma setChannel_attach_witness :
  7 ≠ 0 ∧ channel unattached ≠ 7 ∧ channels !! 7 = Some lobby
  ∧ (setChannel qSort byPrefix channels unattached 7).1.1
    = [beginResetModel; beginResetModel] ++ map added (ch_userList lobby)
      ++ [endResetModel; namesChanged (ch_names lobby); usersChanged (ch_userList lobby);
          countChanged 2; endResetModel; channelChanged 7]
  ∧ users (setChannel qSort byPrefix channels unattached 7).2 = ch_userList lobby
  ∧ IrcUserList.count (setChannel qSort byPrefix channels unattached 7).2 = 2
  ∧ channel (setChannel qSort byPrefix channels unattached 7).2 = 7
  ∧ (setChannel qSort byPrefix channels unattached 7).1.2 !! 7
    = Some (mkChannel (ch_userList lobby) (ch_names lobby)
              (ch_userModels lobby ++ [this unattached])).
Proof.
  assert (H1 : 7 ≠ 0) by lia.
  assert (H2 : channel unattached ≠ 7) by (vm_compute; discriminate).
  assert (H3 : channels !! 7 = Some lobby) by reflexivity.
  split; [exact H1|]. split; [exact H2|]. split; [exact H3|].
  exact (IrcUserListFacts.setChannel_attach qSort byPrefix channels unattached 7 lobby H1 H2 H3).
Defined.

Lemma setChannel_round_trip_witness :
  channel unattached = 0 ∧ 7 ≠ 0 ∧ channels !! 7 = Some lobby
  ∧ (this unattached ∉ ch_userModels lobby)
  ∧ (let attached := setChannel qSort byPrefix channels unattached 7 in
     let detached := setChannel qSort byPrefix attached.1.2 attached.2 0 in
     detached.1.2 = channels
     ∧ channel detached.2 = 0
     ∧ IrcUserList.count detached.2 = 0
     ∧ users detached.2 = users attached.2).
Proof.
  assert (H1 : 7 ≠ 0) by lia.
  assert (H2 : channels !! 7 = Some lobby) by reflexivity.
  assert (H3 : this unattached ∉ ch_userModels lobby).
  { intros H. apply list_elem_of_In in H. simpl in H. destruct H as [H|[]]. lia. }
  split; [reflexivity|]. split; [exact H1|]. split; [exact H2|]. split; [exact H3|].
  exact (IrcUserListFacts.setChannel_round_trip qSort byPrefix channels unattached 7 lobby
           eq_refl H1 H2 H3).
Defined.

(** [setDynamicSort] does not sort, and [addUser] into a list that is not
    in order leaves it out of order: the member without prefix stays before
    the operator. *)
Example addUser_after_setDynamicSort :
  userList (addUser byPrefix []
              (setDynamicSort (mkPrivate 0 AscendingOrder false [Some bob; Some op]) true)
              (Some voiced)).2
  = [Some bob; Some op; Some voiced]
  ∧ byPrefix (Some op) (Some bob) = true.
Proof. split; reflexivity. Qed.

End FurtherChecks.
